(** * FA-Nexus search engine: tokenizer, parser, evaluator, scorer, filter

    A shallow embedding of the "Nexus Search Manager" module
    (tokenizeQuery, parseQueryAST, evaluateExpression, buildHaystack,
    scoreMatch, matches, NexusSearchManager.filter) together with the
    properties its specification states about them.

    Modelling conventions.
    - A JavaScript string is a [string]: a sequence of code units, each
      an [ascii], read as the Latin-1 range U+0000..U+00FF.  On that
      range [toLowerCase], [trim] and the regular-expression classes
      [\s] and [[a-z0-9]] are the ones defined below.
    - A JavaScript number is an integer of [Z] (of a size that
      [ToString] prints in plain decimal).
    - A record is a JavaScript object read by property name: a
      [gmap string jsval]; an absent property reads as [JUndefined].
    - [String.prototype.localeCompare] belongs to the host; it is a
      parameter of every definition that sorts.
    - Arrays and records are passed by reference.  [filter] is written
      over the elements of an array and a function that reads the
      record an element refers to; [Heap] runs the same calls as
      reads, allocations and writes on a store of objects.
    - The parser, the evaluator and the collector of terms recurse on
      the call stack of the host; [CallStack] runs them, [matches] and
      [filter] on a stack of a given number of frames.

    The file also embeds the selection state of GridSelectionHelper,
    the class that shares the source file with the search manager
    (module [GridSelection]), and ends with further properties of
    both. *)

From Stdlib Require Import ZArith Lia List Bool Ascii String DecimalString.
From Stdlib Require Import Sorted Permutation.
From stdpp Require Import base gmap strings list.

Local Open Scope Z_scope.

(* ================================================================== *)
(** ** JavaScript string primitives                                     *)
(* ================================================================== *)

Module JsString.

(** The class [\s] of a regular expression, which is also the set of
    code units removed by [String.prototype.trim], below U+0100:
    TAB, LF, VT, FF, CR, SPACE and NBSP. *)
Definition isWhiteSpace (c : ascii) : bool :=
  match c with
  | "009" | "010" | "011" | "012" | "013" | " " | "160" => true
  | _ => false
  end%char.

(** The class [[a-z0-9]]. *)
Definition isLowerAlnum (c : ascii) : bool :=
  let n := nat_of_ascii c in
  ((97 <=? n) && (n <=? 122) || (48 <=? n) && (n <=? 57))%nat.

(** [toLowerCase] on one code unit: A-Z, and the Latin-1 capitals
    U+00C0..U+00DE except the multiplication sign U+00D7. *)
Definition toLowerChar (c : ascii) : ascii :=
  let n := nat_of_ascii c in
  if ((65 <=? n) && (n <=? 90)
      || (192 <=? n) && (n <=? 222) && negb (n =? 215))%nat
  then ascii_of_nat (n + 32) else c.

Fixpoint toLowerCase (s : string) : string :=
  match s with
  | EmptyString => EmptyString
  | String c r => String (toLowerChar c) (toLowerCase r)
  end.

Definition isEmpty (s : string) : bool :=
  match s with EmptyString => true | _ => false end.

(** [s.startsWith(p)]. *)
Fixpoint startsWith (s p : string) : bool :=
  match p, s with
  | EmptyString, _ => true
  | String _ _, EmptyString => false
  | String a p', String b s' => Ascii.eqb a b && startsWith s' p'
  end.

(** [s.includes(v)]: [v] occurs in [s] at some index. *)
Fixpoint includes (s v : string) : bool :=
  startsWith s v ||
  match s with
  | EmptyString => false
  | String _ r => includes r v
  end.

(** The lowest index at which [v] occurs in [s], if any. *)
Fixpoint firstIndex (s v : string) : option nat :=
  if startsWith s v then Some 0%nat
  else match s with
       | EmptyString => None
       | String _ r => option_map S (firstIndex r v)
       end.

(** [s.indexOf(v)]: the lowest index, or -1. *)
Definition indexOf (s v : string) : Z :=
  match firstIndex s v with
  | Some i => Z.of_nat i
  | None => -1
  end.

(** [s.charAt(i)]: the one-unit string at [i], or the empty string
    when [i] is out of range. *)
Definition charAt (s : string) (i : Z) : string :=
  if i <? 0 then EmptyString
  else match String.get (Z.to_nat i) s with
       | Some c => String c EmptyString
       | None => EmptyString
       end.

Fixpoint trimStart (s : string) : string :=
  match s with
  | EmptyString => EmptyString
  | String c r => if isWhiteSpace c then trimStart r else s
  end.

Fixpoint trimEnd (s : string) : string :=
  match s with
  | EmptyString => EmptyString
  | String c r =>
      let r' := trimEnd r in
      if isEmpty r' && isWhiteSpace c then EmptyString else String c r'
  end.

(** [s.trim()]. *)
Definition trim (s : string) : string := trimEnd (trimStart s).

(** [s.slice(1)]. *)
Definition dropFirst (s : string) : string :=
  match s with
  | EmptyString => EmptyString
  | String _ r => r
  end.

(** [s.slice(0, -1)]. *)
Fixpoint dropLast (s : string) : string :=
  match s with
  | EmptyString => EmptyString
  | String c EmptyString => EmptyString
  | String c r => String c (dropLast r)
  end.

(** [s.endsWith(")")]-style test on one code unit. *)
Fixpoint endsWithChar (s : string) (c : ascii) : bool :=
  match s with
  | EmptyString => false
  | String a EmptyString => Ascii.eqb a c
  | String _ r => endsWithChar r c
  end.

(** No code unit of [s] is [c]. *)
Fixpoint lacksChar (s : string) (c : ascii) : bool :=
  match s with
  | EmptyString => true
  | String a r => negb (Ascii.eqb a c) && lacksChar r c
  end.

(** [parts.join(sep)] on strings. *)
Fixpoint join (sep : string) (parts : list string) : string :=
  match parts with
  | [] => EmptyString
  | [p] => p
  | p :: rest => p +:+ sep +:+ join sep rest
  end.

(** Decimal rendering of an integer, as [Number.prototype.toString]. *)
Definition ofZ (z : Z) : string := NilEmpty.string_of_int (Z.to_int z).

End JsString.
Import JsString.

(* ================================================================== *)
(** ** Tokens and the tokenizer                                         *)
(* ================================================================== *)

(** The payload of a [TERM] token.  A plain term is pushed without an
    [exact] property, which reads as falsy: [exact := false]. *)
Record term := mkTerm { value : string; exact : bool; negated : bool }.

Inductive token :=
| TERM (t : term)
| AND
| OR
| NOT
| LPAREN
| RPAREN.

Module Lexer.

(** One alternative of TOKEN_PATTERN, tried at the start of [s]:
    the lexeme it matches, if it matches. *)

(** [\(] and [\)]. *)
Definition altChar (c : ascii) (s : string) : option string :=
  match s with
  | String a _ => if Ascii.eqb a c then Some (String c EmptyString) else None
  | EmptyString => None
  end.

(** The units of [s] before the first [q], when there is one. *)
Fixpoint upToQuote (q : ascii) (s : string) : option string :=
  match s with
  | EmptyString => None
  | String a r =>
      if Ascii.eqb a q then Some EmptyString
      else option_map (String a) (upToQuote q r)
  end.

(** A quoted span: the quote [q], units other than [q], the quote
    [q] again (the third and fourth alternatives). *)
Definition altQuoted (q : ascii) (s : string) : option string :=
  match s with
  | String a r =>
      if Ascii.eqb a q then
        match upToQuote q r with
        | Some inner => Some (String q (inner +:+ String q EmptyString))
        | None => None
        end
      else None
  | EmptyString => None
  end.

Definition isWordChar (c : ascii) : bool :=
  negb (isWhiteSpace c) && negb (Ascii.eqb c "(") && negb (Ascii.eqb c ")").

(** The longest prefix of units outside [\s()]. *)
Fixpoint wordRun (s : string) : string :=
  match s with
  | EmptyString => EmptyString
  | String a r => if isWordChar a then String a (wordRun r) else EmptyString
  end.

(** [[^\s()]+]. *)
Definition altWord (s : string) : option string :=
  match wordRun s with
  | EmptyString => None
  | w => Some w
  end.

(** The double quote, U+0022. *)
Definition dquote : ascii := "034"%char.

Definition orElse {A} (x y : option A) : option A :=
  match x with Some _ => x | None => y end.

(** TOKEN_PATTERN matched at the start of [s]: an opening
    parenthesis, a closing one, a single-quoted span, a double-quoted
    span, a word, tried in this order. *)
Definition matchAt (s : string) : option string :=
  orElse (altChar "(" s)
    (orElse (altChar ")" s)
       (orElse (altQuoted "'" s)
          (orElse (altQuoted dquote s) (altWord s)))).

(** [String(query).match(TOKEN_PATTERN) || []] with the [g] flag: all
    matches from left to right.  [skip] counts the units of the
    current position that the previous match still covers; a
    position where no alternative matches is stepped over. *)
Fixpoint matchFrom (skip : nat) (s : string) : list string :=
  match s with
  | EmptyString => []
  | String _ r =>
      match skip with
      | S k => matchFrom k r
      | O =>
          match matchAt s with
          | Some lex => lex :: matchFrom (String.length lex - 1) r
          | None => matchFrom 0 r
          end
      end
  end.

Definition matchAll (s : string) : list string := matchFrom 0 s.

End Lexer.

(** [while (tok.startsWith('-')) { negated = true; tok = tok.slice(1) }] *)
Fixpoint stripDashes (negated : bool) (tok : string) : bool * string :=
  match tok with
  | String "-" r => stripDashes true r
  | _ => (negated, tok)
  end.

(** The loop that peels leading parentheses: the tokens it pushes, the
    negation flag and the lexeme it leaves. *)
Fixpoint peelParens (negated : bool) (tok : string)
  : list token * bool * string :=
  match tok with
  | String "(" r =>
      let '(out, n, t) := peelParens false r in
      ((if negated then [NOT; LPAREN] else [LPAREN]) ++ out, n, t)
  | _ => ([], negated, tok)
  end.

(** [while (tok.endsWith(')')) { trailingParens += 1; tok = tok.slice(0, -1) }]:
    the count and the lexeme that is left. *)
Fixpoint stripTrailingParens (tok : string) : nat * string :=
  match tok with
  | EmptyString => (0%nat, EmptyString)
  | String c r =>
      let '(n, r') := stripTrailingParens r in
      if isEmpty r' && Ascii.eqb c ")" then (S n, EmptyString)
      else (n, String c r')
  end.

(** [for (let i = 0; i < trailingParens; i++) tokens.push({ type: 'RPAREN' })] *)
Definition rparens (trailingParens : nat) : list token :=
  repeat RPAREN trailingParens.

(** The test that [tok] is one fully quoted span: it starts with [q],
    ends with another [q] and has no [q] in between. *)
Definition isQuotedBy (q : ascii) (tok : string) : bool :=
  match tok with
  | String a r =>
      Ascii.eqb a q && endsWithChar r q && lacksChar (dropLast r) q
  | EmptyString => false
  end.

(** [/^and$/i.test(tok)] and its siblings: the lexeme is the keyword up
    to the case of its ASCII letters. *)
Definition isKeyword (kw tok : string) : bool :=
  String.eqb (toLowerCase tok) kw.

(** What the loop body does with the lexeme once dashes and parentheses
    are peeled: the tokens pushed and the value left in
    [pendingNegation]. *)
Definition emitLexeme (negated : bool) (tok : string) (trailingParens : nat)
  : list token * bool :=
  if isQuotedBy "'" tok || isQuotedBy Lexer.dquote tok then
    let inner := toLowerCase (trim (dropLast (dropFirst tok))) in
    if negb (isEmpty inner) then
      if negb (negated && (String.length inner <? 2)%nat) then
        (TERM (mkTerm inner true negated) :: rparens trailingParens, false)
      else (rparens trailingParens, true)
    else if negated then (rparens trailingParens, true)
    else (rparens trailingParens, false)
  else if negb negated && isKeyword "and" tok then
    (AND :: rparens trailingParens, false)
  else if negb negated && isKeyword "or" tok then
    (OR :: rparens trailingParens, false)
  else if negb negated && isKeyword "not" tok then
    (NOT :: rparens trailingParens, false)
  else
    let value := toLowerCase tok in
    if negated && (String.length value <? 2)%nat then
      (rparens trailingParens, true)
    else (TERM (mkTerm value false negated) :: rparens trailingParens, false).

(** One iteration of the [for (const raw of rawTokens)] loop: the tokens
    it pushes and the new [pendingNegation]. *)
Definition tokenizeStep (pendingNegation : bool) (raw : string)
  : list token * bool :=
  let tok := trim raw in
  if isEmpty tok then ([], pendingNegation)
  else if String.eqb tok "-" then ([], true)
  else
    let '(negated, tok) := stripDashes pendingNegation tok in
    if isEmpty tok then ([], negated)
    else
      let '(opened, negated, tok) := peelParens negated tok in
      let '(trailingParens, tok) := stripTrailingParens tok in
      if isEmpty tok then (opened ++ rparens trailingParens, false)
      else
        let '(out, pending) := emitLexeme negated tok trailingParens in
        (opened ++ out, pending).

Fixpoint tokenizeLoop (pendingNegation : bool) (rawTokens : list string)
  : list token :=
  match rawTokens with
  | [] => []
  | raw :: rest =>
      let '(out, pending) := tokenizeStep pendingNegation raw in
      out ++ tokenizeLoop pending rest
  end.

Definition tokenizeQuery (query : string) : list token :=
  tokenizeLoop false (Lexer.matchAll query).

(** The tokens the paren-peeling loop pushes. *)
Definition isOpener (tk : token) : Prop := tk = NOT \/ tk = LPAREN.

(* ================================================================== *)
(** ** The expression tree and the parser                               *)
(* ================================================================== *)

(** A node of the tree.  [combine] and [parseUnary] never build a node
    around a null child, so the children are nodes and only the whole
    tree is nullable ([option node], [None] for [null]). *)
Inductive node :=
| Term (token : term)
| And (left right : node)
| Or (left right : node)
| Not (operand : node).

Definition combine (left right : option node) (kind : node -> node -> node)
  : option node :=
  match left, right with
  | None, _ => right
  | _, None => left
  | Some l, Some r => Some (kind l r)
  end.

(** The test of [parseUnary] on the operand of a NOT: a bare term whose
    value is missing or shorter than two units. *)
Definition tooShortToNegate (operand : node) : bool :=
  match operand with
  | Term t => isEmpty (value t) || (String.length (value t) <? 2)%nat
  | _ => false
  end.

(** The recursive-descent parser.  The cursor [index] of the source is
    the list of tokens not yet consumed: [peek()] is its head and
    [consume()] drops it.  Every function returns the node it built
    (or [None] for [null]) with the remaining tokens; the outer [option]
    is [None] only when [fuel] runs out, which the bound used by
    [parseQueryAST] excludes (see [parseOr_total]).  The loops of
    [parseOr] and [parseAnd] are [parseOrLoop] and [parseAndLoop], whose
    argument [acc] is the variable [node] of the source ([rhs] is its
    [right]). *)
Fixpoint parseOr (fuel : nat) (tokens : list token)
  : option (option node * list token) :=
  match fuel with
  | O => None
  | S fuel =>
      match parseAnd fuel tokens with
      | Some (acc, rest) => parseOrLoop fuel acc rest
      | None => None
      end
  end

with parseOrLoop (fuel : nat) (acc : option node) (tokens : list token)
  : option (option node * list token) :=
  match fuel with
  | O => None
  | S fuel =>
      match tokens with
      | OR :: rest =>
          match parseAnd fuel rest with
          | Some (rhs, rest') => parseOrLoop fuel (combine acc rhs Or) rest'
          | None => None
          end
      | _ => Some (acc, tokens)
      end
  end

with parseAnd (fuel : nat) (tokens : list token)
  : option (option node * list token) :=
  match fuel with
  | O => None
  | S fuel =>
      match parseUnary fuel tokens with
      | Some (acc, rest) => parseAndLoop fuel acc rest
      | None => None
      end
  end

with parseAndLoop (fuel : nat) (acc : option node) (tokens : list token)
  : option (option node * list token) :=
  match fuel with
  | O => None
  | S fuel =>
      match tokens with
      | [] => Some (acc, tokens)
      | AND :: rest =>
          match parseUnary fuel rest with
          | Some (Some rhs, rest') =>
              parseAndLoop fuel (combine acc (Some rhs) And) rest'
          | Some (None, rest') => Some (acc, rest')
          | None => None
          end
      | OR :: _ | RPAREN :: _ => Some (acc, tokens)
      | TERM _ :: _ | NOT :: _ | LPAREN :: _ =>
          match parseUnary fuel tokens with
          | Some (Some rhs, rest') =>
              parseAndLoop fuel (combine acc (Some rhs) And) rest'
          | Some (None, rest') => Some (acc, rest')
          | None => None
          end
      end
  end

with parseUnary (fuel : nat) (tokens : list token)
  : option (option node * list token) :=
  match fuel with
  | O => None
  | S fuel =>
      match tokens with
      | [] => Some (None, tokens)
      | NOT :: rest =>
          match parseUnary fuel rest with
          | Some (Some operand, rest') =>
              if tooShortToNegate operand then Some (None, rest')
              else Some (Some (Not operand), rest')
          | Some (None, rest') => Some (None, rest')
          | None => None
          end
      | _ => parsePrimary fuel tokens
      end
  end

with parsePrimary (fuel : nat) (tokens : list token)
  : option (option node * list token) :=
  match fuel with
  | O => None
  | S fuel =>
      match tokens with
      | [] => Some (None, tokens)
      | TERM tok :: rest =>
          Some (Some (if negated tok then Not (Term tok) else Term tok), rest)
      | LPAREN :: rest =>
          match parseOr fuel rest with
          | Some (expr, RPAREN :: rest') => Some (expr, rest')
          | Some (expr, rest') => Some (expr, rest')
          | None => None
          end
      | _ :: rest => Some (None, rest)
      end
  end.

(** Fuel that the parser never exhausts on [tokens]. *)
Definition parseFuel (tokens : list token) : nat :=
  (6 * List.length tokens + 6)%nat.

Definition parseQueryAST (tokens : list token) : option node :=
  match parseOr (parseFuel tokens) tokens with
  | Some (ast, _) => ast
  | None => None
  end.


(* ================================================================== *)
(** ** The evaluator                                                    *)
(* ================================================================== *)

(** WORD_BOUNDARY_RE.test(s): some unit of [s] is outside [[a-z0-9]]. *)
Fixpoint testWordBoundary (s : string) : bool :=
  match s with
  | EmptyString => false
  | String c r => negb (isLowerAlnum c) || testWordBoundary r
  end.

Definition hasWordBoundary (str : string) (index length : Z) : bool :=
  let prev := if index =? 0 then EmptyString else charAt str (index - 1) in
  let next := charAt str (index + length) in
  let beforeOK := isEmpty prev || testWordBoundary prev in
  let afterOK := isEmpty next || testWordBoundary next in
  beforeOK && afterOK.

Module ExactPattern.

(** The pattern built for a quoted term,
    (?:^|[^a-z0-9]) VALUE (?:$|[^a-z0-9]),
    where [escapeRegExp] makes every unit of VALUE match itself. *)

(** The closing group at the start of [s]: the end of the input, or
    one unit outside [[a-z0-9]]. *)
Definition closes (s : string) : bool :=
  match s with
  | EmptyString => true
  | String c _ => negb (isLowerAlnum c)
  end.

(** VALUE followed by the closing group, at the start of [s]. *)
Fixpoint valueThenClose (s v : string) : bool :=
  match v with
  | EmptyString => closes s
  | String a v' =>
      match s with
      | String b s' => Ascii.eqb a b && valueThenClose s' v'
      | EmptyString => false
      end
  end.

(** The whole pattern matched from the current position, which is
    the start of the input when [atStart]. *)
Definition matchHere (atStart : bool) (s v : string) : bool :=
  atStart && valueThenClose s v
  || match s with
     | String c r => negb (isLowerAlnum c) && valueThenClose r v
     | EmptyString => false
     end.

(** [pattern.test(s)]: a match from some position. *)
Fixpoint testFrom (atStart : bool) (s v : string) : bool :=
  matchHere atStart s v
  || match s with
     | String _ r => testFrom false r v
     | EmptyString => false
     end.

Definition test (s v : string) : bool := testFrom true s v.

End ExactPattern.

Definition haystackIncludesTerm (haystack : string) (token : term) : bool :=
  if isEmpty (value token) then false
  else if negb (exact token) then includes haystack (value token)
  else ExactPattern.test haystack (value token).

Fixpoint evaluateNode (n : node) (haystack : string) : bool :=
  match n with
  | Term token => haystackIncludesTerm haystack token
  | And l r => evaluateNode l haystack && evaluateNode r haystack
  | Or l r => evaluateNode l haystack || evaluateNode r haystack
  | Not operand => negb (evaluateNode operand haystack)
  end.

Definition evaluateExpression (ast : option node) (haystack : string) : bool :=
  match ast with
  | None => true
  | Some n => evaluateNode n haystack
  end.

Fixpoint collectPositiveTerms (n : node) (negated : bool) : list term :=
  match n with
  | Term token => if negb negated then [token] else []
  | And l r | Or l r =>
      collectPositiveTerms l negated ++ collectPositiveTerms r negated
  | Not operand => collectPositiveTerms operand (negb negated)
  end.

(* ================================================================== *)
(** ** Records, the haystack and the display key                        *)
(* ================================================================== *)

Inductive jsval :=
| JUndefined
| JNull
| JString (s : string)
| JNumber (n : Z)
| JArray (elems : list string).

Abbreviation record := (gmap string jsval).

(** [item?.key]. *)
Definition prop (item : record) (key : string) : jsval :=
  default JUndefined (item !! key).

(** ToBoolean. *)
Definition truthy (v : jsval) : bool :=
  match v with
  | JUndefined | JNull => false
  | JString s => negb (isEmpty s)
  | JNumber n => negb (n =? 0)
  | JArray _ => true
  end.

(** ToString, which is also what [+] applies next to a string. *)
Definition toStr (v : jsval) : string :=
  match v with
  | JUndefined => "undefined"
  | JNull => "null"
  | JString s => s
  | JNumber n => ofZ n
  | JArray elems => join "," elems
  end.

(** [a || b]. *)
Definition jsOr (a b : jsval) : jsval := if truthy a then a else b.

(** The string an element contributes to [Array.prototype.join]. *)
Definition joinStr (v : jsval) : string :=
  match v with
  | JUndefined | JNull => EmptyString
  | _ => toStr v
  end.

Definition buildHaystack (item : record) : string :=
  let tags :=
    match prop item "tags" with
    | JArray elems => JString (join " " elems)
    | t => jsOr t (JString "")
    end in
  let grid_size :=
    toStr (prop item "grid_width") +:+ "x" +:+ toStr (prop item "grid_height") in
  let scale := "s" +:+ toStr (prop item "scale") +:+ "x" in
  let fields :=
    [ jsOr (prop item "display_name") (JString "");
      jsOr (prop item "filename") (JString "");
      jsOr (prop item "path") (JString "");
      jsOr (JString scale) (JString "");
      jsOr (JString grid_size) (JString "");
      jsOr (prop item "size") (JString "");
      jsOr (prop item "creature_type") (JString "");
      jsOr (prop item "variant") (JString "");
      jsOr (prop item "source") (JString "");
      jsOr (prop item "tier") (JString "");
      jsOr (prop item "color_variant") (JString "");
      tags ] in
  toLowerCase (join " " (map joinStr fields)).

Definition displayKey (item : record) : string :=
  toStr (jsOr (prop item "display_name")
           (jsOr (prop item "displayName")
              (jsOr (prop item "filename")
                 (jsOr (prop item "name") (JString ""))))).

(* ================================================================== *)
(** ** The scorer                                                       *)
(* ================================================================== *)

(** [filename.replace(/\.[^.]+$/, '')]: the last dot and what follows
    it are removed when at least one unit follows it. *)
Fixpoint stripExtension (filename : string) : string :=
  match filename with
  | EmptyString => EmptyString
  | String c r =>
      if Ascii.eqb c "." && lacksChar r "." && negb (isEmpty r)
      then EmptyString
      else String c (stripExtension r)
  end.

(** The body of the loop over the positive terms: what one term adds
    to the score. *)
Definition termScore (nameRoot displayName path tags : string) (t : term) : Z :=
  let value := value t in
  if isEmpty value then 0
  else
    let len := Z.of_nat (String.length value) in
    if String.eqb nameRoot value then 2000
    else if String.eqb displayName value then 1600
    else
      let nameIdx := indexOf nameRoot value in
      if negb (nameIdx =? -1) then
        let boundary := hasWordBoundary nameRoot nameIdx len in
        if nameIdx =? 0 then
          if exact t then (if boundary then 1200 else 0)
          else
            let nextCh := charAt nameRoot len in
            let nextBoundary := isEmpty nextCh || testWordBoundary nextCh in
            if nextBoundary then 1100 else 900
        else if boundary then (if exact t then 950 else 750)
        else if negb (exact t) then 500
        else 0
      else
        let displayIdx := indexOf displayName value in
        if negb (displayIdx =? -1) then
          let boundary := hasWordBoundary displayName displayIdx len in
          if displayIdx =? 0 then
            if exact t then (if boundary then 560 else 0)
            else
              let nextCh := charAt displayName len in
              let nextBoundary := isEmpty nextCh || testWordBoundary nextCh in
              if nextBoundary then 520 else 450
          else if boundary then (if exact t then 410 else 380)
          else if negb (exact t) then 280
          else 0
        else if negb (isEmpty tags) && haystackIncludesTerm tags t then
          (if exact t then 200 else 160)
        else if negb (isEmpty path) then
          let pathIdx := indexOf path value in
          if negb (pathIdx =? -1) then
            let boundary := hasWordBoundary path pathIdx len in
            if boundary || negb (exact t) then (if exact t then 140 else 120)
            else 0
          else 0
        else 0.

Definition scoreMatch (item : record) (ast : option node) : Z :=
  let filename := toLowerCase (toStr (jsOr (prop item "filename") (JString ""))) in
  let nameRoot := stripExtension filename in
  let displayName :=
    toLowerCase (toStr (jsOr (prop item "display_name")
                          (jsOr (prop item "displayName") (JString "")))) in
  let path :=
    toLowerCase (toStr (jsOr (prop item "path")
                          (jsOr (prop item "file_path") (JString "")))) in
  let tags :=
    match prop item "tags" with
    | JArray elems => toLowerCase (join " " elems)
    | t => toLowerCase (toStr (jsOr t (JString "")))
    end in
  let terms :=
    match ast with
    | None => []
    | Some n => collectPositiveTerms n false
    end in
  fold_left (fun score t => score + termScore nameRoot displayName path tags t)
    terms 0.

(* ================================================================== *)
(** ** matches and NexusSearchManager.filter                            *)
(* ================================================================== *)

Definition matches (item : record) (query : string) : bool :=
  if isEmpty query then true
  else
    let tokens := tokenizeQuery query in
    match tokens with
    | [] => true
    | _ =>
        match parseQueryAST tokens with
        | None => true
        | Some ast => evaluateExpression (Some ast) (buildHaystack item)
        end
    end.

(** [Array.prototype.sort] with a comparator: the sort is stable, and
    for a consistent comparator its result is the one of any stable
    sort; insertion from the right is one. *)
Fixpoint insertBy {A} (cmp : A -> A -> Z) (x : A) (l : list A) : list A :=
  match l with
  | [] => [x]
  | y :: r => if cmp x y <=? 0 then x :: l else y :: insertBy cmp x r
  end.

Fixpoint sortBy {A} (cmp : A -> A -> Z) (l : list A) : list A :=
  match l with
  | [] => []
  | x :: r => insertBy cmp x (sortBy cmp r)
  end.

Section Filter.

(** [a.localeCompare(b)] of the host. *)
Variable localeCompare : string -> string -> Z.

(** The elements of the array [items] are references to records;
    [fieldsOf] reads the record an element refers to. *)
Context {Item : Type} (fieldsOf : Item -> record).

(** The comparator handed to [sort], on rows [{ item, score }]:
    [(b.score - a.score) || displayKey(a.item).localeCompare(displayKey(b.item))]. *)
Definition compareRows (a b : Item * Z) : Z :=
  let d := snd b - snd a in
  if negb (d =? 0) then d
  else localeCompare (displayKey (fieldsOf (fst a)))
                     (displayKey (fieldsOf (fst b))).

(** What [filter] returns: [None] when it returns the array [items]
    itself, [Some out] when it returns a new array [out]. *)
Definition filterOutcome (items : list Item) (query : string)
  : option (list Item) :=
  let q := trim query in
  if isEmpty q then None
  else
    let tokens := tokenizeQuery q in
    match tokens with
    | [] => None
    | _ =>
        match parseQueryAST tokens with
        | None => None
        | Some ast =>
            let filtered :=
              List.filter
                (fun row : Item * string =>
                   evaluateExpression (Some ast) (snd row))
                (map (fun item => (item, buildHaystack (fieldsOf item))) items) in
            match filtered with
            | [] => Some []
            | _ =>
                Some
                  (map fst
                     (sortBy compareRows
                        (map (fun row : Item * string =>
                                (fst row, scoreMatch (fieldsOf (fst row)) (Some ast)))
                           filtered)))
            end
        end
    end.

Definition filter (items : list Item) (query : string) : list Item :=
  match filterOutcome items query with
  | None => items
  | Some out => out
  end.

(** The steps of [filter] for a tree [ast], named for the proofs: the
    test a record is kept by, the row of a kept record, and the rows
    after [sort]. *)
Definition kept (ast : node) (item : Item) : bool :=
  evaluateExpression (Some ast) (buildHaystack (fieldsOf item)).

Definition scored (ast : node) (item : Item) : Item * Z :=
  (item, scoreMatch (fieldsOf item) (Some ast)).

Definition ranked (ast : node) (items : list Item) : list (Item * Z) :=
  sortBy compareRows (map (scored ast) (List.filter (kept ast) items)).

End Filter.

(* ================================================================== *)
(** ** The calls on a heap of objects                                   *)
(* ================================================================== *)

Module Heap.

(** Objects live in a heap and are passed by reference.  The heap
    holds the objects through which a record can be reached: the
    records, the arrays of references and the rows that the call of
    [filter] builds.  Strings, numbers, tokens and the nodes of the
    tree hold no reference and are values.  A call is a sequence of
    reads, allocations and writes on the heap, in the order of the
    source. *)
Definition loc := positive.

Inductive object :=
| ObjRecord (fields : record)
| ObjArray (elems : list loc)
| ObjHaystackRow (item : loc) (haystack : string)
| ObjScoreRow (item : loc) (score : Z).

Abbreviation heap := (gmap loc object).

(** The record at [l]; anything else reads as an object without the
    properties asked for, as [item?.key] does. *)
Definition recordAt (h : heap) (l : loc) : record :=
  match h !! l with
  | Some (ObjRecord fields) => fields
  | _ => ∅
  end.

(** The elements of the array at [l]. *)
Definition elemsAt (h : heap) (l : loc) : list loc :=
  match h !! l with
  | Some (ObjArray elems) => elems
  | _ => []
  end.

(** The properties of a row [{ item, haystack }] and of a row
    [{ item, score }].  The rows read are the ones the call built;
    anything else reads as a row of itself. *)
Definition haystackRowAt (h : heap) (l : loc) : loc * string :=
  match h !! l with
  | Some (ObjHaystackRow item haystack) => (item, haystack)
  | _ => (l, EmptyString)
  end.

Definition scoreRowAt (h : heap) (l : loc) : loc * Z :=
  match h !! l with
  | Some (ObjScoreRow item score) => (item, score)
  | _ => (l, 0)
  end.

(** A computation on the heap: its result and the heap it leaves. *)
Definition M (A : Type) : Type := heap -> A * heap.

Definition ret {A} (a : A) : M A := fun h => (a, h).

Definition bind {A B} (c : M A) (k : A -> M B) : M B :=
  fun h => let (a, h') := c h in k a h'.

#[local] Notation "x <~ c ;; k" := (bind c (fun x => k))
  (at level 100, c at next level, right associativity).

(** A new object, at a location that holds nothing yet. *)
Definition alloc (o : object) : M loc :=
  fun h => let l := fresh (dom h) in (l, <[l := o]> h).

Definition readRecord (l : loc) : M record := fun h => (recordAt h l, h).
Definition readElems (l : loc) : M (list loc) := fun h => (elemsAt h l, h).
Definition readHaystackRow (l : loc) : M (loc * string) :=
  fun h => (haystackRowAt h l, h).
Definition readScoreRow (l : loc) : M (loc * Z) := fun h => (scoreRowAt h l, h).

(** A callback run on every element, in order. *)
Fixpoint forEach {A B} (f : A -> M B) (l : list A) : M (list B) :=
  match l with
  | [] => ret []
  | x :: r => y <~ f x ;; ys <~ forEach f r ;; ret (y :: ys)
  end.

(** [arr.map(f)]: a new array of the results. *)
Definition arrayMap (f : loc -> M loc) (arr : loc) : M loc :=
  elems <~ readElems arr ;;
  ys <~ forEach f elems ;;
  alloc (ObjArray ys).

(** [arr.filter(p)]: a new array of the elements [p] accepts. *)
Definition arrayFilter (p : loc -> M bool) (arr : loc) : M loc :=
  elems <~ readElems arr ;;
  flags <~ forEach p elems ;;
  alloc (ObjArray (map fst (List.filter snd (List.combine elems flags)))).

(** [arr.sort(cmp)]: the array at [arr] is overwritten with its
    elements in order, and [arr] is returned.  The comparator reads
    the heap and leaves it as it is. *)
Definition arraySort (cmp : heap -> loc -> loc -> Z) (arr : loc) : M loc :=
  fun h => (arr, <[arr := ObjArray (sortBy (cmp h) (elemsAt h arr))]> h).

(** [buildHaystack(item)] and [scoreMatch(item, ast)] read the
    properties of the record at [item]. *)
Definition buildHaystackRef (item : loc) : M string :=
  r <~ readRecord item ;; ret (buildHaystack r).

Definition scoreMatchRef (item : loc) (ast : node) : M Z :=
  r <~ readRecord item ;; ret (scoreMatch r (Some ast)).

(** The comparator of [filter] on two rows [{ item, score }]. *)
Definition compareRowsRef (localeCompare : string -> string -> Z)
    (h : heap) (a b : loc) : Z :=
  compareRows localeCompare (recordAt h) (scoreRowAt h a) (scoreRowAt h b).

(** [matches(item, query)]. *)
Definition matchesRef (item : loc) (query : string) : M bool :=
  if isEmpty query then ret true
  else
    let tokens := tokenizeQuery query in
    match tokens with
    | [] => ret true
    | _ =>
        match parseQueryAST tokens with
        | None => ret true
        | Some ast =>
            haystack <~ buildHaystackRef item ;;
            ret (evaluateExpression (Some ast) haystack)
        end
    end.

(** [filter(items, query)], for an array [items]. *)
Definition filterRef (localeCompare : string -> string -> Z)
    (items : loc) (query : string) : M loc :=
  let q := trim query in
  if isEmpty q then ret items
  else
    let tokens := tokenizeQuery q in
    match tokens with
    | [] => ret items
    | _ =>
        match parseQueryAST tokens with
        | None => ret items
        | Some ast =>
            mapped <~ arrayMap
                        (fun item =>
                           haystack <~ buildHaystackRef item ;;
                           alloc (ObjHaystackRow item haystack))
                        items ;;
            filtered <~ arrayFilter
                          (fun row =>
                             r <~ readHaystackRow row ;;
                             ret (evaluateExpression (Some ast) (snd r)))
                          mapped ;;
            kept <~ readElems filtered ;;
            match kept with
            | [] => alloc (ObjArray [])
            | _ =>
                scored <~ arrayMap
                            (fun row =>
                               r <~ readHaystackRow row ;;
                               score <~ scoreMatchRef (fst r) ast ;;
                               alloc (ObjScoreRow (fst r) score))
                            filtered ;;
                sorted <~ arraySort (compareRowsRef localeCompare) scored ;;
                arrayMap (fun row => r <~ readScoreRow row ;; ret (fst r)) sorted
            end
        end
    end.

(** A computation only adds objects: what the heap held, it holds. *)
Definition extends {A} (c : M A) : Prop :=
  forall h : heap, h ⊆ snd (c h).

(** A computation that only adds objects, and returns one of them. *)
Definition allocates (c : M loc) : Prop :=
  forall h : heap, h ⊆ snd (c h) /\ h !! fst (c h) = None.

(** In a heap [h] that a call of [filter] started on [h0] has reached:
    [row] is the row [{ item, haystack }] of the element [x] of the
    array given, and the row [{ item, score }] of it for [ast]. *)
Definition hasHaystackRow (h0 : heap) (x row : loc) (h : heap) : Prop :=
  is_Some (h0 !! x)
  /\ h !! row = Some (ObjHaystackRow x (buildHaystack (recordAt h0 x))).

Definition hasScoreRow (h0 : heap) (ast : node) (x row : loc) (h : heap)
  : Prop :=
  is_Some (h0 !! x)
  /\ h !! row = Some (ObjScoreRow x (scoreMatch (recordAt h0 x) (Some ast))).

End Heap.

(* ================================================================== *)
(** ** The call stack                                                   *)
(* ================================================================== *)

Module CallStack.

(** The parser, [evaluateExpression] and [collectPositiveTerms] recurse
    on the call stack of the host, and nothing in the module bounds
    the depth or catches an exception.  Here every call of a function
    that recurses, or that calls one that does, takes one frame: such
    a function, called when [stack] frames are left, throws the
    RangeError of the host when [stack] is 0 and otherwise runs with
    one frame less for its own calls.  A call whose chain of calls has
    a fixed depth ([peek], [consume], [combine], [tokenizeQuery],
    [buildHaystack], [haystackIncludesTerm], [displayKey], the arrow
    of the first [map] and the comparator of [sort], the methods of
    strings and arrays) takes a bounded number of frames: [stack]
    counts the frames left beyond that bound. *)
Inductive outcome (A : Type) : Type :=
| Returns (a : A)
| RangeError.

Arguments Returns {A} a.
Arguments RangeError {A}.









Section FilterS.

Variable localeCompare : string -> string -> Z.
Context {Item : Type} (fieldsOf : Item -> record).



End FilterS.

(** The frames the parser takes below [parseOr] on [tokens], at most:
    four for every opening parenthesis and one for every NOT. *)
Fixpoint nesting (tokens : list token) : nat :=
  match tokens with
  | [] => 0
  | LPAREN :: rest => 4 + nesting rest
  | NOT :: rest => 1 + nesting rest
  | _ :: rest => nesting rest
  end.





(** The outcome [resS] of a run on a stack follows the run [res]
    without one: they agree, or the stack run throws and [stack] was
    less than [k] frames above the nesting of the tokens. *)
Definition tracks {R} (k : nat) (tokens : list token) (stack : nat)
    (resS : option (outcome R)) (res : option R) : Prop :=
  (resS = Some RangeError /\ (stack < nesting tokens + k)%nat)
  \/ resS = option_map Returns res.


End CallStack.

(* ================================================================== *)
(** ** A concrete collation                                             *)
(* ================================================================== *)

Module Collation.

(** The order of code units: a comparator a host may implement
    [localeCompare] with, used to run [filter] on concrete inputs. *)
Fixpoint byCodeUnit (a b : string) : Z :=
  match a, b with
  | EmptyString, EmptyString => 0
  | EmptyString, String _ _ => -1
  | String _ _, EmptyString => 1
  | String x a', String y b' =>
      match N.compare (N_of_ascii x) (N_of_ascii y) with
      | Lt => -1
      | Gt => 1
      | Eq => byCodeUnit a' b'
      end
  end.

(** What ECMAScript asks of a comparator handed to [sort]
    (a consistent comparator), stated for [localeCompare]. *)
Record Consistent (localeCompare : string -> string -> Z) : Prop := {
  antisym : forall a b, localeCompare a b < 0 <-> 0 < localeCompare b a;
  trans_le : forall a b c,
    localeCompare a b <= 0 -> localeCompare b c <= 0 -> localeCompare a c <= 0
}.

End Collation.

(* ================================================================== *)
(** ** What the specification says, in its words                        *)
(* ================================================================== *)

Module Spec.

(** "field (or empty)". *)
Definition orEmpty (v : jsval) : string :=
  if truthy v then toStr v else EmptyString.

(** "tags (array joined with spaces, or the raw string)". *)
Definition tagsText (v : jsval) : string :=
  match v with
  | JArray elems => join " " elems
  | _ => orEmpty v
  end.

(** The haystack as the specification words it: the twelve texts in
    their order, a space between neighbours, lowercased. *)
Definition haystack (item : record) : string :=
  toLowerCase
    (orEmpty (prop item "display_name") +:+ " " +:+
     orEmpty (prop item "filename") +:+ " " +:+
     orEmpty (prop item "path") +:+ " " +:+
     ("s" +:+ toStr (prop item "scale") +:+ "x") +:+ " " +:+
     (toStr (prop item "grid_width") +:+ "x" +:+ toStr (prop item "grid_height"))
       +:+ " " +:+
     orEmpty (prop item "size") +:+ " " +:+
     orEmpty (prop item "creature_type") +:+ " " +:+
     orEmpty (prop item "variant") +:+ " " +:+
     orEmpty (prop item "source") +:+ " " +:+
     orEmpty (prop item "tier") +:+ " " +:+
     orEmpty (prop item "color_variant") +:+ " " +:+
     tagsText (prop item "tags")).

(** The first and the last unit of a string, if any. *)
Definition firstUnit (s : string) : option ascii :=
  match s with
  | EmptyString => None
  | String c _ => Some c
  end.

Fixpoint lastUnit (s : string) : option ascii :=
  match s with
  | EmptyString => None
  | String c EmptyString => Some c
  | String _ r => lastUnit r
  end.

(** "the string edge or a non-alphanumeric character". *)
Definition edgeOrBoundary (u : option ascii) : Prop :=
  match u with
  | None => True
  | Some c => isLowerAlnum c = false
  end.

(** "[v] occurs in [hay]". *)
Definition occursIn (hay v : string) : Prop :=
  exists before after, hay = before +:+ v +:+ after.

(** "[v] occurs in [hay] bounded on both sides by the string edge or
    a non-alphanumeric character". *)
Definition occursBounded (hay v : string) : Prop :=
  exists before after,
    hay = before +:+ v +:+ after
    /\ edgeOrBoundary (lastUnit before)
    /\ edgeOrBoundary (firstUnit after).

(** [v] occurs in [s] at index [i]. *)
Definition occursAt (s v : string) (i : nat) : Prop :=
  exists before after,
    s = before +:+ v +:+ after /\ String.length before = i.

(** The operator token of a keyword. *)
Definition operatorOf (kw : string) : token :=
  if String.eqb kw "and" then AND else if String.eqb kw "or" then OR else NOT.

Section Order.
Variable localeCompare : string -> string -> Z.
Context {Item : Type} (fieldsOf : Item -> record).

End Order.

End Spec.

(* ================================================================== *)
(** ** escapeRegExp                                                     *)
(* ================================================================== *)

(** The class of [escapeRegExp]: . * + ? ^ $ { } ( ) | [ ] and the
    backslash. *)
Definition isRegExpSpecial (c : ascii) : bool :=
  existsb (Ascii.eqb c)
    ["."; "*"; "+"; "?"; "^"; "$"; "{"; "}"; "("; ")"; "|"; "["; "]"; "\"]%char.

(** [String(s).replace(/[.*+?^${}()|[\]\\]/g, '\\$&')]: a backslash is
    put before every unit of the class. *)
Fixpoint escapeRegExp (s : string) : string :=
  match s with
  | EmptyString => EmptyString
  | String c r =>
      if isRegExpSpecial c then String "\" (String c (escapeRegExp r))
      else String c (escapeRegExp r)
  end.

(** How the host reads a pattern source that is a plain sequence of
    units: a unit that is no syntax character stands for itself, a
    backslash before a syntax character stands for that character, and
    anything else is not a plain sequence ([None]).  The syntax
    characters of a pattern are the units of [isRegExpSpecial]. *)
Fixpoint readLiteral (p : string) : option string :=
  match p with
  | EmptyString => Some EmptyString
  | String c r =>
      if Ascii.eqb c "\" then
        match r with
        | String d r' =>
            if isRegExpSpecial d then option_map (String d) (readLiteral r')
            else None
        | EmptyString => None
        end
      else if isRegExpSpecial c then None
      else option_map (String c) (readLiteral r)
  end.

(* ================================================================== *)
(** ** Terms of token lists and of trees                                *)
(* ================================================================== *)

(** The terms that [scoreMatch] sums over. *)
Definition positiveTerms (ast : option node) : list term :=
  match ast with
  | None => []
  | Some n => collectPositiveTerms n false
  end.

(** The terms of a token list, in order. *)
Fixpoint tokenTerms (tokens : list token) : list term :=
  match tokens with
  | [] => []
  | TERM t :: rest => t :: tokenTerms rest
  | _ :: rest => tokenTerms rest
  end.

(** The terms of a tree, from left to right. *)
Fixpoint nodeTerms (n : node) : list term :=
  match n with
  | Term t => [t]
  | And l r | Or l r => nodeTerms l ++ nodeTerms r
  | Not operand => nodeTerms operand
  end.

Definition treeTerms (ast : option node) : list term :=
  match ast with
  | None => []
  | Some n => nodeTerms n
  end.

(** No NOT stands directly on a term shorter than two units. *)
Fixpoint negationsUsable (n : node) : bool :=
  match n with
  | Term _ => true
  | And l r | Or l r => negationsUsable l && negationsUsable r
  | Not (Term t) => (2 <=? String.length (value t))%nat
  | Not operand => negationsUsable operand
  end.

Definition treeUsable (ast : option node) : bool :=
  match ast with
  | None => true
  | Some n => negationsUsable n
  end.

(** A negated TERM token has a value of two units or more. *)
Definition tokenUsable (tk : token) : Prop :=
  match tk with
  | TERM t => negated t = true -> (2 <= String.length (value t))%nat
  | _ => True
  end.

(** What a parsing function that returned has done: it consumed a
    prefix of the tokens, built its node from terms of that prefix, in
    their order, and kept the negations usable. *)
Definition parsedWell (tokens : list token)
    (result : option (option node * list token)) : Prop :=
  forall res rest, result = Some (res, rest) ->
    exists consumed,
      tokens = consumed ++ rest
      /\ sublist (treeTerms res) (tokenTerms consumed)
      /\ (Forall tokenUsable tokens -> treeUsable res = true).

Definition loopedWell (acc : option node) (tokens : list token)
    (result : option (option node * list token)) : Prop :=
  forall res rest, result = Some (res, rest) ->
    exists consumed extra,
      tokens = consumed ++ rest
      /\ treeTerms res = treeTerms acc ++ extra
      /\ sublist extra (tokenTerms consumed)
      /\ (Forall tokenUsable tokens -> treeUsable acc = true ->
          treeUsable res = true).

(** The units the lexer and the loop body look for are not letters. *)
Definition isMark (q : ascii) : Prop :=
  q = "("%char \/ q = ")"%char \/ q = "'"%char \/ q = Lexer.dquote \/ q = "-"%char.

(** The query [t] is one plain term: the tokenizer turns it into the
    TERM of [t] lowercased, not exact, not negated, and nothing else. *)
Definition plainTerm (t : string) : Prop :=
  tokenizeQuery t = [TERM (mkTerm (toLowerCase t) false false)].

(** [n] dashes. *)
Fixpoint dashes (n : nat) : string :=
  match n with
  | O => EmptyString
  | S k => String "-" (dashes k)
  end.

(* ================================================================== *)
(** ** GridSelectionHelper                                              *)
(* ================================================================== *)

Module GridSelection.

(** The part of the class that keeps the selection: the set of selected
    keys, the last clicked index and the visible items, with the
    methods that read and change them.  The methods that only touch
    the cards of the page (keyFromCard, setCardSelectionUI,
    refreshSelectionUI) are left out.  [_log] writes to the logger
    only and is not part of the state.  The indices [from] and [to]
    are integers. *)

(** What the visible list holds at an index: a record, or [None] for
    what reads as no item ([null], or [undefined] past the end). *)
Abbreviation gridItem := (option record).

(** The callbacks of [options] that the selection state depends on.  A
    callback is a function of the item; [None] as its result stands
    for a call that throws, which the [try] around the call catches.
    [optIsItemLocked] is [isItemLocked] for the card [null] and the
    context that [_buildSelectionContext] returns.  [optGetGridItems]
    is the array that [getGridItems()] returns, absent when it is no
    function, throws or returns no array. *)
Record options := mkOptions {
  optComputeItemKey : option (gridItem -> option jsval);
  optIsItemLocked : option (gridItem -> option jsval);
  optGetGridItems : option (list gridItem)
}.

(** The helper's own state. *)
Record helper := mkHelper {
  selectedKeys : gset string;
  lastClickedIndex : Z;
  visibleItems : list gridItem
}.

(** [resetVisibleItems(list)], for an array [list] ([Some]) or anything
    else ([None]). *)
Definition resetVisibleItems (h : helper) (list : option (list gridItem)) : helper :=
  mkHelper (selectedKeys h) (lastClickedIndex h) (default [] list).

(** [clearSelection()]. *)
Definition clearSelection (h : helper) : helper :=
  mkHelper ∅ (-1) (visibleItems h).

(** The key [computeItemKey] falls back to: the file path, else the
    path, else the file name, lowercased. *)
Definition defaultKey (item : gridItem) : string :=
  match item with
  | None => EmptyString
  | Some r =>
      let fp := toStr (jsOr (prop r "file_path") (jsOr (prop r "path") (JString ""))) in
      if negb (isEmpty fp) then toLowerCase fp
      else
        let filename := toStr (jsOr (prop r "filename") (JString "")) in
        if negb (isEmpty filename) then toLowerCase filename
        else EmptyString
  end.

(** [computeItemKey(item)]: the callback's key when there is a callback
    and it returns, else the fallback key. *)
Definition computeItemKey (o : options) (item : gridItem) : string :=
  match optComputeItemKey o with
  | Some callback =>
      match callback item with
      | Some v => toLowerCase (toStr (jsOr v (JString "")))
      | None => defaultKey item
      end
  | None => defaultKey item
  end.

(** [_getVisibleList()]. *)
Definition getVisibleList (o : options) (h : helper) : list gridItem :=
  match visibleItems h with
  | _ :: _ => visibleItems h
  | [] => default [] (optGetGridItems o)
  end.

(** [_isItemLocked(item, null, ctx)]. *)
Definition isItemLocked (o : options) (item : gridItem) : bool :=
  match optIsItemLocked o with
  | None => false
  | Some callback =>
      match callback item with
      | Some v => truthy v
      | None => false
      end
  end.

(** [list.findIndex(p)]. *)
Fixpoint findIndex {A} (p : A -> bool) (l : list A) : Z :=
  match l with
  | [] => -1
  | x :: r =>
      if p x then 0
      else let i := findIndex p r in if i <? 0 then -1 else i + 1
  end.

(** [indexOfVisibleKey(key, fallbackItem)]. *)
Definition indexOfVisibleKey (o : options) (h : helper)
    (key : jsval) (fallbackItem : gridItem) : Z :=
  let list := getVisibleList o h in
  match list with
  | [] => -1
  | _ =>
      let byKey :=
        if truthy key then
          findIndex (fun it => String.eqb (computeItemKey o it)
                                 (toLowerCase (toStr key))) list
        else -1 in
      if 0 <=? byKey then byKey
      else
        match fallbackItem with
        | Some _ =>
            let fallback := computeItemKey o fallbackItem in
            let idx2 :=
              findIndex (fun it => String.eqb (computeItemKey o it) fallback) list in
            if 0 <=? idx2 then idx2 else -1
        | None => -1
        end
  end.

(** [list[i]]. *)
Definition itemAt (list : list gridItem) (i : nat) : gridItem :=
  default None (list !! i).

(** The indices the loops of the range functions visit, in order:
    from [max(0, min(from, to))] to [max(0, max(from, to))]. *)
Definition rangeIndices (from to : Z) : list nat :=
  let a := Z.max 0 (Z.min from to) in
  let b := Z.max 0 (Z.max from to) in
  seq (Z.to_nat a) (Z.to_nat (b - a + 1)).

(** One round of the loop of [applyRangeSelection]. *)
Definition rangeStep (o : options) (list : list gridItem) (mode : string)
    (keys : gset string) (i : nat) : gset string :=
  let item := itemAt list i in
  let key := computeItemKey o item in
  if isEmpty key then keys
  else if String.eqb mode "remove" then keys ∖ {[key]}
  else if isItemLocked o item then keys ∖ {[key]}
  else keys ∪ {[key]}.

(** [applyRangeSelection(from, to, mode)]. *)
Definition applyRangeSelection (o : options) (h : helper)
    (from to : Z) (mode : string) : helper :=
  let list := getVisibleList o h in
  match list with
  | [] => h
  | _ =>
      mkHelper (fold_left (rangeStep o list mode) (rangeIndices from to)
                  (selectedKeys h))
        (lastClickedIndex h) (visibleItems h)
  end.

(** One round of the loop of [applyRangeSelectionExclusive]. *)
Definition exclusiveStep (o : options) (list : list gridItem)
    (keys : gset string) (i : nat) : gset string :=
  let item := itemAt list i in
  let key := computeItemKey o item in
  if isEmpty key then keys
  else if isItemLocked o item then keys
  else keys ∪ {[key]}.

(** [applyRangeSelectionExclusive(from, to)]. *)
Definition applyRangeSelectionExclusive (o : options) (h : helper)
    (from to : Z) : helper :=
  let list := getVisibleList o h in
  match list with
  | [] => mkHelper ∅ (lastClickedIndex h) (visibleItems h)
  | _ =>
      mkHelper (fold_left (exclusiveStep o list) (rangeIndices from to) ∅)
        (lastClickedIndex h) (visibleItems h)
  end.

End GridSelection.

(** The index [i] is one that the range functions visit for
    [from] and [to]. *)
Definition inRange (from to : Z) (i : nat) : Prop :=
  Z.max 0 (Z.min from to) <= Z.of_nat i <= Z.max 0 (Z.max from to).

(** The round of a range loop at index [i] is about the key [k]. *)
Definition touches (o : GridSelection.options) (visible : list (option record))
    (i : nat) (k : string) : Prop :=
  GridSelection.computeItemKey o (GridSelection.itemAt visible i) = k /\ k <> "".

(** An item that the range functions visit has the key [k], which is
    not empty. *)
Definition keyInRange (o : GridSelection.options) (visible : list (option record))
    (from to : Z) (k : string) : Prop :=
  exists i, inRange from to i
            /\ GridSelection.computeItemKey o (GridSelection.itemAt visible i) = k
            /\ k <> "".

(* ================================================================== *)
(** * Properties                                                        *)
(* ================================================================== *)

#[local] Arguments String.append : simpl nomatch.
Import Heap.

(** ** Strings *)

Section StringFacts.

Lemma append_empty_r (s : string) : s +:+ "" = s.
Proof. induction s; simpl; congruence. Qed.

Lemma append_assoc (a b c : string) : (a +:+ b) +:+ c = a +:+ b +:+ c.
Proof. induction a; simpl; congruence. Qed.

Lemma append_length (a b : string) :
  String.length (a +:+ b) = (String.length a + String.length b)%nat.
Proof. induction a; simpl; congruence. Qed.

Lemma isEmpty_true (s : string) : isEmpty s = true <-> s = "".
Proof. destruct s; simpl; split; congruence. Qed.

Lemma isEmpty_false (s : string) : isEmpty s = false <-> s <> "".
Proof. destruct s; simpl; split; congruence. Qed.

Lemma toLowerCase_app (a b : string) :
  toLowerCase (a +:+ b) = toLowerCase a +:+ toLowerCase b.
Proof. induction a; simpl; congruence. Qed.

Lemma toLowerCase_length (s : string) :
  String.length (toLowerCase s) = String.length s.
Proof. induction s; simpl; congruence. Qed.

Lemma startsWith_app (v r : string) : startsWith (v +:+ r) v = true.
Proof.
  induction v as [|c v IH]; simpl; [now destruct r|].
  now rewrite Ascii.eqb_refl.
Qed.

Lemma startsWith_inv (s v : string) :
  startsWith s v = true -> exists r, s = v +:+ r.
Proof.
  revert s. induction v as [|c v IH]; intros s H; simpl in *.
  - now exists s.
  - destruct s as [|b s]; [discriminate|].
    apply andb_true_iff in H as [Hc Hr].
    apply Ascii.eqb_eq in Hc as ->.
    destruct (IH _ Hr) as [r ->]. now exists r.
Qed.

Lemma includes_iff (s v : string) :
  includes s v = true <-> Spec.occursIn s v.
Proof.
  unfold Spec.occursIn. split.
  - induction s as [|c s IH]; cbn [includes]; intros H.
    + rewrite orb_false_r in H. apply startsWith_inv in H as [r ->].
      now exists "", r.
    + apply orb_true_iff in H as [H|H].
      * apply startsWith_inv in H as [r ->]. now exists "", r.
      * destruct (IH H) as (b & a & ->). now exists (String c b), a.
  - intros (b & a & ->). induction b as [|c b IH].
    + change ("" +:+ v +:+ a) with (v +:+ a).
      destruct (v +:+ a) eqn:E; cbn [includes]; rewrite <- E, startsWith_app;
        reflexivity.
    + change (String c b +:+ v +:+ a) with (String c (b +:+ v +:+ a)).
      cbn [includes]. rewrite IH. apply orb_true_r.
Qed.

End StringFacts.

(** ** The lexemes of a query and of its trimmed text *)

Section LexerFacts.
Import Lexer.

Lemma ws_neq (c q : ascii) :
  isWhiteSpace c = true -> isWhiteSpace q = false -> Ascii.eqb c q = false.
Proof.
  intros Hc Hq. destruct (Ascii.eqb_spec c q) as [->|]; congruence.
Qed.

Lemma ws_not_word (c : ascii) : isWhiteSpace c = true -> isWordChar c = false.
Proof. intros H. unfold isWordChar. now rewrite H. Qed.

Lemma matchAt_ws (c : ascii) (r : string) :
  isWhiteSpace c = true -> matchAt (String c r) = None.
Proof.
  intros H. unfold matchAt, altChar, altQuoted, altWord.
  cbn [wordRun]. rewrite (ws_not_word c H).
  rewrite !(ws_neq c) by (exact H || reflexivity). reflexivity.
Qed.

Lemma trimEnd_cons (c : ascii) (r : string) :
  trimEnd (String c r) =
    if isEmpty (trimEnd r) && isWhiteSpace c then "" else String c (trimEnd r).
Proof. reflexivity. Qed.

Lemma trimEnd_empty_cons (c : ascii) (r : string) :
  trimEnd (String c r) = "" -> isWhiteSpace c = true /\ trimEnd r = "".
Proof.
  rewrite trimEnd_cons. destruct (isEmpty (trimEnd r)) eqn:E; simpl.
  - destruct (isWhiteSpace c); [|discriminate].
    intros _. split; [reflexivity|now apply isEmpty_true].
  - discriminate.
Qed.

Lemma matchFrom_blank (r : string) :
  trimEnd r = "" -> forall k, matchFrom k r = [].
Proof.
  induction r as [|c r IH]; intros H k; [reflexivity|].
  apply trimEnd_empty_cons in H as [Hc Hr].
  destruct k; cbn [matchFrom]; [rewrite matchAt_ws by exact Hc|]; now apply IH.
Qed.

Lemma wordRun_trimEnd (s : string) : wordRun (trimEnd s) = wordRun s.
Proof.
  induction s as [|c s IH]; [reflexivity|].
  rewrite trimEnd_cons.
  destruct (isEmpty (trimEnd s) && isWhiteSpace c) eqn:E.
  - apply andb_true_iff in E as [_ Hc]. cbn [wordRun].
    now rewrite (ws_not_word c Hc).
  - cbn [wordRun]. now rewrite IH.
Qed.

Lemma upToQuote_trimEnd (q : ascii) (s : string) :
  isWhiteSpace q = false -> upToQuote q (trimEnd s) = upToQuote q s.
Proof.
  intros Hq. induction s as [|c s IH]; [reflexivity|].
  rewrite trimEnd_cons.
  destruct (isEmpty (trimEnd s) && isWhiteSpace c) eqn:E.
  - apply andb_true_iff in E as [He Hc]. apply isEmpty_true in He.
    cbn [upToQuote]. rewrite (ws_neq c q Hc Hq), <- IH, He. reflexivity.
  - cbn [upToQuote]. now rewrite IH.
Qed.

Lemma matchAt_trimEnd (s : string) : matchAt (trimEnd s) = matchAt s.
Proof.
  destruct s as [|c s]; [reflexivity|].
  rewrite trimEnd_cons.
  destruct (isEmpty (trimEnd s) && isWhiteSpace c) eqn:E.
  - apply andb_true_iff in E as [_ Hc]. now rewrite matchAt_ws.
  - unfold matchAt, altChar, altQuoted, altWord.
    rewrite !upToQuote_trimEnd by reflexivity.
    assert (Hw : wordRun (String c (trimEnd s)) = wordRun (String c s)).
    { cbn [wordRun]. now rewrite wordRun_trimEnd. }
    now rewrite Hw.
Qed.

Lemma matchFrom_trimEnd (s : string) :
  forall k, matchFrom k (trimEnd s) = matchFrom k s.
Proof.
  induction s as [|c s IH]; intros k; [reflexivity|].
  pose proof (matchAt_trimEnd (String c s)) as Hat.
  rewrite trimEnd_cons in *.
  destruct (isEmpty (trimEnd s) && isWhiteSpace c) eqn:E.
  - apply andb_true_iff in E as [He Hc]. apply isEmpty_true in He.
    destruct k; cbn [matchFrom].
    + rewrite matchAt_ws by exact Hc. now rewrite matchFrom_blank.
    + now rewrite matchFrom_blank.
  - destruct k; cbn [matchFrom]; [|apply IH].
    rewrite Hat. destruct (matchAt (String c s)); now rewrite IH.
Qed.

Lemma matchAll_trimStart (s : string) : matchAll (trimStart s) = matchAll s.
Proof.
  induction s as [|c s IH]; [reflexivity|].
  cbn [trimStart]. destruct (isWhiteSpace c) eqn:Hc; [|reflexivity].
  unfold matchAll in *. cbn [matchFrom]. now rewrite matchAt_ws.
Qed.

Lemma matchAll_trim (s : string) : matchAll (trim s) = matchAll s.
Proof.
  unfold trim, matchAll. rewrite matchFrom_trimEnd. apply matchAll_trimStart.
Qed.

End LexerFacts.

Lemma tokenizeQuery_trim (q : string) : tokenizeQuery (trim q) = tokenizeQuery q.
Proof. unfold tokenizeQuery. now rewrite matchAll_trim. Qed.


(** ** Lexemes are pieces of the query *)

Section LexemeFacts.
Import Lexer.

Lemma upToQuote_spec (q : ascii) (r inner : string) :
  upToQuote q r = Some inner ->
  lacksChar inner q = true /\ exists rest, r = inner +:+ String q rest.
Proof.
  revert inner. induction r as [|a r IH]; intros inner; cbn [upToQuote];
    [discriminate|].
  destruct (Ascii.eqb_spec a q) as [->|Hne].
  - intros [= <-]. split; [reflexivity|]. now exists r.
  - destruct (upToQuote q r) as [inner'|]; [|discriminate].
    intros [= <-]. destruct (IH inner' eq_refl) as (Hl & rest & ->).
    split; [|now exists rest].
    cbn [lacksChar]. rewrite Hl. apply Ascii.eqb_neq in Hne. now rewrite Hne.
Qed.

Lemma wordRun_prefix (s : string) : exists rest, s = wordRun s +:+ rest.
Proof.
  induction s as [|a s [rest IH]]; [now exists ""|].
  cbn [wordRun]. destruct (isWordChar a).
  - exists rest. cbn. now rewrite <- IH.
  - now exists (String a s).
Qed.

Lemma matchAt_prefix (s lex : string) :
  matchAt s = Some lex -> lex <> "" /\ exists rest, s = lex +:+ rest.
Proof.
  unfold matchAt, orElse, altChar, altQuoted, altWord.
  destruct s as [|a s]; [discriminate|].
  destruct (Ascii.eqb_spec a "(") as [->|_].
  { intros [= <-]. split; [discriminate|now exists s]. }
  destruct (Ascii.eqb_spec a ")") as [->|_].
  { intros [= <-]. split; [discriminate|now exists s]. }
  assert (Hq : forall q inner,
             upToQuote q s = Some inner ->
             exists rest,
               String q s = String q (inner +:+ String q "") +:+ rest).
  { intros q inner H. apply upToQuote_spec in H as (_ & rest & ->).
    exists rest. cbn. now rewrite append_assoc. }
  destruct (Ascii.eqb_spec a "'") as [->|_].
  { destruct (upToQuote "'" s) as [inner|] eqn:E.
    - intros [= <-]. split; [discriminate|now apply Hq].
    - destruct (Ascii.eqb_spec "'" dquote); [discriminate|].
      destruct (wordRun_prefix (String "'" s)) as [rest Hrest].
      destruct (wordRun (String "'" s)); [discriminate|].
      intros [= <-]. split; [discriminate|now exists rest]. }
  destruct (Ascii.eqb_spec a dquote) as [->|_].
  { destruct (upToQuote dquote s) as [inner|] eqn:E.
    - intros [= <-]. split; [discriminate|now apply Hq].
    - destruct (wordRun_prefix (String dquote s)) as [rest Hrest].
      destruct (wordRun (String dquote s)); [discriminate|].
      intros [= <-]. split; [discriminate|now exists rest]. }
  destruct (wordRun_prefix (String a s)) as [rest Hrest].
  destruct (wordRun (String a s)); [discriminate|].
  intros [= <-]. split; [discriminate|now exists rest].
Qed.

Lemma matchFrom_skip (a s : string) :
  matchFrom (String.length a) (a +:+ s) = matchFrom 0 s.
Proof.
  induction a as [|c a IH]; [reflexivity|].
  change (String c a +:+ s) with (String c (a +:+ s)).
  cbn [String.length matchFrom]. exact IH.
Qed.

Lemma matchAll_cons (lex rest : string) :
  matchAt (lex +:+ rest) = Some lex ->
  matchAll (lex +:+ rest) = lex :: matchAll rest.
Proof.
  intros H. destruct (matchAt_prefix _ _ H) as [Hne _].
  destruct lex as [|c lex]; [congruence|].
  unfold matchAll. change (String c lex +:+ rest) with (String c (lex +:+ rest)) in *.
  cbn [matchFrom]. rewrite H. cbn [String.length].
  rewrite Nat.sub_1_r. cbn [Nat.pred]. now rewrite matchFrom_skip.
Qed.

(** A lexeme is no longer than the query, and one as long as the
    query is the only lexeme. *)
Lemma lexeme_length (s lex : string) :
  In lex (matchAll s) ->
  (String.length lex <= String.length s)%nat
  /\ (String.length lex = String.length s ->
      matchAt s = Some s /\ matchAll s = [s]).
Proof.
  remember (String.length s) as n eqn:Hn. revert s lex Hn.
  induction n as [n IH] using lt_wf_ind. intros s lex Hn Hin.
  destruct s as [|c s]; [destruct Hin|].
  destruct (matchAt (String c s)) as [lex0|] eqn:E.
  - destruct (matchAt_prefix _ _ E) as (Hne & rest & Hs).
    rewrite Hs in E, Hin. rewrite (matchAll_cons _ _ E) in Hin.
    assert (Hlen : n = (String.length lex0 + String.length rest)%nat).
    { now rewrite Hn, Hs, append_length. }
    assert (Hpos : (0 < String.length lex0)%nat).
    { destruct lex0; [congruence|cbn; lia]. }
    destruct Hin as [<-|Hin].
    + split; [lia|]. intros Heq.
      assert (rest = "") as -> by (destruct rest; [reflexivity|cbn in *; lia]).
      pose proof (matchAll_cons _ _ E) as Hall.
      rewrite append_empty_r in Hs, E, Hall. subst lex0.
      split; [reflexivity|exact Hall].
    + destruct (IH (String.length rest) ltac:(lia) rest lex eq_refl Hin) as [Hle _].
      split; [lia|]. intros Heq. lia.
  - unfold matchAll in Hin. cbn [matchFrom] in Hin. rewrite E in Hin.
    cbn [String.length] in Hn.
    destruct (IH (String.length s) ltac:(lia) s lex eq_refl Hin) as [Hle _].
    split; [lia|]. intros Heq. lia.
Qed.

Lemma endsWithChar_cons (c q : ascii) (r : string) :
  r <> "" -> endsWithChar (String c r) q = endsWithChar r q.
Proof. destruct r; [congruence|reflexivity]. Qed.

Lemma dropLast_cons (c : ascii) (r : string) :
  r <> "" -> dropLast (String c r) = String c (dropLast r).
Proof. destruct r; [congruence|reflexivity]. Qed.

Lemma altQuoted_isQuotedBy (q : ascii) (s lex : string) :
  altQuoted q s = Some lex -> isQuotedBy q lex = true.
Proof.
  unfold altQuoted. destruct s as [|a s]; [discriminate|].
  destruct (Ascii.eqb a q); [|discriminate].
  destruct (upToQuote q s) as [inner|] eqn:E; [|discriminate].
  intros [= <-]. apply upToQuote_spec in E as [Hl _].
  cbn [isQuotedBy]. rewrite Ascii.eqb_refl. cbn [andb].
  assert (He : endsWithChar (inner +:+ String q "") q = true
               /\ dropLast (inner +:+ String q "") = inner).
  { clear Hl. induction inner as [|b inner [IH1 IH2]].
    - cbn. now rewrite Ascii.eqb_refl.
    - change (String b inner +:+ String q "")
        with (String b (inner +:+ String q "")).
      assert (Hne : inner +:+ String q "" <> "") by (destruct inner; discriminate).
      now rewrite endsWithChar_cons, dropLast_cons, IH1, IH2 by exact Hne. }
  destruct He as [-> ->]. now rewrite Hl.
Qed.

End LexemeFacts.

(** ** The loop body of the tokenizer never lengthens a lexeme *)

Section TokenizerFacts.

Lemma trimStart_length (s : string) :
  (String.length (trimStart s) <= String.length s)%nat
  /\ (String.length (trimStart s) = String.length s -> trimStart s = s).
Proof.
  induction s as [|c s [IH1 IH2]]; [now split|].
  cbn [trimStart]. destruct (isWhiteSpace c); cbn [String.length]; split;
    try lia; reflexivity.
Qed.

Lemma trimEnd_length (s : string) :
  (String.length (trimEnd s) <= String.length s)%nat
  /\ (String.length (trimEnd s) = String.length s -> trimEnd s = s).
Proof.
  induction s as [|c s [IH1 IH2]]; [now split|].
  rewrite trimEnd_cons. destruct (isEmpty (trimEnd s) && isWhiteSpace c);
    cbn [String.length]; split; try lia.
  intros H. now rewrite IH2 by lia.
Qed.

Lemma trim_length (s : string) :
  (String.length (trim s) <= String.length s)%nat
  /\ (String.length (trim s) = String.length s -> trim s = s /\ trimEnd s = s).
Proof.
  unfold trim.
  destruct (trimStart_length s) as [S1 S2].
  destruct (trimEnd_length (trimStart s)) as [E1 E2].
  split; [lia|]. intros H.
  assert (Es : trimStart s = s) by (apply S2; lia).
  rewrite Es in *. split; apply E2; lia.
Qed.

Lemma stripDashes_length (p : bool) (s : string) :
  (String.length (snd (stripDashes p s)) <= String.length s)%nat.
Proof.
  revert p. induction s as [|c s IH]; intros p; [cbn; lia|].
  destruct (Ascii.eqb_spec c "-") as [->|Hne].
  - specialize (IH true). cbn [stripDashes String.length]. lia.
  - assert (E : stripDashes p (String c s) = (p, String c s)).
    { cbn [stripDashes]. destruct c as [[] [] [] [] [] [] [] []];
        try reflexivity. congruence. }
    rewrite E. cbn. lia.
Qed.

Lemma stripDashes_true_fst (s : string) : fst (stripDashes true s) = true.
Proof.
  induction s as [|c s IH]; [reflexivity|].
  destruct (Ascii.eqb_spec c "-") as [->|Hne]; [exact IH|].
  destruct c as [[] [] [] [] [] [] [] []]; try reflexivity. congruence.
Qed.

Lemma stripDashes_false (p : bool) (s s' : string) :
  stripDashes p s = (false, s') ->
  p = false /\ s' = s /\ stripDashes true s = (true, s).
Proof.
  destruct s as [|c s].
  - cbn. intros [= -> <-]. now split.
  - destruct (Ascii.eqb_spec c "-") as [->|Hne].
    + cbn [stripDashes]. intros H.
      pose proof (stripDashes_true_fst s) as Ht. rewrite H in Ht. discriminate.
    + assert (E : forall b, stripDashes b (String c s) = (b, String c s)).
      { intros b. destruct c as [[] [] [] [] [] [] [] []];
          try reflexivity. congruence. }
      rewrite !E. intros [= -> <-]. now split.
Qed.

Lemma peelParens_spec (neg : bool) (s : string) :
  Forall isOpener (fst (fst (peelParens neg s)))
  /\ (String.length (snd (peelParens neg s)) <= String.length s)%nat
  /\ (fst (fst (peelParens neg s)) = [] ->
      forall b, peelParens b s = ([], b, s)).
Proof.
  revert neg. induction s as [|c s IH]; intros neg.
  - cbn. split; [constructor|split; [lia|reflexivity]].
  - destruct (Ascii.eqb_spec c "(") as [->|Hne].
    + cbn [peelParens]. destruct (IH false) as (H1 & H2 & _).
      destruct (peelParens false s) as [[o n] t]. cbn [fst snd] in *.
      split; [|split; [cbn; lia|]].
      * destruct neg; repeat constructor; try (now left); try (now right);
          exact H1.
      * destruct neg; discriminate.
    + assert (E : forall b, peelParens b (String c s) = ([], b, String c s)).
      { intros b. destruct c as [[] [] [] [] [] [] [] []];
          try reflexivity. congruence. }
      rewrite E. cbn. split; [constructor|split; [lia|intros _; exact E]].
Qed.

Lemma stripTrailingParens_spec (s : string) :
  (String.length (snd (stripTrailingParens s)) <= String.length s)%nat
  /\ (fst (stripTrailingParens s) = 0%nat -> stripTrailingParens s = (0%nat, s)).
Proof.
  induction s as [|c s [IH1 IH2]]; [now split|].
  cbn [stripTrailingParens].
  destruct (stripTrailingParens s) as [n r]. cbn [fst snd] in *.
  destruct (isEmpty r && Ascii.eqb c ")"); cbn [fst snd String.length].
  - split; [lia|discriminate].
  - split; [lia|]. intros ->. specialize (IH2 eq_refl). now injection IH2 as ->.
Qed.

Lemma rparens_no_term (n : nat) (T : term) : ~ In (TERM T) (rparens n).
Proof.
  unfold rparens. intros H. apply repeat_spec in H. discriminate.
Qed.

Lemma openers_no_term (o : list token) (T : term) :
  Forall isOpener o -> ~ In (TERM T) o.
Proof.
  intros Ho Hin. rewrite List.Forall_forall in Ho.
  destruct (Ho _ Hin); discriminate.
Qed.

Lemma dropFirst_length (s : string) :
  (String.length (dropFirst s) <= String.length s)%nat.
Proof. destruct s; cbn; lia. Qed.

Lemma dropLast_length (s : string) :
  (String.length (dropLast s) <= String.length s)%nat.
Proof.
  induction s as [|c s IH]; [cbn; lia|].
  cbn [dropLast]. destruct s; cbn [String.length] in *; lia.
Qed.

Lemma emitLexeme_term (neg : bool) (tok : string) (n : nat) (T : term) :
  In (TERM T) (fst (emitLexeme neg tok n)) ->
  (String.length (value T) <= String.length tok)%nat.
Proof.
  unfold emitLexeme.
  repeat match goal with
         | |- context [if ?b then _ else _] => destruct b
         end; cbn [fst]; intros H;
    try (now apply rparens_no_term in H);
    destruct H as [H|H]; try discriminate;
    try (now apply rparens_no_term in H);
    injection H as <-; cbn [value]; rewrite toLowerCase_length; try lia.
  pose proof (proj1 (trim_length (dropLast (dropFirst tok)))).
  pose proof (dropLast_length (dropFirst tok)).
  pose proof (dropFirst_length tok). lia.
Qed.

Lemma tokenizeStep_term (p : bool) (lex : string) (T : term) :
  In (TERM T) (fst (tokenizeStep p lex)) ->
  (String.length (value T) <= String.length lex)%nat.
Proof.
  unfold tokenizeStep.
  destruct (isEmpty (trim lex)); [intros []|].
  destruct (String.eqb (trim lex) "-"); [intros []|].
  pose proof (stripDashes_length p (trim lex)) as Hd.
  destruct (stripDashes p (trim lex)) as [neg1 tok1]. cbn [snd] in Hd.
  destruct (isEmpty tok1); [intros []|].
  destruct (peelParens_spec neg1 tok1) as (Ho & Hp & _).
  destruct (peelParens neg1 tok1) as [[opened neg2] tok2]. cbn [fst snd] in *.
  destruct (stripTrailingParens_spec tok2) as [Hs _].
  destruct (stripTrailingParens tok2) as [n tok3]. cbn [fst snd] in *.
  pose proof (proj1 (trim_length lex)) as Ht.
  destruct (isEmpty tok3).
  - cbn [fst]. intros H. apply in_app_or in H as [H|H].
    + now apply openers_no_term in H.
    + now apply rparens_no_term in H.
  - pose proof (emitLexeme_term neg2 tok3 n T) as He.
    destruct (emitLexeme neg2 tok3 n) as [out pend]. cbn [fst] in *.
    intros H. apply in_app_or in H as [H|H].
    + now apply openers_no_term in H.
    + specialize (He H). lia.
Qed.

Lemma tokenizeLoop_term (p : bool) (lexemes : list string) (tk : token) :
  In tk (tokenizeLoop p lexemes) ->
  exists lex p', In lex lexemes /\ In tk (fst (tokenizeStep p' lex)).
Proof.
  revert p. induction lexemes as [|lex ls IH]; intros p; [intros []|].
  cbn [tokenizeLoop]. destruct (tokenizeStep p lex) as [out pend] eqn:E.
  intros H. apply in_app_or in H as [H|H].
  - exists lex, p. rewrite E. split; [now left|exact H].
  - destruct (IH _ H) as (lex' & p' & Hin & Ht).
    exists lex', p'. split; [now right|exact Ht].
Qed.

End TokenizerFacts.

(** ** The parser returns on every token list *)



(** ** The stable sort *)

Section SortFacts.
Context {A : Type} (cmp : A -> A -> Z).

Lemma insertBy_perm (x : A) (l : list A) : Permutation (insertBy cmp x l) (x :: l).
Proof.
  induction l as [|y l IH]; cbn [insertBy]; [reflexivity|].
  destruct (cmp x y <=? 0); [reflexivity|].
  rewrite IH. apply perm_swap.
Qed.

Lemma sortBy_perm (l : list A) : Permutation (sortBy cmp l) l.
Proof.
  induction l as [|x l IH]; cbn [sortBy]; [reflexivity|].
  rewrite insertBy_perm. now constructor.
Qed.

Hypothesis cmp_total : forall a b, 0 < cmp a b -> cmp b a <= 0.
Hypothesis cmp_trans : forall a b c, cmp a b <= 0 -> cmp b c <= 0 -> cmp a c <= 0.

Let le (a b : A) : Prop := cmp a b <= 0.

Lemma insertBy_sorted (x : A) (l : list A) :
  StronglySorted le l -> StronglySorted le (insertBy cmp x l).
Proof.
  induction 1 as [|y l Hs IH Hy]; cbn [insertBy].
  - repeat constructor.
  - destruct (Z.leb_spec (cmp x y) 0) as [Hxy|Hxy].
    + constructor; [now constructor|].
      constructor; [exact Hxy|].
      eapply List.Forall_impl; [|exact Hy]. intros z Hz. eapply cmp_trans; eassumption.
    + constructor; [exact IH|].
      eapply Permutation_Forall; [symmetry; apply insertBy_perm|].
      constructor; [now apply cmp_total|exact Hy].
Qed.

Lemma sortBy_sorted (l : list A) : StronglySorted le (sortBy cmp l).
Proof.
  induction l as [|x l IH]; cbn [sortBy]; [constructor|].
  now apply insertBy_sorted.
Qed.

Lemma sortBy_fixed (l : list A) : StronglySorted le l -> sortBy cmp l = l.
Proof.
  induction 1 as [|x l Hs IH Hx]; [reflexivity|].
  cbn [sortBy]. rewrite IH.
  destruct Hx as [|y l Hxy _]; [reflexivity|].
  cbn [insertBy]. unfold le in Hxy.
  destruct (Z.leb_spec (cmp x y) 0); [reflexivity|lia].
Qed.

Lemma sortBy_idempotent (l : list A) : sortBy cmp (sortBy cmp l) = sortBy cmp l.
Proof. apply sortBy_fixed, sortBy_sorted. Qed.

End SortFacts.

(** ** The order of code units is a consistent comparator *)

Lemma byCodeUnit_consistent : Collation.Consistent Collation.byCodeUnit.
Proof.
  split.
  - induction a as [|x a IH]; intros [|y b]; cbn [Collation.byCodeUnit]; try lia.
    rewrite (N.compare_antisym (N_of_ascii y) (N_of_ascii x)).
    destruct (N.compare (N_of_ascii y) (N_of_ascii x)); cbn [CompOpp]; try lia.
    apply IH.
  - induction a as [|x a IH]; intros [|y b] [|z c]; cbn [Collation.byCodeUnit];
      try lia.
    destruct (N.compare_spec (N_of_ascii x) (N_of_ascii y)) as [Exy|Hxy|Hxy];
      try lia.
    + rewrite Exy.
      destruct (N.compare_spec (N_of_ascii y) (N_of_ascii z)); try lia.
      apply IH.
    + destruct (N.compare_spec (N_of_ascii y) (N_of_ascii z)) as [Eyz|Hyz|Hyz];
        try lia.
      * rewrite <- Eyz.
        destruct (N.compare_spec (N_of_ascii x) (N_of_ascii y)); lia.
      * destruct (N.compare_spec (N_of_ascii x) (N_of_ascii z)); lia.
Qed.

(** ** filter and matches, step by step *)

Section FilterFacts.
Variable localeCompare : string -> string -> Z.
Context {Item : Type} (fieldsOf : Item -> record).

Lemma parseQueryAST_nil : parseQueryAST [] = None.
Proof. reflexivity. Qed.

Lemma filterOutcome_unfold (items : list Item) (q : string) :
  filterOutcome localeCompare fieldsOf items q =
    match parseQueryAST (tokenizeQuery (trim q)) with
    | None => None
    | Some ast => Some (map fst (ranked localeCompare fieldsOf ast items))
    end.
Proof.
  unfold filterOutcome.
  destruct (isEmpty (trim q)) eqn:Eq.
  - apply isEmpty_true in Eq. rewrite Eq. reflexivity.
  - destruct (tokenizeQuery (trim q)) as [|t ts] eqn:Et; [reflexivity|].
    destruct (parseQueryAST (t :: ts)) as [ast|]; [|reflexivity].
    unfold ranked.
    assert (Hf : List.filter
              (fun row : Item * string => evaluateExpression (Some ast) (snd row))
              (map (fun item => (item, buildHaystack (fieldsOf item))) items)
            = map (fun item => (item, buildHaystack (fieldsOf item)))
                (List.filter (kept fieldsOf ast) items)).
    { induction items as [|x items IH]; [reflexivity|].
      cbn [map List.filter snd]. unfold kept at 1.
      destruct (evaluateExpression (Some ast) (buildHaystack (fieldsOf x)));
        cbn [map]; now rewrite IH. }
    rewrite Hf.
    destruct (List.filter (kept fieldsOf ast) items) as [|x l]; [reflexivity|].
    cbn [map]. rewrite map_map. reflexivity.
Qed.

Lemma matches_unfold (item : record) (q : string) :
  matches item q =
    match parseQueryAST (tokenizeQuery (trim q)) with
    | None => true
    | Some ast => evaluateExpression (Some ast) (buildHaystack item)
    end.
Proof.
  rewrite tokenizeQuery_trim. unfold matches.
  destruct (isEmpty q) eqn:Eq.
  - apply isEmpty_true in Eq. rewrite Eq. reflexivity.
  - destruct (tokenizeQuery q); reflexivity.
Qed.

Hypothesis consistent : Collation.Consistent localeCompare.

Lemma compareRows_total (a b : Item * Z) :
  0 < compareRows localeCompare fieldsOf a b ->
  compareRows localeCompare fieldsOf b a <= 0.
Proof.
  unfold compareRows.
  destruct (Z.eqb_spec (snd b - snd a) 0), (Z.eqb_spec (snd a - snd b) 0);
    cbn [negb]; try lia.
  intros H. apply consistent in H. lia.
Qed.

Lemma compareRows_trans (a b c : Item * Z) :
  compareRows localeCompare fieldsOf a b <= 0 ->
  compareRows localeCompare fieldsOf b c <= 0 ->
  compareRows localeCompare fieldsOf a c <= 0.
Proof.
  unfold compareRows.
  destruct (Z.eqb_spec (snd b - snd a) 0), (Z.eqb_spec (snd c - snd b) 0),
    (Z.eqb_spec (snd c - snd a) 0); cbn [negb]; try lia.
  apply consistent.
Qed.

Lemma ranked_sorted (ast : node) (items : list Item) :
  StronglySorted (fun a b => compareRows localeCompare fieldsOf a b <= 0)
    (ranked localeCompare fieldsOf ast items).
Proof.
  apply sortBy_sorted; [apply compareRows_total|apply compareRows_trans].
Qed.

Lemma ranked_scored (ast : node) (items : list Item) :
  Forall (fun row =>
            row = scored fieldsOf ast (fst row)
            /\ kept fieldsOf ast (fst row) = true)
    (ranked localeCompare fieldsOf ast items).
Proof.
  eapply Permutation_Forall; [symmetry; apply sortBy_perm|].
  apply List.Forall_forall. intros row Hin.
  apply in_map_iff in Hin as (x & <- & Hx).
  apply filter_In in Hx as [_ Hx]. now split.
Qed.

Lemma ranked_again (ast : node) (items : list Item) :
  ranked localeCompare fieldsOf ast
    (map fst (ranked localeCompare fieldsOf ast items))
  = ranked localeCompare fieldsOf ast items.
Proof.
  unfold ranked at 1.
  assert (H : map (scored fieldsOf ast)
                (List.filter (kept fieldsOf ast)
                   (map fst (ranked localeCompare fieldsOf ast items)))
              = ranked localeCompare fieldsOf ast items).
  { pose proof (ranked_scored ast items) as Hall.
    induction Hall as [|row l [Hrow Hkept] _ IH]; [reflexivity|].
    cbn [map List.filter]. rewrite Hkept. cbn [map]. now rewrite IH, <- Hrow. }
  rewrite H. apply sortBy_fixed, ranked_sorted.
Qed.

End FilterFacts.

(** ** The pattern of a quoted term *)

Section ExactPatternFacts.
Import ExactPattern Spec.

Lemma valueThenClose_iff (s v : string) :
  valueThenClose s v = true
  <-> exists after, s = v +:+ after /\ edgeOrBoundary (firstUnit after).
Proof.
  revert s. induction v as [|a v IH]; intros s.
  - cbn [valueThenClose]. split.
    + intros H. exists s. split; [reflexivity|].
      destruct s; cbn in *; [exact I|]. now apply negb_true_iff.
    + intros (after & -> & H). cbn.
      destruct after; cbn in *; [reflexivity|]. now apply negb_true_iff.
  - destruct s as [|b s].
    + split; [discriminate|]. intros (after & E & _). discriminate.
    + cbn [valueThenClose]. rewrite andb_true_iff, IH, Ascii.eqb_eq. split.
      * intros (-> & after & -> & H). now exists after.
      * intros (after & E & H). injection E as -> ->. split; [reflexivity|].
        now exists after.
Qed.

Lemma lastUnit_cons (c : ascii) (s : string) :
  s <> "" -> lastUnit (String c s) = lastUnit s.
Proof. destruct s; [congruence|reflexivity]. Qed.

Lemma lastUnit_some (s : string) : s <> "" -> exists c, lastUnit s = Some c.
Proof.
  induction s as [|a s IH]; [congruence|]. intros _.
  destruct s as [|b s]; [now exists a|].
  rewrite lastUnit_cons by discriminate. now apply IH.
Qed.

Lemma testFrom_iff (atStart : bool) (s v : string) :
  testFrom atStart s v = true
  <-> exists before after,
        s = before +:+ v +:+ after
        /\ match lastUnit before with
           | None => atStart = true
           | Some c => isLowerAlnum c = false
           end
        /\ edgeOrBoundary (firstUnit after).
Proof.
  revert atStart. induction s as [|c s IH]; intros atStart.
  - cbn [testFrom]; unfold matchHere.
    rewrite !orb_false_r, andb_true_iff, valueThenClose_iff.
    split.
    + intros (-> & after & E & H). now exists "", after.
    + intros (before & after & E & Hb & Ha).
      destruct before; [|discriminate]. cbn in Hb.
      split; [exact Hb|]. now exists after.
  - cbn [testFrom]; unfold matchHere.
    rewrite !orb_true_iff, !andb_true_iff, negb_true_iff, !valueThenClose_iff, IH.
    split.
    + intros [[(-> & after & E & H)|(Hc & after & E & H)]
             |(before & after & E & Hb & Ha)].
      * now exists "", after.
      * exists (String c ""), after. rewrite E. now split.
      * exists (String c before), after. destruct before as [|b before].
        -- discriminate.
        -- rewrite lastUnit_cons by discriminate. rewrite E.
           destruct (lastUnit_some (String b before)) as [u Hu]; [discriminate|].
           rewrite Hu in *. now split.
    + intros (before & after & E & Hb & Ha).
      destruct before as [|b before]; cbn in E.
      * left. left. cbn in Hb. split; [exact Hb|]. now exists after.
      * injection E as -> E. destruct before as [|b' before].
        -- left. right. cbn in Hb, E. split; [exact Hb|]. now exists after.
        -- right. exists (String b' before), after.
           rewrite lastUnit_cons in Hb by discriminate.
           destruct (lastUnit_some (String b' before)) as [u Hu]; [discriminate|].
           rewrite Hu in *. now split.
Qed.

Lemma test_iff (s v : string) : test s v = true <-> occursBounded s v.
Proof.
  unfold test, occursBounded. rewrite testFrom_iff.
  split; intros (before & after & E & Hb & Ha); exists before, after;
    (split; [exact E|split; [|exact Ha]]);
    unfold edgeOrBoundary in *; destruct (lastUnit before); auto.
Qed.

End ExactPatternFacts.

Lemma keyword_not_quoted (q : ascii) (kw tok : string) :
  toLowerChar q = q ->
  toLowerCase tok = kw -> Spec.firstUnit kw <> Some q -> isQuotedBy q tok = false.
Proof.
  intros Hq <- Hfirst. destruct tok as [|a r]; [reflexivity|].
  cbn [isQuotedBy]. destruct (Ascii.eqb_spec a q) as [->|]; [|reflexivity].
  cbn in Hfirst. rewrite Hq in Hfirst. congruence.
Qed.

(** ** The haystack *)

Section HaystackFacts.

Lemma joinStr_orEmpty (v : jsval) :
  joinStr (jsOr v (JString "")) = Spec.orEmpty v.
Proof.
  unfold jsOr, Spec.orEmpty. destruct (truthy v) eqn:E; [|reflexivity].
  destruct v; try reflexivity; discriminate.
Qed.

Lemma buildHaystack_eq (item : record) : buildHaystack item = Spec.haystack item.
Proof.
  unfold buildHaystack, Spec.haystack.
  cbn [map join]. rewrite !joinStr_orEmpty.
  assert (Hg : Spec.orEmpty
            (JString (toStr (prop item "grid_width") +:+ "x"
                      +:+ toStr (prop item "grid_height")))
          = toStr (prop item "grid_width") +:+ "x"
            +:+ toStr (prop item "grid_height")).
  { unfold Spec.orEmpty. destruct (toStr (prop item "grid_width")); reflexivity. }
  rewrite Hg.
  assert (Ht : joinStr
            match prop item "tags" with
            | JArray elems => JString (join " " elems)
            | t => jsOr t (JString "")
            end
          = Spec.tagsText (prop item "tags")).
  { destruct (prop item "tags") eqn:E; try rewrite joinStr_orEmpty; reflexivity. }
  rewrite Ht. reflexivity.
Qed.

Lemma includes_app_l (a b v : string) :
  includes a v = true -> includes (a +:+ b) v = true.
Proof.
  rewrite !includes_iff. intros (x & y & ->). exists x, (y +:+ b).
  now rewrite !append_assoc.
Qed.

Lemma includes_app_r (a b v : string) :
  includes b v = true -> includes (a +:+ b) v = true.
Proof.
  rewrite !includes_iff. intros (x & y & ->). exists (a +:+ x), y.
  now rewrite !append_assoc.
Qed.

End HaystackFacts.

(** ** indexOf returns the lowest index *)

Section IndexFacts.
Import Spec.

Lemma occursAt_0 (s v : string) : occursAt s v 0 <-> startsWith s v = true.
Proof.
  unfold occursAt. split.
  - intros (before & after & -> & H). destruct before; [|discriminate].
    exact (startsWith_app v after).
  - intros H. apply startsWith_inv in H as [r ->]. now exists "", r.
Qed.

Lemma occursAt_S (c : ascii) (s v : string) (i : nat) :
  occursAt (String c s) v (S i) <-> occursAt s v i.
Proof.
  unfold occursAt. split.
  - intros (before & after & E & H). destruct before as [|b before]; [discriminate|].
    injection E as -> ->. injection H as H. now exists before, after.
  - intros (before & after & -> & H). exists (String c before), after.
    split; [reflexivity|]. cbn. now rewrite H.
Qed.

Lemma firstIndex_lowest (s v : string) (i : nat) :
  firstIndex s v = Some i ->
  occursAt s v i /\ forall j, (j < i)%nat -> ~ occursAt s v j.
Proof.
  revert i. induction s as [|c s IH]; intros i; cbn [firstIndex].
  - destruct (startsWith "" v) eqn:E; [|discriminate].
    intros [= <-]. split; [now apply occursAt_0|]. intros j Hj. lia.
  - destruct (startsWith (String c s) v) eqn:E.
    + intros [= <-]. split; [now apply occursAt_0|]. intros j Hj. lia.
    + destruct (firstIndex s v) as [k|]; [|discriminate].
      intros [= <-]. destruct (IH k eq_refl) as [Hk Hlow]. split.
      * now apply occursAt_S.
      * intros [|j] Hj.
        -- rewrite occursAt_0. congruence.
        -- rewrite occursAt_S. apply Hlow. lia.
Qed.

Lemma indexOf_lowest (s v : string) (i : nat) :
  indexOf s v = Z.of_nat i ->
  occursAt s v i /\ forall j, (j < i)%nat -> ~ occursAt s v j.
Proof.
  unfold indexOf. destruct (firstIndex s v) as [k|] eqn:E; [|lia].
  intros H. apply Nat2Z.inj in H as <-. now apply firstIndex_lowest.
Qed.

End IndexFacts.

(** ** A dash before a query that is one plain term *)

Section NegationFacts.

(** What a query that is one plain term looks like to the tokenizer. *)
Lemma plain_term_step (t v : string) (pend : bool) :
  tokenizeStep false t = ([TERM (mkTerm v false false)], pend) ->
  String.length v = String.length t ->
  trimEnd t = t
  /\ stripDashes true t = (true, t)
  /\ (forall b, peelParens b t = ([], b, t))
  /\ stripTrailingParens t = (0%nat, t)
  /\ isQuotedBy "'" t || isQuotedBy Lexer.dquote t = false
  /\ v = toLowerCase t.
Proof.
  unfold tokenizeStep. intros H Hlen.
  destruct (isEmpty (trim t)); [discriminate|].
  destruct (String.eqb (trim t) "-"); [discriminate|].
  destruct (stripDashes false (trim t)) as [neg1 tok1] eqn:Ed.
  destruct (isEmpty tok1); [discriminate|].
  destruct (peelParens_spec neg1 tok1) as (Ho & _ & Hp).
  destruct (peelParens neg1 tok1) as [[opened neg2] tok2] eqn:Ep.
  cbn [fst snd] in *.
  destruct (stripTrailingParens_spec tok2) as [_ Hs].
  destruct (stripTrailingParens tok2) as [n tok3] eqn:Es. cbn [fst snd] in *.
  assert (Hopened : forall out, opened ++ out = [TERM (mkTerm v false false)] ->
                                opened = [] /\ out = [TERM (mkTerm v false false)]).
  { intros out Hout. destruct opened as [|o opened]; [now split|].
    injection Hout as -> _. inversion Ho as [|? ? [Hx|Hx] _]; discriminate. }
  destruct (isEmpty tok3).
  { injection H as H _. apply Hopened in H as [_ H].
    destruct n; cbn in H; discriminate. }
  destruct (emitLexeme neg2 tok3 n) as [out pend'] eqn:Ee.
  injection H as H _. apply Hopened in H as [-> ->].
  specialize (Hp eq_refl). rewrite Hp in Ep. injection Ep as <- <-.
  unfold emitLexeme in Ee.
  destruct (isQuotedBy "'" tok3 || isQuotedBy Lexer.dquote tok3) eqn:Eq.
  { repeat match type of Ee with
           | (if ?b then _ else _) = _ => destruct b
           end; try discriminate; destruct n; cbn in Ee; discriminate. }
  repeat match type of Ee with
         | (if ?b then _ else _) = _ => destruct b
         end; try discriminate; try (destruct n; cbn in Ee; discriminate).
  injection Ee as <- -> Hn _. destruct n; [|discriminate].
  specialize (Hs eq_refl). injection Hs as <-.
  apply stripDashes_false in Ed as (_ & -> & Hd).
  rewrite toLowerCase_length in Hlen.
  destruct (trim_length t) as [_ Ht]. destruct (Ht Hlen) as [Etrim Eend].
  rewrite Etrim in *. repeat split; auto.
Qed.

Lemma plain_term_negated (t : string) :
  (2 <= String.length t)%nat ->
  tokenizeQuery t = [TERM (mkTerm (toLowerCase t) false false)] ->
  tokenizeQuery ("-" +:+ t) = [TERM (mkTerm (toLowerCase t) false true)].
Proof.
  intros Hlen Htok. unfold tokenizeQuery in *.
  (* the term comes from one lexeme, which is all of [t] *)
  destruct (tokenizeLoop_term false (Lexer.matchAll t)
              (TERM (mkTerm (toLowerCase t) false false)))
    as (lex & p' & Hin & Hterm); [rewrite Htok; now left|].
  apply tokenizeStep_term in Hterm. cbn [value] in Hterm.
  rewrite toLowerCase_length in Hterm.
  destruct (lexeme_length t lex Hin) as [Hle Hall].
  destruct (Hall ltac:(lia)) as [Hat Hlexemes]. clear Hall Hle Hterm Hin lex p'.
  rewrite Hlexemes in Htok. cbn [tokenizeLoop] in Htok.
  destruct (tokenizeStep false t) as [out pend] eqn:Estep.
  rewrite app_nil_r in Htok. subst out.
  destruct (plain_term_step t _ pend Estep (toLowerCase_length t))
    as (Hend & Hdash & Hpeel & Htrail & Hquoted & _).
  apply orb_false_iff in Hquoted as [Hq1 Hq2].
  (* [t] is a run of word units *)
  assert (Hword : Lexer.wordRun t = t).
  { unfold Lexer.matchAt, Lexer.orElse in Hat.
    destruct (Lexer.altChar "(" t) as [l|] eqn:E1.
    { unfold Lexer.altChar in E1. destruct t as [|c t]; [discriminate|].
      destruct (Ascii.eqb c "("); [|discriminate].
      injection E1 as <-. injection Hat as Hc Ht. subst t. cbn in Hlen. lia. }
    destruct (Lexer.altChar ")" t) as [l|] eqn:E2.
    { unfold Lexer.altChar in E2. destruct t as [|c t]; [discriminate|].
      destruct (Ascii.eqb c ")"); [|discriminate].
      injection E2 as <-. injection Hat as Hc Ht. subst t. cbn in Hlen. lia. }
    destruct (Lexer.altQuoted "'" t) as [l|] eqn:E3.
    { injection Hat as ->. apply altQuoted_isQuotedBy in E3. congruence. }
    destruct (Lexer.altQuoted Lexer.dquote t) as [l|] eqn:E4.
    { injection Hat as ->. apply altQuoted_isQuotedBy in E4. congruence. }
    unfold Lexer.altWord in Hat.
    destruct (Lexer.wordRun t); [discriminate|]. now injection Hat. }
  (* so the dash and [t] are one lexeme *)
  assert (Hat' : Lexer.matchAt ("-" +:+ t) = Some ("-" +:+ t)).
  { change ("-" +:+ t) with (String "-" t).
    unfold Lexer.matchAt, Lexer.orElse, Lexer.altChar, Lexer.altQuoted,
      Lexer.altWord.
    change (Lexer.wordRun (String "-" t)) with (String "-" (Lexer.wordRun t)).
    rewrite Hword. reflexivity. }
  pose proof (matchAll_cons ("-" +:+ t) "") as Hall.
  rewrite append_empty_r in Hall. rewrite (Hall Hat').
  change (Lexer.matchAll "") with (@nil string).
  (* and the loop body negates the term *)
  change ("-" +:+ t) with (String "-" t).
  enough (Hstep : tokenizeStep false (String "-" t)
                  = ([TERM (mkTerm (toLowerCase t) false true)], false))
    by (cbn [tokenizeLoop]; now rewrite Hstep).
  assert (Htrim : trim (String "-" t) = String "-" t).
  { unfold trim. change (trimStart (String "-" t)) with (String "-" t).
    rewrite trimEnd_cons, Hend, andb_false_r. reflexivity. }
  assert (Hne : isEmpty t = false) by (destruct t; [cbn in Hlen; lia|reflexivity]).
  unfold tokenizeStep. rewrite Htrim. cbn [isEmpty].
  assert (Hnd : String.eqb (String "-" t) "-" = false).
  { destruct t; [discriminate|reflexivity]. }
  rewrite Hnd. change (stripDashes false (String "-" t)) with (stripDashes true t).
  rewrite Hdash, Hne, Hpeel, Htrail, Hne.
  unfold emitLexeme. rewrite Hq1, Hq2. cbn [orb negb andb].
  rewrite toLowerCase_length.
  destruct (Nat.ltb_spec (String.length t) 2); [lia|reflexivity].
Qed.

End NegationFacts.



(** ** The call stack *)

Section CallStackFacts.
Import CallStack.




Lemma tracks_same {R} (k : nat) (tokens : list token) (stack : nat)
    (res : option R) :
  tracks k tokens stack (option_map Returns res) res.
Proof. now right. Qed.











(** *** A query of opening parentheses *)










End CallStackFacts.

(** ** The heap *)

Section HeapFacts.

Lemma extends_ret {A} (a : A) : extends (ret a).
Proof. intros h. reflexivity. Qed.

Lemma extends_bind {A B} (c : M A) (k : A -> M B) :
  extends c -> (forall a, extends (k a)) -> extends (bind c k).
Proof.
  intros Hc Hk h. unfold bind. specialize (Hc h).
  destruct (c h) as [a h1]. cbn [snd] in Hc.
  etrans; [exact Hc|apply Hk].
Qed.

Lemma alloc_fresh (o : object) (h : heap) :
  h !! fst (alloc o h) = None.
Proof. unfold alloc. cbn [fst]. apply not_elem_of_dom, is_fresh. Qed.

Lemma allocates_alloc (o : object) : allocates (alloc o).
Proof.
  intros h. split; [|apply alloc_fresh].
  unfold alloc. cbn [snd]. apply insert_subseteq, (alloc_fresh o h).
Qed.

Lemma extends_alloc (o : object) : extends (alloc o).
Proof. intros h. apply allocates_alloc. Qed.

Lemma extends_forEach {A B} (f : A -> M B) (l : list A) :
  (forall x, extends (f x)) -> extends (forEach f l).
Proof.
  intros Hf. induction l as [|x l IH]; cbn [forEach]; [apply extends_ret|].
  apply extends_bind; [apply Hf|]. intros y.
  apply extends_bind; [exact IH|]. intros ys. apply extends_ret.
Qed.

Lemma allocates_bind {A} (c : M A) (k : A -> M loc) :
  extends c -> (forall a, allocates (k a)) -> allocates (bind c k).
Proof.
  intros Hc Hk h. unfold bind. specialize (Hc h).
  destruct (c h) as [a h1]. cbn [snd] in Hc.
  destruct (Hk a h1) as [Hsub Hnew]. split; [etrans; eassumption|].
  destruct (h !! fst (k a h1)) as [o|] eqn:E; [|reflexivity].
  rewrite (lookup_weaken _ _ _ _ E Hc) in Hnew. discriminate.
Qed.

Lemma allocates_arrayMap (f : loc -> M loc) (arr : loc) :
  (forall x, extends (f x)) -> allocates (arrayMap f arr).
Proof.
  intros Hf. unfold arrayMap.
  apply allocates_bind; [intros h; reflexivity|]. intros elems.
  apply allocates_bind; [now apply extends_forEach|]. intros ys.
  apply allocates_alloc.
Qed.

Lemma allocates_arrayFilter (p : loc -> M bool) (arr : loc) :
  (forall x, extends (p x)) -> allocates (arrayFilter p arr).
Proof.
  intros Hp. unfold arrayFilter.
  apply allocates_bind; [intros h; reflexivity|]. intros elems.
  apply allocates_bind; [now apply extends_forEach|]. intros flags.
  apply allocates_alloc.
Qed.

Lemma extends_haystackRow (item : loc) :
  extends (bind (buildHaystackRef item)
             (fun haystack => alloc (ObjHaystackRow item haystack))).
Proof.
  apply extends_bind; [intros h; reflexivity|]. intros s. apply extends_alloc.
Qed.

Lemma extends_kept (ast : node) (row : loc) :
  extends (bind (readHaystackRow row)
             (fun r => ret (evaluateExpression (Some ast) (snd r)))).
Proof. intros h. reflexivity. Qed.

Lemma extends_scoreRow (ast : node) (row : loc) :
  extends (bind (readHaystackRow row)
             (fun r => bind (scoreMatchRef (fst r) ast)
                         (fun score => alloc (ObjScoreRow (fst r) score)))).
Proof.
  apply extends_bind; [intros h; reflexivity|]. intros r.
  apply extends_bind; [intros h; reflexivity|]. intros s. apply extends_alloc.
Qed.

Lemma extends_rowItem (row : loc) :
  extends (bind (readScoreRow row) (fun r => ret (fst r))).
Proof. intros h. reflexivity. Qed.

(** The heap after [matches] is the heap before it. *)
Lemma matchesRef_heap (item : loc) (q : string) (h : heap) :
  snd (matchesRef item q h) = h.
Proof.
  unfold matchesRef. destruct (isEmpty q); [reflexivity|]. cbv zeta.
  destruct (tokenizeQuery q); [reflexivity|].
  destruct (parseQueryAST _); reflexivity.
Qed.

Lemma matchesRef_value (item : loc) (q : string) (h : heap) :
  fst (matchesRef item q h) = matches (recordAt h item) q.
Proof.
  unfold matchesRef, matches. destruct (isEmpty q); [reflexivity|]. cbv zeta.
  destruct (tokenizeQuery q); [reflexivity|].
  destruct (parseQueryAST _); reflexivity.
Qed.

(** [filter] writes to one object that existed before its own last
    step: the array of scored rows, which it allocated itself. *)
Lemma filterRef_frame (localeCompare : string -> string -> Z)
    (items : loc) (q : string) (h : heap) :
  h ⊆ snd (filterRef localeCompare items q h).
Proof.
  unfold filterRef. cbv zeta.
  destruct (isEmpty (trim q)); [reflexivity|].
  destruct (tokenizeQuery (trim q)) as [|t tokens] eqn:Et; [reflexivity|].
  rewrite <- Et. clear Et t tokens.
  destruct (parseQueryAST (tokenizeQuery (trim q))) as [ast|]; [|reflexivity].
  unfold bind at 1.
  destruct (allocates_arrayMap _ items extends_haystackRow h) as [H1 _].
  destruct (arrayMap _ items h) as [mapped h1]. cbn [fst snd] in H1.
  unfold bind at 1.
  destruct (allocates_arrayFilter _ mapped (extends_kept ast) h1) as [H2 _].
  destruct (arrayFilter _ mapped h1) as [filtered h2]. cbn [fst snd] in H2.
  unfold bind at 1. unfold readElems at 1.
  destruct (elemsAt h2 filtered) as [|k ks].
  { etrans; [exact H1|]. etrans; [exact H2|]. apply extends_alloc. }
  unfold bind at 1.
  destruct (allocates_arrayMap _ filtered (extends_scoreRow ast) h2) as [H3 N3].
  destruct (arrayMap _ filtered h2) as [scored h3]. cbn [fst snd] in H3, N3.
  unfold bind at 1. unfold arraySort at 1.
  assert (H0 : h ⊆ h2) by (etrans; eassumption).
  assert (Hnew : h !! scored = None).
  { destruct (h !! scored) as [o|] eqn:E; [|reflexivity].
    rewrite (lookup_weaken _ _ _ _ E H0) in N3. discriminate. }
  etrans; [|apply (allocates_arrayMap _ scored extends_rowItem)].
  apply insert_subseteq_r; [exact Hnew|]. etrans; eassumption.
Qed.

End HeapFacts.

(** ** What filter leaves in the heap *)

Section HeapResult.

Lemma recordAt_weaken (h0 h : heap) (x : loc) :
  h0 ⊆ h -> is_Some (h0 !! x) -> recordAt h x = recordAt h0 x.
Proof.
  intros Hsub [o Ho]. unfold recordAt.
  now rewrite (lookup_weaken _ _ _ _ Ho Hsub), Ho.
Qed.

Lemma bind_run {A B} (c : M A) (k : A -> M B) (h : heap) :
  bind c k h = k (fst (c h)) (snd (c h)).
Proof. unfold bind. now destruct (c h). Qed.

Lemma forEach_cons {A B} (f : A -> M B) (a : A) (l : list A) (h : heap) :
  forEach f (a :: l) h
  = (fst (f a h) :: fst (forEach f l (snd (f a h))),
     snd (forEach f l (snd (f a h)))).
Proof.
  cbn [forEach]. unfold bind, ret. destruct (f a h) as [y h1]. cbn [fst snd].
  now destruct (forEach f l h1).
Qed.

(** A callback that only reads leaves the heap and maps the list. *)
Lemma forEach_pure {A B} (f : A -> M B) (g : heap -> A -> B) (l : list A)
    (h : heap) :
  (forall a, f a h = (g h a, h)) -> forEach f l h = (map (g h) l, h).
Proof.
  intros Hf. induction l as [|a l IH]; [reflexivity|].
  rewrite forEach_cons, Hf. cbn [fst snd map]. now rewrite IH.
Qed.

(** A callback that establishes [R] from [P], both kept when the heap
    grows, does so for every element, in order. *)
Lemma forEach_rel {X A B} (I : heap -> Prop) (P : X -> A -> heap -> Prop)
    (R : X -> B -> heap -> Prop) (f : A -> M B) :
  (forall h h', I h -> h ⊆ h' -> I h') ->
  (forall x a h h', P x a h -> h ⊆ h' -> P x a h') ->
  (forall x b h h', R x b h -> h ⊆ h' -> R x b h') ->
  (forall x a h, I h -> P x a h ->
                 h ⊆ snd (f a h) /\ R x (fst (f a h)) (snd (f a h))) ->
  forall xs l h, I h -> Forall2 (fun x a => P x a h) xs l ->
    h ⊆ snd (forEach f l h)
    /\ Forall2 (fun x b => R x b (snd (forEach f l h))) xs (fst (forEach f l h)).
Proof.
  intros HI HP HR Hf xs l. revert xs.
  induction l as [|a l IH]; intros xs h Ih Hall.
  - apply Forall2_nil_inv_r in Hall as ->. split; [reflexivity|constructor].
  - apply Forall2_cons_inv_r in Hall as (x & xs' & Hx & Hxs & ->).
    rewrite forEach_cons.
    destruct (Hf x a h Ih Hx) as [H1 R1].
    destruct (f a h) as [y h1]. cbn [fst snd] in H1, R1 |- *.
    destruct (IH xs' h1) as [H2 R2].
    { now apply (HI h). }
    { eapply Forall2_impl; [exact Hxs|]. intros x0 a0 Hp. now apply (HP _ _ h). }
    destruct (forEach f l h1) as [ys h2]. cbn [fst snd] in H2, R2 |- *.
    split; [etrans; eassumption|].
    constructor; [now apply (HR _ _ h1)|exact R2].
Qed.

Lemma pick_rel {X A} (Q : X -> A -> Prop) (g : X -> bool) (xs : list X)
    (rows : list A) :
  Forall2 Q xs rows ->
  Forall2 Q (List.filter g xs)
    (map fst (List.filter snd (List.combine rows (map g xs)))).
Proof.
  induction 1 as [|x a xs rows Hq Hall IH]; [constructor|].
  cbn [map List.combine List.filter snd]. destruct (g x); cbn [map fst];
    [now constructor|exact IH].
Qed.

Lemma Forall2_map_eq {X A B} (g : A -> B) (k : X -> B) (xs : list X)
    (l : list A) :
  Forall2 (fun x a => g a = k x) xs l -> map g l = map k xs.
Proof. induction 1 as [|x a xs l E _ IH]; [reflexivity|]. cbn. now rewrite E, IH. Qed.

Lemma insertBy_map {A B} (g : A -> B) (cmp : B -> B -> Z) (x : A) (l : list A) :
  map g (insertBy (fun a b => cmp (g a) (g b)) x l)
  = insertBy cmp (g x) (map g l).
Proof.
  induction l as [|y l IH]; [reflexivity|]. cbn [insertBy map].
  destruct (cmp (g x) (g y) <=? 0); [reflexivity|]. cbn [map]. now rewrite IH.
Qed.

Lemma sortBy_map {A B} (g : A -> B) (cmp : B -> B -> Z) (l : list A) :
  map g (sortBy (fun a b => cmp (g a) (g b)) l) = sortBy cmp (map g l).
Proof.
  induction l as [|x l IH]; [reflexivity|]. cbn [sortBy map].
  now rewrite insertBy_map, IH.
Qed.

Lemma insertBy_ext {A} (cmp cmp' : A -> A -> Z) (x : A) (l : list A) :
  (forall y, In y l -> cmp x y = cmp' x y) ->
  insertBy cmp x l = insertBy cmp' x l.
Proof.
  induction l as [|y l IH]; intros H; [reflexivity|]. cbn [insertBy].
  rewrite (H y (or_introl eq_refl)). destruct (cmp' x y <=? 0); [reflexivity|].
  f_equal. apply IH. intros z Hz. apply H. now right.
Qed.

Lemma sortBy_ext {A} (cmp cmp' : A -> A -> Z) (l : list A) :
  (forall a b, In a l -> In b l -> cmp a b = cmp' a b) ->
  sortBy cmp l = sortBy cmp' l.
Proof.
  induction l as [|x l IH]; intros H; [reflexivity|]. cbn [sortBy].
  rewrite IH by (intros a b Ha Hb; apply H; now right).
  apply insertBy_ext. intros y Hy. apply H; [now left|right].
  eapply Permutation_in; [apply sortBy_perm|exact Hy].
Qed.

Lemma arrayMap_run (f : loc -> M loc) (arr : loc) (h : heap) :
  arrayMap f arr h
  = (fresh (dom (snd (forEach f (elemsAt h arr) h))),
     <[fresh (dom (snd (forEach f (elemsAt h arr) h)))
       := ObjArray (fst (forEach f (elemsAt h arr) h))]>
       (snd (forEach f (elemsAt h arr) h))).
Proof.
  unfold arrayMap, bind, readElems, alloc.
  now destruct (forEach f (elemsAt h arr) h).
Qed.

Lemma arrayFilter_run (p : loc -> M bool) (arr : loc) (h : heap) :
  arrayFilter p arr h
  = (fresh (dom (snd (forEach p (elemsAt h arr) h))),
     <[fresh (dom (snd (forEach p (elemsAt h arr) h)))
       := ObjArray
            (map fst
               (List.filter snd
                  (List.combine (elemsAt h arr)
                     (fst (forEach p (elemsAt h arr) h)))))]>
       (snd (forEach p (elemsAt h arr) h))).
Proof.
  unfold arrayFilter, bind, readElems, alloc.
  now destruct (forEach p (elemsAt h arr) h).
Qed.

Lemma haystackRow_run (item : loc) (h : heap) :
  bind (buildHaystackRef item)
    (fun haystack => alloc (ObjHaystackRow item haystack)) h
  = (fresh (dom h),
     <[fresh (dom h) := ObjHaystackRow item (buildHaystack (recordAt h item))]> h).
Proof. reflexivity. Qed.

Lemma scoreRow_run (ast : node) (row : loc) (h : heap) :
  bind (readHaystackRow row)
    (fun r => bind (scoreMatchRef (fst r) ast)
                (fun score => alloc (ObjScoreRow (fst r) score))) h
  = (fresh (dom h),
     <[fresh (dom h)
       := ObjScoreRow (fst (haystackRowAt h row))
            (scoreMatch (recordAt h (fst (haystackRowAt h row))) (Some ast))]> h).
Proof. reflexivity. Qed.

Lemma fresh_none (h : heap) : h !! fresh (dom h) = None.
Proof. apply not_elem_of_dom, is_fresh. Qed.

Lemma elemsAt_insert (h : heap) (l : loc) (elems : list loc) :
  elemsAt (<[l := ObjArray elems]> h) l = elems.
Proof. unfold elemsAt. now rewrite lookup_insert_eq. Qed.

Lemma Forall2_diag {A} (P : A -> Prop) (l : list A) :
  Forall P l -> Forall2 (fun x a => a = x /\ P x) l l.
Proof. induction 1; constructor; auto. Qed.

Section Run.

Variable localeCompare : string -> string -> Z.
Variable h0 : heap.
Variable items : loc.
Variable ast : node.

Hypothesis closed :
  Forall (fun x => is_Some (h0 !! x)) (elemsAt h0 items).

Lemma hasHaystackRow_weaken (x row : loc) (h h' : heap) :
  (hasHaystackRow h0) x row h -> h ⊆ h' -> (hasHaystackRow h0) x row h'.
Proof. intros [Hx Hr] Hsub. split; [exact Hx|]. exact (lookup_weaken _ _ _ _ Hr Hsub). Qed.

Lemma hasScoreRow_weaken (x row : loc) (h h' : heap) :
  (hasScoreRow h0 ast) x row h -> h ⊆ h' -> (hasScoreRow h0 ast) x row h'.
Proof. intros [Hx Hr] Hsub. split; [exact Hx|]. exact (lookup_weaken _ _ _ _ Hr Hsub). Qed.

Lemma above_weaken (h h' : heap) : h0 ⊆ h -> h ⊆ h' -> h0 ⊆ h'.
Proof. intros. etrans; eassumption. Qed.

(** The first [map]: a row with the haystack of every element. *)
Lemma run_mapped (h : heap) :
  h0 ⊆ h -> elemsAt h items = elemsAt h0 items ->
  let res := arrayMap
               (fun item =>
                  bind (buildHaystackRef item)
                    (fun haystack => alloc (ObjHaystackRow item haystack)))
               items h in
  h ⊆ snd res
  /\ h !! fst res = None
  /\ exists rows,
       snd res !! fst res = Some (ObjArray rows)
       /\ Forall2 (fun x row => (hasHaystackRow h0) x row (snd res))
            (elemsAt h0 items) rows.
Proof.
  intros Hsub He res. subst res. rewrite arrayMap_run, He.
  assert (Hcb : forall x a h1,
             h0 ⊆ h1 -> a = x /\ is_Some (h0 !! x) ->
             h1 ⊆ snd (bind (buildHaystackRef a)
                         (fun haystack => alloc (ObjHaystackRow a haystack)) h1)
             /\ (hasHaystackRow h0) x
                  (fst (bind (buildHaystackRef a)
                          (fun haystack => alloc (ObjHaystackRow a haystack)) h1))
                  (snd (bind (buildHaystackRef a)
                          (fun haystack => alloc (ObjHaystackRow a haystack)) h1))).
  { intros x a h1 Ih [-> Hx]. rewrite haystackRow_run.
    cbn [fst snd]. split; [apply insert_subseteq, fresh_none|].
    split; [exact Hx|]. rewrite lookup_insert_eq.
    now rewrite (recordAt_weaken h0 h1 x Ih Hx). }
  assert (Hall : Forall2 (fun x a : loc => a = x /\ is_Some (h0 !! x))
                   (elemsAt h0 items) (elemsAt h0 items)).
  { apply Forall2_diag, closed. }
  destruct (forEach_rel (fun h => h0 ⊆ h)
              (fun x a _ => a = x /\ is_Some (h0 !! x)) (hasHaystackRow h0) _
              above_weaken (fun _ _ _ _ H _ => H) hasHaystackRow_weaken Hcb
              _ _ h Hsub Hall) as [H1 R1].
  destruct (forEach _ (elemsAt h0 items) h) as [rows h1]. cbn [fst snd] in *.
  split; [etrans; [exact H1|apply insert_subseteq, fresh_none]|].
  split.
  { destruct (h !! fresh (dom h1)) as [o|] eqn:E; [|reflexivity].
    rewrite <- (fresh_none h1). symmetry. exact (lookup_weaken _ _ _ _ E H1). }
  exists rows. split; [apply lookup_insert_eq|].
  eapply Forall2_impl; [exact R1|]. intros x row Hr.
  eapply hasHaystackRow_weaken; [exact Hr|apply insert_subseteq, fresh_none].
Qed.

(** The [filter]: the rows of the elements the tree accepts. *)
Lemma run_filtered (h : heap) (mapped : loc) (xs rows : list loc) :
  h !! mapped = Some (ObjArray rows) ->
  Forall2 (fun x row => (hasHaystackRow h0) x row h) xs rows ->
  let res := arrayFilter
               (fun row =>
                  bind (readHaystackRow row)
                    (fun r => ret (evaluateExpression (Some ast) (snd r))))
               mapped h in
  h ⊆ snd res
  /\ exists rows',
       snd res !! fst res = Some (ObjArray rows')
       /\ Forall2 (fun x row => (hasHaystackRow h0) x row (snd res))
            (List.filter (kept (recordAt h0) ast) xs) rows'.
Proof.
  intros Hm Hall res. subst res. rewrite arrayFilter_run.
  assert (He : elemsAt h mapped = rows) by (unfold elemsAt; now rewrite Hm).
  rewrite He.
  rewrite (forEach_pure _
             (fun h row => evaluateExpression (Some ast) (snd (haystackRowAt h row))))
    by reflexivity.
  cbn [fst snd].
  split; [apply insert_subseteq, fresh_none|].
  eexists. split; [apply lookup_insert_eq|].
  assert (Hflags : map (fun row => evaluateExpression (Some ast)
                                     (snd (haystackRowAt h row))) rows
                   = map (kept (recordAt h0) ast) xs).
  { apply Forall2_map_eq. eapply Forall2_impl; [exact Hall|].
    intros x row [_ Hr]. unfold haystackRowAt. now rewrite Hr. }
  rewrite Hflags.
  apply pick_rel. eapply Forall2_impl; [exact Hall|].
  intros x row Hr. eapply hasHaystackRow_weaken; [exact Hr|].
  apply insert_subseteq, fresh_none.
Qed.

(** The second [map]: a row with the score of every element kept. *)
Lemma run_scored (h : heap) (filtered : loc) (xs rows : list loc) :
  h0 ⊆ h -> h !! filtered = Some (ObjArray rows) ->
  Forall2 (fun x row => (hasHaystackRow h0) x row h) xs rows ->
  let res := arrayMap
               (fun row =>
                  bind (readHaystackRow row)
                    (fun r => bind (scoreMatchRef (fst r) ast)
                                (fun score => alloc (ObjScoreRow (fst r) score))))
               filtered h in
  h ⊆ snd res
  /\ h !! fst res = None
  /\ exists rows',
       snd res !! fst res = Some (ObjArray rows')
       /\ Forall2 (fun x row => (hasScoreRow h0 ast) x row (snd res)) xs rows'.
Proof.
  intros Hsub Hm Hall res. subst res. rewrite arrayMap_run.
  assert (He : elemsAt h filtered = rows) by (unfold elemsAt; now rewrite Hm).
  rewrite He.
  assert (Hcb : forall x row h1,
             h0 ⊆ h1 -> (hasHaystackRow h0) x row h1 ->
             h1 ⊆ snd (bind (readHaystackRow row)
                         (fun r => bind (scoreMatchRef (fst r) ast)
                                     (fun score => alloc (ObjScoreRow (fst r) score)))
                         h1)
             /\ (hasScoreRow h0 ast) x
                  (fst (bind (readHaystackRow row)
                          (fun r => bind (scoreMatchRef (fst r) ast)
                                      (fun score => alloc (ObjScoreRow (fst r) score)))
                          h1))
                  (snd (bind (readHaystackRow row)
                          (fun r => bind (scoreMatchRef (fst r) ast)
                                      (fun score => alloc (ObjScoreRow (fst r) score)))
                          h1))).
  { intros x row h1 Ih [Hx Hr]. rewrite scoreRow_run. cbn [fst snd].
    split; [apply insert_subseteq, fresh_none|].
    split; [exact Hx|]. rewrite lookup_insert_eq.
    unfold haystackRowAt. rewrite Hr. cbn [fst].
    now rewrite (recordAt_weaken h0 h1 x Ih Hx). }
  destruct (forEach_rel (fun h => h0 ⊆ h) (hasHaystackRow h0) (hasScoreRow h0 ast) _
              above_weaken hasHaystackRow_weaken hasScoreRow_weaken Hcb
              _ _ h Hsub Hall) as [H1 R1].
  destruct (forEach _ rows h) as [rows' h1]. cbn [fst snd] in *.
  split; [etrans; [exact H1|apply insert_subseteq, fresh_none]|].
  split.
  { destruct (h !! fresh (dom h1)) as [o|] eqn:E; [|reflexivity].
    rewrite <- (fresh_none h1). symmetry. exact (lookup_weaken _ _ _ _ E H1). }
  exists rows'. split; [apply lookup_insert_eq|].
  eapply Forall2_impl; [exact R1|]. intros x row Hr.
  eapply hasScoreRow_weaken; [exact Hr|apply insert_subseteq, fresh_none].
Qed.

(** The [sort]: the array of rows, overwritten in the order of the
    comparator. *)
Lemma run_sorted (h : heap) (scoredArr : loc) (xs rows : list loc) :
  h0 ⊆ h -> h0 !! scoredArr = None -> h !! scoredArr = Some (ObjArray rows) ->
  Forall2 (fun x row => (hasScoreRow h0 ast) x row h) xs rows ->
  let res := arraySort (compareRowsRef localeCompare) scoredArr h in
  fst res = scoredArr
  /\ h0 ⊆ snd res
  /\ exists rows',
       snd res !! scoredArr = Some (ObjArray rows')
       /\ map (scoreRowAt (snd res)) rows'
          = sortBy (compareRows localeCompare (recordAt h0))
              (map (scored (recordAt h0) ast) xs).
Proof.
  intros Hsub Hnone Hm Hall res. subst res. unfold arraySort. cbn [fst snd].
  assert (He : elemsAt h scoredArr = rows) by (unfold elemsAt; now rewrite Hm).
  rewrite He.
  split; [reflexivity|]. split; [now apply insert_subseteq_r|].
  eexists. split; [apply lookup_insert_eq|].
  assert (Hrows : map (scoreRowAt h) rows = map (scored (recordAt h0) ast) xs).
  { apply Forall2_map_eq. eapply Forall2_impl; [exact Hall|].
    intros x row [_ Hr]. unfold scoreRowAt. now rewrite Hr. }
  assert (Hsame : forall row, In row (sortBy (compareRowsRef localeCompare h) rows) ->
            scoreRowAt (<[scoredArr := ObjArray (sortBy (compareRowsRef localeCompare h) rows)]> h) row
            = scoreRowAt h row).
  { intros row Hin. eapply Permutation_in in Hin; [|apply sortBy_perm].
    assert (Hrow : exists x, (hasScoreRow h0 ast) x row h).
    { clear -Hall Hin. induction Hall as [|x r xs rows Hr _ IH]; [easy|].
      destruct Hin as [<- | Hin]; [now exists x|now apply IH]. }
    destruct Hrow as (x & _ & Hr).
    unfold scoreRowAt. rewrite lookup_insert_ne; [reflexivity|].
    intros <-. congruence. }
  rewrite (map_ext_in _ _ _ Hsame).
  change (compareRowsRef localeCompare h)
    with (fun a b => compareRows localeCompare (recordAt h)
                       (scoreRowAt h a) (scoreRowAt h b)).
  rewrite sortBy_map, Hrows.
  apply sortBy_ext. intros a b Ha Hb.
  apply in_map_iff in Ha as (x & <- & Hx), Hb as (y & <- & Hy).
  assert (Hin : forall z, In z xs -> is_Some (h0 !! z)).
  { clear -Hall. intros z Hz. induction Hall as [|x r xs rows [Hx _] _ IH]; [easy|].
    destruct Hz as [<- | Hz]; [exact Hx|now apply IH]. }
  unfold compareRows, scored. cbn [fst snd].
  now rewrite (recordAt_weaken h0 h x Hsub (Hin x Hx)),
              (recordAt_weaken h0 h y Hsub (Hin y Hy)).
Qed.

(** The last [map]: a new array of the items of the rows. *)
Lemma run_items (h : heap) (sorted : loc) (rows : list loc) :
  h0 ⊆ h -> h !! sorted = Some (ObjArray rows) ->
  let res := arrayMap (fun row => bind (readScoreRow row) (fun r => ret (fst r)))
               sorted h in
  h0 !! fst res = None
  /\ snd res !! fst res = Some (ObjArray (map fst (map (scoreRowAt h) rows))).
Proof.
  intros Hsub Hm res. subst res. rewrite arrayMap_run.
  assert (He : elemsAt h sorted = rows) by (unfold elemsAt; now rewrite Hm).
  rewrite He.
  rewrite (forEach_pure _ (fun h row => fst (scoreRowAt h row))) by reflexivity.
  cbn [fst snd]. split.
  - destruct (h0 !! fresh (dom h)) as [o|] eqn:E; [|reflexivity].
    rewrite <- (fresh_none h). symmetry. exact (lookup_weaken _ _ _ _ E Hsub).
  - rewrite lookup_insert_eq, map_map. reflexivity.
Qed.

(** The chain of [filter] after the parse gave the tree [ast]: the
    array returned is new and holds the records the pure [filter]
    lists, in its order. *)
Lemma run_chain (q : string) :
  parseQueryAST (tokenizeQuery (trim q)) = Some ast ->
  let res := filterRef localeCompare items q h0 in
  h0 !! fst res = None
  /\ snd res !! fst res
     = Some (ObjArray (filter localeCompare (recordAt h0) (elemsAt h0 items) q)).
Proof.
  intros Hast res. subst res.
  unfold filter. rewrite filterOutcome_unfold, Hast. unfold ranked.
  unfold filterRef.
  destruct (isEmpty (trim q)) eqn:Eq.
  { apply isEmpty_true in Eq. rewrite Eq in Hast. discriminate. }
  destruct (tokenizeQuery (trim q)) as [|t ts] eqn:Et; [discriminate|].
  rewrite Hast. rewrite bind_run.
  destruct (run_mapped h0 (reflexivity _) eq_refl) as (S1 & N1 & rows & M1 & R1).
  destruct (arrayMap _ items h0) as [mapped h1]. cbn [fst snd] in *.
  rewrite bind_run.
  destruct (run_filtered h1 mapped _ rows M1 R1) as (S2 & rows2 & M2 & R2).
  destruct (arrayFilter _ mapped h1) as [filtered h2]. cbn [fst snd] in *.
  rewrite bind_run.
  change (readElems filtered h2) with (elemsAt h2 filtered, h2). cbn [fst snd].
  assert (He : elemsAt h2 filtered = rows2) by (unfold elemsAt; now rewrite M2).
  rewrite He.
  assert (S02 : h0 ⊆ h2) by (etrans; eassumption).
  destruct rows2 as [|r2 rows2].
  { apply Forall2_nil_inv_r in R2. rewrite R2. unfold alloc. cbn [fst snd map sortBy].
    split; [|apply lookup_insert_eq].
    destruct (h0 !! fresh (dom h2)) as [o|] eqn:E; [|reflexivity].
    rewrite <- (fresh_none h2). symmetry. exact (lookup_weaken _ _ _ _ E S02). }
  rewrite bind_run.
  destruct (run_scored h2 filtered _ (r2 :: rows2) S02 M2 R2)
    as (S3 & N3 & rows3 & M3 & R3).
  destruct (arrayMap _ filtered h2) as [scoredArr h3]. cbn [fst snd] in *.
  assert (S03 : h0 ⊆ h3) by (etrans; eassumption).
  assert (N03 : h0 !! scoredArr = None).
  { destruct (h0 !! scoredArr) as [o|] eqn:E; [|reflexivity].
    rewrite <- N3. symmetry. exact (lookup_weaken _ _ _ _ E S02). }
  rewrite bind_run.
  destruct (run_sorted h3 scoredArr _ rows3 S03 N03 M3 R3)
    as (E4 & S4 & rows4 & M4 & R4).
  destruct (arraySort _ scoredArr h3) as [sorted h4]. cbn [fst snd] in *.
  subst sorted.
  destruct (run_items h4 scoredArr rows4 S4 M4) as [N5 M5].
  destruct (arrayMap _ scoredArr h4) as [out h5]. cbn [fst snd] in *.
  split; [exact N5|]. now rewrite M5, R4.
Qed.

End Run.

End HeapResult.

(* ================================================================== *)
(** * The scenarios of the specification, run on the embedding         *)
(* ================================================================== *)

Section Scenarios.

Let goblin : record :=
  {[ "filename" := JString "goblin.png"; "display_name" := JString "Goblin" ]}.
Let archer : record :=
  {[ "filename" := JString "goblin_archer.png";
     "display_name" := JString "Goblin Archer" ]}.
Let named (file : string) : record := {[ "filename" := JString file ]}.
Let run (items : list record) (query : string) : list string :=
  map (fun item => toStr (prop item "filename"))
    (filter Collation.byCodeUnit id items query).

Example scenario_exact_name_first :
  run [archer; goblin] "goblin" = ["goblin.png"; "goblin_archer.png"].
Proof. vm_compute. reflexivity. Qed.

Example scenario_negated_term : run [goblin; archer] "-archer" = ["goblin.png"].
Proof. vm_compute. reflexivity. Qed.

Example scenario_quoted_part_of_word : run [goblin; archer] "'gob'" = [].
Proof. vm_compute. reflexivity. Qed.

Example scenario_explicit_and :
  run [goblin; archer] "goblin AND archer" = ["goblin_archer.png"].
Proof. vm_compute. reflexivity. Qed.

Example scenario_or_with_tie :
  run [named "orc.png"; named "goblin.png"; named "troll.png"] "goblin OR orc"
  = ["goblin.png"; "orc.png"].
Proof. vm_compute. reflexivity. Qed.

Example scenario_group_then_negation :
  tokenizeQuery "(aa OR bb) -cc"
  = [ LPAREN; TERM (mkTerm "aa" false false); OR; TERM (mkTerm "bb" false false);
      RPAREN; TERM (mkTerm "cc" false true) ]
  /\ parseQueryAST (tokenizeQuery "(aa OR bb) -cc")
     = Some (And (Or (Term (mkTerm "aa" false false))
                     (Term (mkTerm "bb" false false)))
                 (Not (Term (mkTerm "cc" false true)))).
Proof. vm_compute. split; reflexivity. Qed.

End Scenarios.

(* ================================================================== *)
(** * The claims of the specification                                  *)
(* ================================================================== *)

(** C1.  For every record [r] and every query string [q],
    [matches(r, q)] is true exactly when [r] is an element of
    [filter([r], q)]: the single-record predicate and the batch filter
    agree on membership.  [r] is an element of the array, [fieldsOf r]
    the record it refers to, and [In] is what [includes(r)] tests. *)
Theorem C1_matches_agrees_with_filter
    (localeCompare : string -> string -> Z) {Item : Type}
    (fieldsOf : Item -> record) (r : Item) (q : string) :
  matches (fieldsOf r) q = true
  <-> In r (filter localeCompare fieldsOf [r] q).
Proof.
  unfold filter. rewrite filterOutcome_unfold, matches_unfold.
  destruct (parseQueryAST (tokenizeQuery (trim q))) as [ast|].
  - unfold ranked. cbn [List.filter]. unfold kept at 1.
    destruct (evaluateExpression (Some ast) (buildHaystack (fieldsOf r))).
    + cbn. tauto.
    + cbn. split; [discriminate|tauto].
  - cbn. tauto.
Qed.







(** C4.  For every record and every quoted (exact) term, the term
    matches the haystack of the record exactly when its value occurs in
    it bounded on both sides by the string edge or by a unit outside
    [a-z0-9]; an unquoted term matches by plain substring containment.
    In particular ['cat'] does not match the record of "catalog.png"
    and matches the one of "cat.png". *)
Theorem C4_quoted_terms_match_whole_words :
  (forall (item : record) (t : term),
      exact t = true -> value t <> "" ->
      (haystackIncludesTerm (buildHaystack item) t = true
       <-> Spec.occursBounded (buildHaystack item) (value t)))
  /\ (forall (item : record) (t : term),
         exact t = false -> value t <> "" ->
         (haystackIncludesTerm (buildHaystack item) t = true
          <-> Spec.occursIn (buildHaystack item) (value t)))
  /\ tokenizeQuery "'cat'" = [TERM (mkTerm "cat" true false)]
  /\ matches {["filename" := JString "catalog.png"]} "'cat'" = false
  /\ matches {["filename" := JString "cat.png"]} "'cat'" = true.
Proof.
  split; [|split; [|now vm_compute]].
  - intros item t He Hv. unfold haystackIncludesTerm.
    apply isEmpty_false in Hv. rewrite Hv, He. cbn [negb]. apply test_iff.
  - intros item t He Hv. unfold haystackIncludesTerm.
    apply isEmpty_false in Hv. rewrite Hv, He. cbn [negb]. apply includes_iff.
Qed.

(** The quoted term cat on the haystack of "cat.png". *)
Lemma C4_witness :
  haystackIncludesTerm (buildHaystack {["filename" := JString "cat.png"]})
    (mkTerm "cat" true false) = true
  <-> Spec.occursBounded (buildHaystack {["filename" := JString "cat.png"]}) "cat".
Proof.
  apply (proj1 C4_quoted_terms_match_whole_words
           {["filename" := JString "cat.png"]} (mkTerm "cat" true false));
    [reflexivity|discriminate].
Defined.

(** C5.  For every record [r] and every query [t] that is a single
    unquoted term of at least two units (the tokenizer turns [t] into
    the one TERM whose value is [t] lowercased, not exact, not negated),
    [matches(r, "-" + t)] is true exactly when [matches(r, t)] is
    false. *)
Theorem C5_negated_term_inverts_match (r : record) (t : string) :
  (2 <= String.length t)%nat ->
  tokenizeQuery t = [TERM (mkTerm (toLowerCase t) false false)] ->
  (matches r ("-" +:+ t) = true <-> matches r t = false).
Proof.
  intros Hlen Htok.
  pose proof (plain_term_negated t Hlen Htok) as Hneg.
  unfold matches. rewrite Htok, Hneg.
  assert (Hne : isEmpty t = false) by (destruct t; [cbn in Hlen; lia|reflexivity]).
  rewrite Hne. change (isEmpty ("-" +:+ t)) with false.
  change (parseQueryAST [TERM (mkTerm (toLowerCase t) false false)])
    with (Some (Term (mkTerm (toLowerCase t) false false))).
  change (parseQueryAST [TERM (mkTerm (toLowerCase t) false true)])
    with (Some (Not (Term (mkTerm (toLowerCase t) false true)))).
  cbn [evaluateExpression evaluateNode].
  unfold haystackIncludesTerm. cbn [value exact].
  apply negb_true_iff.
Qed.

(** The term archer on the record of "goblin_archer.png". *)
Lemma C5_witness :
  matches {["filename" := JString "goblin_archer.png"]} "-archer" = true
  <-> matches {["filename" := JString "goblin_archer.png"]} "archer" = false.
Proof.
  apply (C5_negated_term_inverts_match
           {["filename" := JString "goblin_archer.png"]} "archer");
    [vm_compute; lia|reflexivity].
Defined.

(** C6.  A lexeme that is and, or, not up to case is emitted as the
    AND, OR, NOT operator when the lexeme is not negated, and as a
    literal TERM with the lowercased keyword as value and
    [negated = true] when it is: "-and" is the term "and", never the
    operator. *)
Theorem C6_keywords_only_when_not_negated :
  (forall (kw tok : string) (trailingParens : nat),
      In kw ["and"; "or"; "not"] -> isKeyword kw tok = true ->
      emitLexeme false tok trailingParens
        = (Spec.operatorOf kw :: rparens trailingParens, false)
      /\ emitLexeme true tok trailingParens
        = (TERM (mkTerm kw false true) :: rparens trailingParens, false))
  /\ tokenizeQuery "and" = [AND]
  /\ tokenizeQuery "-and" = [TERM (mkTerm "and" false true)]
  /\ tokenizeQuery "a -AND b" =
       [ TERM (mkTerm "a" false false); TERM (mkTerm "and" false true);
         TERM (mkTerm "b" false false) ]
  /\ tokenizeQuery "- or" = [TERM (mkTerm "or" false true)]
  /\ tokenizeQuery "--Not" = [TERM (mkTerm "not" false true)].
Proof.
  split; [|now vm_compute].
  intros kw tok n Hkw Hk. unfold isKeyword in Hk. apply String.eqb_eq in Hk.
  assert (Hq1 : isQuotedBy "'" tok = false).
  { apply (keyword_not_quoted _ kw); [reflexivity|exact Hk|].
    destruct Hkw as [<-|[<-|[<-|[]]]]; discriminate. }
  assert (Hq2 : isQuotedBy Lexer.dquote tok = false).
  { apply (keyword_not_quoted _ kw); [reflexivity|exact Hk|].
    destruct Hkw as [<-|[<-|[<-|[]]]]; discriminate. }
  unfold emitLexeme, isKeyword. rewrite Hq1, Hq2, Hk.
  destruct Hkw as [<-|[<-|[<-|[]]]]; split; reflexivity.
Qed.

(** The lexeme AnD, not negated and negated. *)
Lemma C6_witness :
  emitLexeme false "AnD" 0 = ([AND], false)
  /\ emitLexeme true "AnD" 0 = ([TERM (mkTerm "and" false true)], false).
Proof.
  apply (proj1 C6_keywords_only_when_not_negated "and" "AnD" 0%nat);
    [left; reflexivity|reflexivity].
Defined.

(** C7.  The haystack of a record is the lowercased space-join of
    display_name, filename, path, ['s' + scale + 'x'],
    [grid_width + 'x' + grid_height], size, creature_type, variant,
    source, tier, color_variant and tags, in this order
    ([Spec.haystack]).  With scale undefined it contains "sundefinedx",
    with both grid fields undefined "undefinedxundefined"; so
    [matches({}, "sundefinedx")] is true. *)
Theorem C7_haystack_layout :
  (forall item : record, buildHaystack item = Spec.haystack item)
  /\ (forall item : record,
         prop item "scale" = JUndefined ->
         includes (buildHaystack item) "sundefinedx" = true)
  /\ (forall item : record,
         prop item "grid_width" = JUndefined ->
         prop item "grid_height" = JUndefined ->
         includes (buildHaystack item) "undefinedxundefined" = true)
  /\ buildHaystack ∅ = "   sundefinedx undefinedxundefined       "
  /\ matches ∅ "sundefinedx" = true.
Proof.
  split; [exact buildHaystack_eq|split; [|split; [|now vm_compute]]].
  - intros item Hs. rewrite buildHaystack_eq. unfold Spec.haystack.
    rewrite Hs, !toLowerCase_app.
    do 6 apply includes_app_r. now apply includes_app_l.
  - intros item Hw Hh. rewrite buildHaystack_eq. unfold Spec.haystack.
    rewrite Hw, Hh, !toLowerCase_app.
    do 8 apply includes_app_r. now apply includes_app_l.
Qed.

(** A record with a file name and no scale. *)
Lemma C7_witness :
  includes (buildHaystack {["filename" := JString "orc.png"]}) "sundefinedx" = true.
Proof.
  apply (proj1 (proj2 C7_haystack_layout) {["filename" := JString "orc.png"]}).
  reflexivity.
Defined.

(** C8.  For every record list and every query [q],
    [filter(filter(records, q), q)] is [filter(records, q)]: the same
    records in the same order.  [localeCompare] is a consistent
    comparator, as [sort] asks of the function it is given. *)
Theorem C8_filter_idempotent
    (localeCompare : string -> string -> Z)
    (consistent : Collation.Consistent localeCompare)
    {Item : Type} (fieldsOf : Item -> record) (items : list Item) (q : string) :
  filter localeCompare fieldsOf (filter localeCompare fieldsOf items q) q
  = filter localeCompare fieldsOf items q.
Proof.
  unfold filter. rewrite !filterOutcome_unfold.
  destruct (parseQueryAST (tokenizeQuery (trim q))) as [ast|]; [|reflexivity].
  now rewrite ranked_again.
Qed.

(** Filtering three records for goblin OR orc, twice. *)
Lemma C8_witness :
  let items : list record :=
    [ {["filename" := JString "orc.png"]};
      {["filename" := JString "goblin.png"]};
      {["filename" := JString "troll.png"]} ] in
  filter Collation.byCodeUnit id (filter Collation.byCodeUnit id items "goblin OR orc")
    "goblin OR orc"
  = filter Collation.byCodeUnit id items "goblin OR orc".
Proof.
  intros items.
  exact (C8_filter_idempotent Collation.byCodeUnit byCodeUnit_consistent id items
           "goblin OR orc").
Defined.

(** C9.  [filter] and [matches] never mutate an input record: every
    object that the heap holds before a call of [filter], each record
    with every field of it and each array, it holds unchanged after the
    call, which allocates its rows and arrays and overwrites, in
    [sort], an array of its own; a call of [matches] returns what
    [matches] gives on the record at [item] and leaves the heap as it
    was; and when the trimmed query is empty [filter]
    returns the reference [items] it was given and leaves the heap as
    it is. *)
Theorem C9_records_not_mutated
    (localeCompare : string -> string -> Z) (h : heap) (items item : loc)
    (q : string) :
  (forall (l : loc) (o : object),
      h !! l = Some o -> snd (filterRef localeCompare items q h) !! l = Some o)
  /\ matchesRef item q h = (matches (recordAt h item) q, h)
  /\ (isEmpty (trim q) = true -> filterRef localeCompare items q h = (items, h)).
Proof.
  split; [|split].
  - intros l o Hl.
    exact (lookup_weaken _ _ _ _ Hl (filterRef_frame localeCompare items q h)).
  - pose proof (matchesRef_value item q h) as Hv.
    pose proof (matchesRef_heap item q h) as Hh.
    destruct (matchesRef item q h) as [b h']. cbn [fst snd] in Hv, Hh.
    now rewrite Hv, Hh.
  - intros Hq. unfold filterRef. cbv zeta. now rewrite Hq.
Qed.

(** A heap with two records and the array that holds them.  After
    filtering for orc, which builds rows and arrays and sorts, the
    record of the orc is as it was; after matching, the heap is; and a
    blank query gives the array back. *)
Lemma C9_witness :
  let orc : object := ObjRecord {["filename" := JString "orc.png"]} in
  let h : heap :=
    {[ 1%positive := orc;
       2%positive := ObjRecord {["filename" := JString "goblin.png"]};
       3%positive := ObjArray [1%positive; 2%positive] ]} in
  snd (filterRef Collation.byCodeUnit 3%positive "orc" h) !! 1%positive
  = Some orc
  /\ matchesRef 1%positive "orc" h
     = (matches (recordAt h 1%positive) "orc", h)
  /\ filterRef Collation.byCodeUnit 3%positive "  " h = (3%positive, h).
Proof.
  intros orc h.
  split; [|split].
  - apply (proj1 (C9_records_not_mutated Collation.byCodeUnit h
                    3%positive 1%positive "orc")).
    reflexivity.
  - apply (proj1 (proj2 (C9_records_not_mutated Collation.byCodeUnit h
                           3%positive 1%positive "orc"))).
  - apply (proj2 (proj2 (C9_records_not_mutated Collation.byCodeUnit h
                           3%positive 1%positive "  "))).
    reflexivity.
Defined.

(** C10.  For a positive term the scorer looks at the first
    occurrence only.  [indexOf] is the lowest index at which the value
    occurs; when that occurrence has no word boundary, the contribution
    of nameRoot, displayName or path is the one of the tier without
    boundary (500 mid-string and 900 as a prefix for nameRoot, 280 and
    450 for displayName, 120 for path, nothing for an exact term),
    whatever occurs later in the field.  For "cat" in "scat cat" the
    first occurrence is at 1, without boundary, a later one at 5 has
    both boundaries, and the contribution is 500. *)
Theorem C10_scorer_uses_first_occurrence :
  (forall (s v : string) (i : nat),
      indexOf s v = Z.of_nat i ->
      Spec.occursAt s v i /\ forall j, (j < i)%nat -> ~ Spec.occursAt s v j)
  /\ (forall (nameRoot displayName path tags : string) (t : term),
         value t <> "" -> nameRoot <> value t -> displayName <> value t ->
         indexOf nameRoot (value t) <> -1 ->
         hasWordBoundary nameRoot (indexOf nameRoot (value t))
           (Z.of_nat (String.length (value t))) = false ->
         termScore nameRoot displayName path tags t =
           if exact t then 0
           else if indexOf nameRoot (value t) =? 0 then 900 else 500)
  /\ (forall (nameRoot displayName path tags : string) (t : term),
         value t <> "" -> nameRoot <> value t -> displayName <> value t ->
         indexOf nameRoot (value t) = -1 ->
         indexOf displayName (value t) <> -1 ->
         hasWordBoundary displayName (indexOf displayName (value t))
           (Z.of_nat (String.length (value t))) = false ->
         termScore nameRoot displayName path tags t =
           if exact t then 0
           else if indexOf displayName (value t) =? 0 then 450 else 280)
  /\ (forall (nameRoot displayName path tags : string) (t : term),
         value t <> "" -> nameRoot <> value t -> displayName <> value t ->
         indexOf nameRoot (value t) = -1 ->
         indexOf displayName (value t) = -1 ->
         negb (isEmpty tags) && haystackIncludesTerm tags t = false ->
         indexOf path (value t) <> -1 ->
         hasWordBoundary path (indexOf path (value t))
           (Z.of_nat (String.length (value t))) = false ->
         termScore nameRoot displayName path tags t =
           if exact t then 0 else 120)
  /\ (indexOf "scat cat" "cat" = 1
      /\ hasWordBoundary "scat cat" 1 3 = false
      /\ Spec.occursAt "scat cat" "cat" 5
      /\ hasWordBoundary "scat cat" 5 3 = true
      /\ termScore "scat cat" "" "" "" (mkTerm "cat" false false) = 500
      /\ scoreMatch {["filename" := JString "scat cat.png"]}
           (parseQueryAST (tokenizeQuery "cat")) = 500).
Proof.
  split; [exact indexOf_lowest|].
  assert (Hnext : forall s len,
             hasWordBoundary s 0 len = false ->
             isEmpty (charAt s len) || testWordBoundary (charAt s len) = false).
  { intros s len H. unfold hasWordBoundary in H. cbn in H.
    now rewrite Z.add_0_l in H. }
  split; [|split; [|split]].
  - intros nameRoot displayName path tags t Hv Hn Hd Hi Hb.
    unfold termScore.
    apply isEmpty_false in Hv. apply String.eqb_neq in Hn, Hd.
    rewrite Hv, Hn, Hd, Hb.
    destruct (Z.eqb_spec (indexOf nameRoot (value t)) (-1)) as [|_]; [contradiction|].
    cbn [negb].
    destruct (Z.eqb_spec (indexOf nameRoot (value t)) 0) as [E0|_].
    + rewrite E0 in Hb. rewrite (Hnext _ _ Hb). now destruct (exact t).
    + now destruct (exact t).
  - intros nameRoot displayName path tags t Hv Hn Hd Hni Hi Hb.
    unfold termScore.
    apply isEmpty_false in Hv. apply String.eqb_neq in Hn, Hd.
    rewrite Hv, Hn, Hd, Hni, Hb. cbn [Z.eqb negb].
    destruct (Z.eqb_spec (indexOf displayName (value t)) (-1)) as [|_];
      [contradiction|].
    cbn [negb].
    destruct (Z.eqb_spec (indexOf displayName (value t)) 0) as [E0|_].
    + rewrite E0 in Hb. rewrite (Hnext _ _ Hb). now destruct (exact t).
    + now destruct (exact t).
  - intros nameRoot displayName path tags t Hv Hn Hd Hni Hdi Ht Hi Hb.
    unfold termScore.
    apply isEmpty_false in Hv. apply String.eqb_neq in Hn, Hd.
    rewrite Hv, Hn, Hd, Hni, Hdi, Ht, Hb. cbn [Z.eqb negb].
    destruct (Z.eqb_spec (indexOf path (value t)) (-1)) as [|_]; [contradiction|].
    cbn [negb orb].
    destruct (isEmpty path) eqn:Ep.
    + apply isEmpty_true in Ep. subst path. exfalso. apply Hi.
      unfold indexOf. destruct (value t); [discriminate|reflexivity].
    + now destruct (exact t).
  - repeat split; try (vm_compute; reflexivity).
    exists "scat ", "". split; reflexivity.
Qed.

(** The term cat in the name root "scat cat". *)
Lemma C10_witness :
  termScore "scat cat" "" "" "" (mkTerm "cat" false false) = 500.
Proof.
  apply (proj1 (proj2 C10_scorer_uses_first_occurrence)
           "scat cat" "" "" "" (mkTerm "cat" false false));
    try discriminate; reflexivity.
Defined.

(* ================================================================== *)
(** * Further properties of the code                                   *)
(* ================================================================== *)

(** ** filter and matches on any list *)

Lemma filter_perm_matching
    (localeCompare : string -> string -> Z) {Item : Type}
    (fieldsOf : Item -> record) (items : list Item) (q : string) :
  Permutation (filter localeCompare fieldsOf items q)
    (List.filter (fun item => matches (fieldsOf item) q) items).
Proof.
  unfold filter. rewrite filterOutcome_unfold.
  destruct (parseQueryAST (tokenizeQuery (trim q))) as [ast|] eqn:E.
  - unfold ranked. rewrite sortBy_perm, map_map. cbn [scored fst].
    rewrite map_id.
    rewrite (filter_ext (fun item => matches (fieldsOf item) q)
               (kept fieldsOf ast)); [reflexivity|].
    intros item. rewrite matches_unfold, E. reflexivity.
  - rewrite (filter_ext (fun item => matches (fieldsOf item) q) (fun _ => true)).
    + induction items as [|x l IH]; [reflexivity|]. cbn. now constructor.
    + intros item. now rewrite matches_unfold, E.
Qed.

(** X1.  For every list of items and every query, [filter] returns a
    rearrangement of exactly the items that [matches] accepts, each as
    often as it occurs in the list.  An item is in the result exactly
    when it is in the list and [matches] holds of its record; the
    result is never longer than the list, and the empty list gives the
    empty list. *)
Theorem X1_filter_keeps_exactly_what_matches_accepts
    (localeCompare : string -> string -> Z) {Item : Type}
    (fieldsOf : Item -> record) (items : list Item) (q : string) :
  Permutation (filter localeCompare fieldsOf items q)
    (List.filter (fun item => matches (fieldsOf item) q) items)
  /\ (forall r : Item,
         In r (filter localeCompare fieldsOf items q)
         <-> In r items /\ matches (fieldsOf r) q = true)
  /\ (List.length (filter localeCompare fieldsOf items q)
      <= List.length items)%nat
  /\ filter localeCompare fieldsOf [] q = [].
Proof.
  pose proof (filter_perm_matching localeCompare fieldsOf items q) as Hperm.
  split; [exact Hperm|split; [|split]].
  - intros r.
    pose proof (filter_In (fun item => matches (fieldsOf item) q) r items) as Hin.
    cbn beta in Hin. rewrite <- Hin.
    split; apply Permutation_in; [exact Hperm|symmetry; exact Hperm].
  - rewrite (Permutation_length Hperm). apply filter_length_le.
  - apply Permutation_nil. symmetry.
    exact (filter_perm_matching localeCompare fieldsOf [] q).
Qed.

(** X2.  Whitespace around a query is ignored: the tokens, [matches]
    and [filter] are the same for [q] and for [trim q].  A query that
    is blank after trimming has no tokens, is matched by every record
    and makes [filter] return the list it was given. *)
Theorem X2_query_whitespace_is_ignored
    (localeCompare : string -> string -> Z) {Item : Type}
    (fieldsOf : Item -> record) (items : list Item) (item : record) (q : string) :
  tokenizeQuery (trim q) = tokenizeQuery q
  /\ matches item (trim q) = matches item q
  /\ filter localeCompare fieldsOf items (trim q)
     = filter localeCompare fieldsOf items q
  /\ (isEmpty (trim q) = true ->
      tokenizeQuery q = [] /\ matches item q = true
      /\ filter localeCompare fieldsOf items q = items).
Proof.
  split; [apply tokenizeQuery_trim|split; [|split]].
  - now rewrite !matches_unfold, !tokenizeQuery_trim.
  - unfold filter. now rewrite !filterOutcome_unfold, !tokenizeQuery_trim.
  - intros H. apply isEmpty_true in H.
    assert (Ht : tokenizeQuery q = []) by now rewrite <- tokenizeQuery_trim, H.
    split; [exact Ht|split].
    + now rewrite matches_unfold, tokenizeQuery_trim, Ht.
    + unfold filter. now rewrite filterOutcome_unfold, tokenizeQuery_trim, Ht.
Qed.

Lemma X2_witness :
  tokenizeQuery "   " = [] /\ matches ∅ "   " = true
  /\ filter Collation.byCodeUnit id [(∅ : record)] "   " = [∅].
Proof.
  apply (proj2 (proj2 (proj2
           (X2_query_whitespace_is_ignored Collation.byCodeUnit id [∅] ∅ "   ")))).
  reflexivity.
Defined.

(** X3.  For an array whose elements are objects of the heap, [filter]
    returns either the array it was given, leaving the heap as it was
    (exactly when the query parses to the null tree), or a reference
    that held nothing before the call, to an array that holds the
    records the list function [filter] gives for the elements of the
    array given, in its order: the rows and arrays that [map],
    [filter] and [sort] build and overwrite on the way leave in it what
    the chain of lists computes.  What the heap held, it holds. *)
Theorem X3_filter_returns_its_argument_or_a_fresh_array
    (localeCompare : string -> string -> Z) (h : heap) (items : loc)
    (q : string)
    (closed : Forall (fun x => is_Some (h !! x)) (elemsAt h items)) :
  (parseQueryAST (tokenizeQuery (trim q)) = None
   /\ filterRef localeCompare items q h = (items, h))
  \/ (parseQueryAST (tokenizeQuery (trim q)) <> None
      /\ h !! fst (filterRef localeCompare items q h) = None
      /\ snd (filterRef localeCompare items q h)
           !! fst (filterRef localeCompare items q h)
         = Some (ObjArray
                   (filter localeCompare (recordAt h) (elemsAt h items) q))
      /\ h ⊆ snd (filterRef localeCompare items q h)).
Proof.
  destruct (parseQueryAST (tokenizeQuery (trim q))) as [ast|] eqn:Hast;
    [right|left].
  - split; [discriminate|].
    destruct (run_chain localeCompare h items ast closed q Hast) as [Hnew Hres].
    split; [exact Hnew|]. split; [exact Hres|]. apply filterRef_frame.
  - split; [reflexivity|]. unfold filterRef. cbv zeta.
    destruct (isEmpty (trim q)); [reflexivity|].
    destruct (tokenizeQuery (trim q)); [reflexivity|]. now rewrite Hast.
Qed.

Lemma X3_witness :
  let h : heap :=
    {[ 1%positive := ObjRecord {["filename" := JString "orc.png"]};
       2%positive := ObjRecord {["filename" := JString "goblin.png"]};
       3%positive := ObjArray [1%positive; 2%positive] ]} in
  h ⊆ snd (filterRef Collation.byCodeUnit 3%positive "orc" h).
Proof.
  intros h.
  assert (closed : Forall (fun x => is_Some (h !! x)) (elemsAt h 3%positive)).
  { change (elemsAt h 3%positive) with [1%positive; 2%positive].
    repeat constructor; eexists; reflexivity. }
  destruct (X3_filter_returns_its_argument_or_a_fresh_array
              Collation.byCodeUnit h 3%positive "orc" closed)
    as [[_ ->] | (_ & _ & _ & H)]; [reflexivity|exact H].
Defined.

(** ** The scorer *)

Lemma termScore_range (nameRoot displayName path tags : string) (t : term) :
  0 <= termScore nameRoot displayName path tags t <= 2000.
Proof.
  unfold termScore.
  repeat match goal with
         | |- context [if ?b then _ else _] => destruct b
         end; lia.
Qed.

Lemma termScore_max (nameRoot displayName path tags : string) (t : term) :
  termScore nameRoot displayName path tags t = 2000
  <-> value t <> "" /\ nameRoot = value t.
Proof.
  unfold termScore.
  destruct (isEmpty (value t)) eqn:Ee.
  { apply isEmpty_true in Ee. split; [lia|]. intros [H _]. congruence. }
  apply isEmpty_false in Ee.
  destruct (String.eqb_spec nameRoot (value t)) as [En|En].
  { split; [now intros _|reflexivity]. }
  split; [|intros [_ H]; congruence].
  repeat match goal with
         | |- context [if ?b then _ else _] => destruct b
         end; lia.
Qed.

Lemma fold_left_score (f : term -> Z) (terms : list term) (acc : Z) :
  fold_left (fun score t => score + f t) terms acc
  = acc + fold_right (fun t s => f t + s) 0 terms.
Proof.
  revert acc. induction terms as [|t l IH]; intros acc; cbn; [lia|].
  rewrite IH. lia.
Qed.

Lemma scoreMatch_sum (item : record) (ast : option node) :
  exists f : term -> Z,
    (forall t, 0 <= f t <= 2000)
    /\ forall ast', scoreMatch item ast'
                    = fold_right (fun t s => f t + s) 0 (positiveTerms ast').
Proof.
  eexists. split; [|intros ast'; unfold scoreMatch; rewrite fold_left_score;
                    rewrite Z.add_0_l; reflexivity].
  intros t. apply termScore_range.
Qed.

Lemma sum_app (f : term -> Z) (a b : list term) :
  fold_right (fun t s => f t + s) 0 (a ++ b)
  = fold_right (fun t s => f t + s) 0 a + fold_right (fun t s => f t + s) 0 b.
Proof. induction a as [|t a IH]; cbn; [lia|]. rewrite IH. lia. Qed.

Lemma sum_range (f : term -> Z) (l : list term) :
  (forall t, 0 <= f t <= 2000) ->
  0 <= fold_right (fun t s => f t + s) 0 l <= 2000 * Z.of_nat (List.length l).
Proof.
  intros Hf. induction l as [|t l IH]; cbn [fold_right List.length]; [lia|].
  specialize (Hf t). lia.
Qed.

(** X4.  The score of a record is never negative and is at most 2000
    for each positive term of the tree.  A tree that is one term scores
    2000 exactly when the value of the term is not empty and equals
    the lowercased file name without its extension. *)
Theorem X4_score_bounds (item : record) (ast : option node) :
  0 <= scoreMatch item ast
       <= 2000 * Z.of_nat (List.length (positiveTerms ast))
  /\ (forall t : term,
        scoreMatch item (Some (Term t)) = 2000
        <-> value t <> ""
            /\ stripExtension
                 (toLowerCase (toStr (jsOr (prop item "filename") (JString ""))))
               = value t).
Proof.
  split.
  - destruct (scoreMatch_sum item ast) as (f & Hf & Hs).
    rewrite Hs. now apply sum_range.
  - intros t. unfold scoreMatch. cbv zeta.
    cbn [collectPositiveTerms negb fold_left]. rewrite Z.add_0_l.
    apply termScore_max.
Qed.

(** X5.  The score is additive over the tree: an AND and an OR both
    score the sum of their operands, a double negation scores as its
    operand, a negated term scores nothing, and the null tree scores
    0. *)
Theorem X5_score_is_additive (item : record) (l r n : node) :
  scoreMatch item (Some (And l r))
  = scoreMatch item (Some l) + scoreMatch item (Some r)
  /\ scoreMatch item (Some (Or l r)) = scoreMatch item (Some (And l r))
  /\ scoreMatch item (Some (Not (Not n))) = scoreMatch item (Some n)
  /\ (forall t : term, scoreMatch item (Some (Not (Term t))) = 0)
  /\ scoreMatch item None = 0.
Proof.
  destruct (scoreMatch_sum item None) as (f & Hf & Hs).
  rewrite !Hs. cbn [positiveTerms collectPositiveTerms negb].
  rewrite sum_app. repeat split; reflexivity.
Qed.

Lemma lacksChar_app (a b : string) (c : ascii) :
  lacksChar (a +:+ b) c = lacksChar a c && lacksChar b c.
Proof.
  induction a as [|x a IH]; [reflexivity|].
  change (String x a +:+ b) with (String x (a +:+ b)).
  cbn [lacksChar]. rewrite IH. now rewrite andb_assoc.
Qed.

(** X6.  [stripExtension], the replacement that [scoreMatch] applies
    to the file name, removes the last dot and what follows it when
    something follows it: a name [base.ext] with a non-empty dotless
    [ext] becomes [base], whatever dots [base] has; a name without a
    dot and a name that ends in a dot are unchanged. *)
Theorem X6_stripExtension_cases :
  (forall base ext : string,
      ext <> "" -> lacksChar ext "." = true ->
      stripExtension (base +:+ "." +:+ ext) = base)
  /\ (forall s : string, lacksChar s "." = true -> stripExtension s = s)
  /\ (forall s : string, stripExtension (s +:+ ".") = s +:+ ".").
Proof.
  split; [|split].
  - intros base ext Hne Hl. induction base as [|c b IH].
    + change ("" +:+ "." +:+ ext) with (String "." ext).
      cbn [stripExtension]. rewrite Hl.
      apply isEmpty_false in Hne. now rewrite Hne.
    + change (String c b +:+ "." +:+ ext) with (String c (b +:+ "." +:+ ext)).
      cbn [stripExtension]. rewrite lacksChar_app.
      change (lacksChar ("." +:+ ext) ".") with false.
      rewrite andb_false_r, andb_false_r. cbn [andb]. now rewrite IH.
  - intros s. induction s as [|c s IH]; [reflexivity|].
    cbn [lacksChar stripExtension]. intros H.
    apply andb_true_iff in H as [Hc Hs]. apply negb_true_iff in Hc.
    rewrite Hc. cbn [andb]. now rewrite IH.
  - intros s. induction s as [|c s IH]; [reflexivity|].
    change (String c s +:+ ".") with (String c (s +:+ ".")).
    cbn [stripExtension]. rewrite lacksChar_app.
    change (lacksChar "." ".") with false.
    rewrite andb_false_r, andb_false_r. cbn [andb]. now rewrite IH.
Qed.

Lemma X6_witness : stripExtension ("goblin.v2" +:+ "." +:+ "png") = "goblin.v2".
Proof.
  apply (proj1 X6_stripExtension_cases "goblin.v2" "png");
    [discriminate|reflexivity].
Defined.

(** ** What the tokenizer emits *)

Lemma emitLexeme_term_shape (neg : bool) (tok : string) (n : nat) (T : term) :
  tok <> "" ->
  In (TERM T) (fst (emitLexeme neg tok n)) ->
  value T <> ""
  /\ (negated T = true -> (2 <= String.length (value T))%nat)
  /\ snd (emitLexeme neg tok n) = false
  /\ exists s, value T = toLowerCase s.
Proof.
  intros Hne. unfold emitLexeme.
  destruct (isQuotedBy "'" tok || isQuotedBy Lexer.dquote tok).
  - destruct (isEmpty (toLowerCase (trim (dropLast (dropFirst tok))))) eqn:Ei;
      cbn [negb].
    + destruct neg; cbn [fst]; intros H; now apply rparens_no_term in H.
    + destruct (neg && (String.length
                          (toLowerCase (trim (dropLast (dropFirst tok)))) <? 2)%nat)
        eqn:Ed; cbn [negb fst snd]; intros H.
      * now apply rparens_no_term in H.
      * destruct H as [H|H]; [|now apply rparens_no_term in H].
        injection H as <-. cbn [value negated].
        split; [now apply isEmpty_false|].
        split; [|split; [reflexivity|eauto]].
        intros ->. cbn [andb] in Ed. apply Nat.ltb_ge in Ed. exact Ed.
  - destruct (negb neg && isKeyword "and" tok);
      [cbn [fst]; intros [H|H]; [discriminate|now apply rparens_no_term in H]|].
    destruct (negb neg && isKeyword "or" tok);
      [cbn [fst]; intros [H|H]; [discriminate|now apply rparens_no_term in H]|].
    destruct (negb neg && isKeyword "not" tok);
      [cbn [fst]; intros [H|H]; [discriminate|now apply rparens_no_term in H]|].
    destruct (neg && (String.length (toLowerCase tok) <? 2)%nat) eqn:Ed;
      cbn [fst snd]; intros H.
    + now apply rparens_no_term in H.
    + destruct H as [H|H]; [|now apply rparens_no_term in H].
      injection H as <-. cbn [value negated].
      split.
      { destruct tok; [congruence|discriminate]. }
      split; [|split; [reflexivity|eauto]].
      intros ->. cbn [andb] in Ed. apply Nat.ltb_ge in Ed. exact Ed.
Qed.

Lemma tokenizeStep_term_shape (p : bool) (lex : string) (T : term) :
  In (TERM T) (fst (tokenizeStep p lex)) ->
  value T <> ""
  /\ (negated T = true -> (2 <= String.length (value T))%nat)
  /\ snd (tokenizeStep p lex) = false
  /\ exists s, value T = toLowerCase s.
Proof.
  unfold tokenizeStep.
  destruct (isEmpty (trim lex)); [intros []|].
  destruct (String.eqb (trim lex) "-"); [intros []|].
  destruct (stripDashes p (trim lex)) as [neg1 tok1].
  destruct (isEmpty tok1); [intros []|].
  destruct (peelParens_spec neg1 tok1) as (Ho & _ & _).
  destruct (peelParens neg1 tok1) as [[opened neg2] tok2]. cbn [fst snd] in *.
  destruct (stripTrailingParens tok2) as [n tok3].
  destruct (isEmpty tok3) eqn:E3.
  - cbn [fst]. intros H. apply in_app_or in H as [H|H].
    + now apply openers_no_term in H.
    + now apply rparens_no_term in H.
  - apply isEmpty_false in E3.
    pose proof (emitLexeme_term_shape neg2 tok3 n T E3) as He.
    destruct (emitLexeme neg2 tok3 n) as [out pend]. cbn [fst snd] in *.
    intros H. apply in_app_or in H as [H|H]; [now apply openers_no_term in H|].
    exact (He H).
Qed.

Lemma toLowerChar_idem (c : ascii) : toLowerChar (toLowerChar c) = toLowerChar c.
Proof. destruct c as [[] [] [] [] [] [] [] []]; reflexivity. Qed.

Lemma toLowerCase_idem (s : string) : toLowerCase (toLowerCase s) = toLowerCase s.
Proof.
  induction s as [|c s IH]; [reflexivity|].
  cbn [toLowerCase]. now rewrite toLowerChar_idem, IH.
Qed.

Lemma tokenizeQuery_term_usable (q : string) (t : term) :
  In (TERM t) (tokenizeQuery q) ->
  value t <> ""
  /\ toLowerCase (value t) = value t
  /\ (negated t = true -> (2 <= String.length (value t))%nat).
Proof.
  intros H. apply tokenizeLoop_term in H as (lex & p & _ & H).
  apply tokenizeStep_term_shape in H as (Hne & Hneg & _ & s & Hs).
  split; [exact Hne|split; [|exact Hneg]].
  rewrite Hs. apply toLowerCase_idem.
Qed.

(** X7.  Every TERM token that [tokenizeQuery] emits is usable: its
    value is not empty, is already lowercase, and has two units or
    more when the token is negated. *)
Theorem X7_tokens_carry_usable_terms (q : string) (t : term) :
  In (TERM t) (tokenizeQuery q) ->
  value t <> ""
  /\ toLowerCase (value t) = value t
  /\ (negated t = true -> (2 <= String.length (value t))%nat).
Proof.
  intros H. apply tokenizeLoop_term in H as (lex & p & _ & H).
  apply tokenizeStep_term_shape in H as (Hne & Hneg & _ & s & Hs).
  split; [exact Hne|split; [|exact Hneg]].
  rewrite Hs. apply toLowerCase_idem.
Qed.

Lemma X7_witness :
  value (mkTerm "orc" true true) <> ""
  /\ toLowerCase (value (mkTerm "orc" true true)) = value (mkTerm "orc" true true)
  /\ (negated (mkTerm "orc" true true) = true ->
      (2 <= String.length (value (mkTerm "orc" true true)))%nat).
Proof.
  apply (X7_tokens_carry_usable_terms "(a -'Orc')" (mkTerm "orc" true true)).
  vm_compute. tauto.
Defined.

(** ** Letter case *)

Section CaseFacts.
Import Lexer.

Lemma lower_ws (c : ascii) : isWhiteSpace (toLowerChar c) = isWhiteSpace c.
Proof. destruct c as [[] [] [] [] [] [] [] []]; reflexivity. Qed.

Lemma lower_mark (c q : ascii) :
  isMark q -> Ascii.eqb (toLowerChar c) q = Ascii.eqb c q.
Proof.
  intros [-> | [-> | [-> | [-> | ->]]]];
    destruct c as [[] [] [] [] [] [] [] []]; reflexivity.
Qed.

Lemma lower_word (c : ascii) : isWordChar (toLowerChar c) = isWordChar c.
Proof.
  unfold isWordChar. rewrite lower_ws, !lower_mark; [reflexivity|..];
    unfold isMark; tauto.
Qed.

Lemma lower_isEmpty (s : string) : isEmpty (toLowerCase s) = isEmpty s.
Proof. now destruct s. Qed.

Lemma lower_wordRun (s : string) : wordRun (toLowerCase s) = toLowerCase (wordRun s).
Proof.
  induction s as [|c s IH]; [reflexivity|].
  cbn [toLowerCase wordRun]. rewrite lower_word.
  destruct (isWordChar c); [|reflexivity]. cbn [toLowerCase]. now rewrite IH.
Qed.

Lemma lower_upToQuote (q : ascii) (s : string) :
  isMark q ->
  upToQuote q (toLowerCase s) = option_map toLowerCase (upToQuote q s).
Proof.
  intros Hq. induction s as [|c s IH]; [reflexivity|].
  cbn [toLowerCase upToQuote]. rewrite (lower_mark c q Hq).
  destruct (Ascii.eqb c q); [reflexivity|].
  rewrite IH. now destruct (upToQuote q s).
Qed.

Lemma lower_matchAt (s : string) :
  matchAt (toLowerCase s) = option_map toLowerCase (matchAt s).
Proof.
  destruct s as [|c s]; [reflexivity|].
  unfold matchAt, orElse, altChar, altQuoted, altWord.
  rewrite lower_wordRun.
  cbn [toLowerCase].
  rewrite !lower_mark, !lower_upToQuote by (unfold isMark; tauto).
  destruct (Ascii.eqb c "("); [reflexivity|].
  destruct (Ascii.eqb c ")"); [reflexivity|].
  destruct (Ascii.eqb c "'").
  { destruct (upToQuote "'" s) as [inner|]; cbn [option_map].
    - cbn [toLowerCase]. now rewrite toLowerCase_app.
    - destruct (Ascii.eqb c dquote).
      + destruct (upToQuote dquote s) as [inner|]; cbn [option_map].
        * cbn [toLowerCase]. now rewrite toLowerCase_app.
        * now destruct (wordRun (String c s)).
      + now destruct (wordRun (String c s)). }
  destruct (Ascii.eqb c dquote).
  { destruct (upToQuote dquote s) as [inner|]; cbn [option_map].
    - cbn [toLowerCase]. now rewrite toLowerCase_app.
    - now destruct (wordRun (String c s)). }
  now destruct (wordRun (String c s)).
Qed.

Lemma lower_matchFrom (s : string) :
  forall k, matchFrom k (toLowerCase s) = map toLowerCase (matchFrom k s).
Proof.
  induction s as [|c s IH]; intros k; [reflexivity|].
  pose proof (lower_matchAt (String c s)) as Hat.
  cbn [toLowerCase] in *. destruct k; cbn [matchFrom]; [|apply IH].
  rewrite Hat. destruct (matchAt (String c s)) as [lex|]; cbn [option_map map].
  - now rewrite toLowerCase_length, IH.
  - apply IH.
Qed.

Lemma lower_trimStart (s : string) :
  trimStart (toLowerCase s) = toLowerCase (trimStart s).
Proof.
  induction s as [|c s IH]; [reflexivity|].
  cbn [toLowerCase trimStart]. rewrite lower_ws.
  now destruct (isWhiteSpace c).
Qed.

Lemma lower_trimEnd (s : string) :
  trimEnd (toLowerCase s) = toLowerCase (trimEnd s).
Proof.
  induction s as [|c s IH]; [reflexivity|].
  cbn [toLowerCase]. rewrite !trimEnd_cons, IH, lower_isEmpty, lower_ws.
  now destruct (isEmpty (trimEnd s) && isWhiteSpace c).
Qed.

Lemma lower_trim (s : string) : trim (toLowerCase s) = toLowerCase (trim s).
Proof. unfold trim. now rewrite lower_trimStart, lower_trimEnd. Qed.

Lemma stripDashes_other (p : bool) (c : ascii) (s : string) :
  Ascii.eqb c "-" = false -> stripDashes p (String c s) = (p, String c s).
Proof.
  intros H. destruct c as [[] [] [] [] [] [] [] []]; try reflexivity.
  discriminate.
Qed.

Lemma lower_stripDashes (p : bool) (s : string) :
  stripDashes p (toLowerCase s)
  = (fst (stripDashes p s), toLowerCase (snd (stripDashes p s))).
Proof.
  revert p. induction s as [|c s IH]; intros p; [reflexivity|].
  cbn [toLowerCase].
  destruct (Ascii.eqb c "-") eqn:E.
  - apply Ascii.eqb_eq in E as ->. cbn [stripDashes]. apply IH.
  - rewrite !stripDashes_other; [reflexivity|exact E|].
    rewrite lower_mark; [exact E|unfold isMark; tauto].
Qed.

Lemma peelParens_other (b : bool) (c : ascii) (s : string) :
  Ascii.eqb c "(" = false -> peelParens b (String c s) = ([], b, String c s).
Proof.
  intros H. destruct c as [[] [] [] [] [] [] [] []]; try reflexivity.
  discriminate.
Qed.

Lemma lower_peelParens (b : bool) (s : string) :
  peelParens b (toLowerCase s)
  = (fst (peelParens b s), toLowerCase (snd (peelParens b s))).
Proof.
  revert b. induction s as [|c s IH]; intros b; [reflexivity|].
  cbn [toLowerCase].
  destruct (Ascii.eqb c "(") eqn:E.
  - apply Ascii.eqb_eq in E as ->. cbn [peelParens]. rewrite IH.
    destruct (peelParens false s) as [[o n] t]. reflexivity.
  - rewrite !peelParens_other; [reflexivity|exact E|].
    rewrite lower_mark; [exact E|unfold isMark; tauto].
Qed.

Lemma lower_stripTrailingParens (s : string) :
  stripTrailingParens (toLowerCase s)
  = (fst (stripTrailingParens s), toLowerCase (snd (stripTrailingParens s))).
Proof.
  induction s as [|c s IH]; [reflexivity|].
  cbn [toLowerCase stripTrailingParens]. rewrite IH.
  destruct (stripTrailingParens s) as [n r]. cbn [fst snd].
  rewrite lower_isEmpty, lower_mark by (unfold isMark; tauto).
  now destruct (isEmpty r && Ascii.eqb c ")").
Qed.

Lemma lower_dropLast (s : string) : dropLast (toLowerCase s) = toLowerCase (dropLast s).
Proof.
  induction s as [|c s IH]; [reflexivity|].
  destruct s as [|d s]; [reflexivity|].
  change (toLowerCase (String c (String d s)))
    with (String (toLowerChar c) (toLowerCase (String d s))).
  rewrite !dropLast_cons by discriminate.
  cbn [toLowerCase] in *. now rewrite IH.
Qed.

Lemma lower_endsWithChar (q : ascii) (s : string) :
  isMark q -> endsWithChar (toLowerCase s) q = endsWithChar s q.
Proof.
  intros Hq. induction s as [|c s IH]; [reflexivity|].
  destruct s as [|d s]; [cbn; now apply lower_mark|].
  change (toLowerCase (String c (String d s)))
    with (String (toLowerChar c) (toLowerCase (String d s))).
  rewrite !endsWithChar_cons by discriminate. exact IH.
Qed.

Lemma lower_lacksChar (q : ascii) (s : string) :
  isMark q -> lacksChar (toLowerCase s) q = lacksChar s q.
Proof.
  intros Hq. induction s as [|c s IH]; [reflexivity|].
  cbn [toLowerCase lacksChar]. now rewrite lower_mark, IH.
Qed.

Lemma lower_isQuotedBy (q : ascii) (s : string) :
  isMark q -> isQuotedBy q (toLowerCase s) = isQuotedBy q s.
Proof.
  intros Hq. destruct s as [|c s]; [reflexivity|].
  cbn [toLowerCase isQuotedBy].
  now rewrite lower_mark, lower_endsWithChar, lower_dropLast, lower_lacksChar.
Qed.

Lemma lower_emitLexeme (neg : bool) (tok : string) (n : nat) :
  emitLexeme neg (toLowerCase tok) n = emitLexeme neg tok n.
Proof.
  unfold emitLexeme, isKeyword.
  rewrite !lower_isQuotedBy by (unfold isMark; tauto).
  rewrite !toLowerCase_idem.
  assert (Hi : toLowerCase (trim (dropLast (dropFirst (toLowerCase tok))))
               = toLowerCase (trim (dropLast (dropFirst tok)))).
  { destruct tok as [|c tok]; [reflexivity|]. cbn [toLowerCase dropFirst].
    now rewrite lower_dropLast, lower_trim, toLowerCase_idem. }
  now rewrite Hi.
Qed.

Lemma lower_eqb_dash (s : string) :
  String.eqb (toLowerCase s) "-" = String.eqb s "-".
Proof.
  destruct s as [|c s]; [reflexivity|].
  cbn [toLowerCase String.eqb].
  rewrite lower_mark by (unfold isMark; tauto).
  destruct s; reflexivity.
Qed.

Lemma lower_tokenizeStep (p : bool) (raw : string) :
  tokenizeStep p (toLowerCase raw) = tokenizeStep p raw.
Proof.
  unfold tokenizeStep.
  rewrite lower_trim, lower_isEmpty, lower_eqb_dash, lower_stripDashes.
  destruct (isEmpty (trim raw)); [reflexivity|].
  destruct (String.eqb (trim raw) "-"); [reflexivity|].
  destruct (stripDashes p (trim raw)) as [neg1 tok1]. cbn [fst snd].
  rewrite lower_isEmpty, lower_peelParens.
  destruct (isEmpty tok1); [reflexivity|].
  destruct (peelParens neg1 tok1) as [[opened neg2] tok2]. cbn [fst snd].
  rewrite lower_stripTrailingParens.
  destruct (stripTrailingParens tok2) as [n tok3]. cbn [fst snd].
  now rewrite lower_isEmpty, lower_emitLexeme.
Qed.

Lemma lower_tokenizeLoop (p : bool) (lexemes : list string) :
  tokenizeLoop p (map toLowerCase lexemes) = tokenizeLoop p lexemes.
Proof.
  revert p. induction lexemes as [|lex l IH]; intros p; [reflexivity|].
  cbn [map tokenizeLoop]. rewrite lower_tokenizeStep.
  destruct (tokenizeStep p lex). now rewrite IH.
Qed.

End CaseFacts.

(** X8.  Queries of Latin-1 characters are case-insensitive.  The
    strings here are of code units below U+0100, where [toLowerCase]
    maps unit by unit: two such queries with the same lowercase form
    give the same tokens, the same [matches] and the same [filter]; so
    keywords and terms may be typed in any case.  Nothing is said of
    characters beyond, where the lowercase form of a character can
    depend on its neighbours. *)
Theorem X8_query_case_is_ignored
    (localeCompare : string -> string -> Z) {Item : Type}
    (fieldsOf : Item -> record) (items : list Item) (item : record)
    (q q' : string) :
  toLowerCase q = toLowerCase q' ->
  tokenizeQuery q = tokenizeQuery q'
  /\ matches item q = matches item q'
  /\ filter localeCompare fieldsOf items q = filter localeCompare fieldsOf items q'.
Proof.
  intros H.
  assert (Hl : forall s, tokenizeQuery (toLowerCase s) = tokenizeQuery s).
  { intros s. unfold tokenizeQuery, Lexer.matchAll.
    now rewrite lower_matchFrom, lower_tokenizeLoop. }
  assert (Ht : tokenizeQuery q = tokenizeQuery q') by now rewrite <- Hl, H, Hl.
  split; [exact Ht|split].
  - now rewrite !matches_unfold, !tokenizeQuery_trim, Ht.
  - unfold filter. now rewrite !filterOutcome_unfold, !tokenizeQuery_trim, Ht.
Qed.

Lemma X8_witness :
  matches {["filename" := JString "Orc_Chief.png"]} "ORC and NOT 'Chief'"
  = matches {["filename" := JString "Orc_Chief.png"]} "orc AND not 'chief'".
Proof.
  apply (proj1 (proj2 (X8_query_case_is_ignored Collation.byCodeUnit id [] _
                         "ORC and NOT 'Chief'" "orc AND not 'chief'" eq_refl))).
Defined.

(** ** What the parser keeps *)

Section ParserFacts.

Lemma tokenTerms_app (a b : list token) :
  tokenTerms (a ++ b) = tokenTerms a ++ tokenTerms b.
Proof.
  induction a as [|t a IH]; [reflexivity|].
  destruct t; cbn [tokenTerms app]; now rewrite IH.
Qed.

Lemma combine_terms (a b : option node) (kind : node -> node -> node) :
  (kind = And \/ kind = Or) ->
  treeTerms (combine a b kind) = treeTerms a ++ treeTerms b.
Proof.
  intros [-> | ->]; destruct a, b; cbn; now rewrite ?app_nil_r.
Qed.

Lemma combine_usable (a b : option node) (kind : node -> node -> node) :
  (kind = And \/ kind = Or) ->
  treeUsable a = true -> treeUsable b = true ->
  treeUsable (combine a b kind) = true.
Proof.
  intros [-> | ->]; destruct a, b; cbn; intros Ha Hb; now rewrite ?Ha, ?Hb.
Qed.

Lemma parsedWell_skip (t : token) (tokens : list token)
    (result : option (option node * list token)) :
  parsedWell tokens result ->
  forall res rest, result = Some (res, rest) ->
    exists consumed,
      t :: tokens = (t :: consumed) ++ rest
      /\ sublist (treeTerms res) (tokenTerms consumed)
      /\ (Forall tokenUsable tokens -> treeUsable res = true).
Proof.
  intros H res rest E. destruct (H res rest E) as (consumed & -> & Hs & Hu).
  now exists consumed.
Qed.

Lemma sublist_tokenTerms_cons (l : list term) (t : token) (consumed : list token) :
  sublist l (tokenTerms consumed) -> sublist l (tokenTerms (t :: consumed)).
Proof.
  intros H. destruct t; cbn [tokenTerms]; [now apply sublist_cons|..]; exact H.
Qed.

Lemma loopedWell_stop (acc : option node) (tokens : list token) :
  loopedWell acc tokens (Some (acc, tokens)).
Proof.
  intros res rest [= <- <-]. exists [], [].
  split; [reflexivity|]. split; [now rewrite app_nil_r|].
  split; [constructor|auto].
Qed.

Lemma parser_well (fuel : nat) :
  (forall tokens, parsedWell tokens (parsePrimary fuel tokens))
  /\ (forall tokens, parsedWell tokens (parseUnary fuel tokens))
  /\ (forall acc tokens, loopedWell acc tokens (parseAndLoop fuel acc tokens))
  /\ (forall tokens, parsedWell tokens (parseAnd fuel tokens))
  /\ (forall acc tokens, loopedWell acc tokens (parseOrLoop fuel acc tokens))
  /\ (forall tokens, parsedWell tokens (parseOr fuel tokens)).
Proof.
  induction fuel as [|fuel (IHp & IHu & IHal & IHa & IHol & IHo)].
  { repeat split; intros; intros res rest E; discriminate. }
  assert (Hnil : forall res rest,
             Some (@None node, @nil token) = Some (res, rest) ->
             exists consumed,
               [] = consumed ++ rest
               /\ sublist (treeTerms res) (tokenTerms consumed)
               /\ (Forall tokenUsable [] -> treeUsable res = true)).
  { intros res rest [= <- <-]. exists []. repeat split. constructor. }
  assert (Hdrop : forall t tokens res rest,
             Some (@None node, tokens) = Some (res, rest) ->
             exists consumed,
               t :: tokens = consumed ++ rest
               /\ sublist (treeTerms res) (tokenTerms consumed)
               /\ (Forall tokenUsable (t :: tokens) -> treeUsable res = true)).
  { intros t tokens res rest [= <- <-]. exists [t].
    repeat split. apply sublist_nil_l. }
  assert (Himplicit : forall acc tokens,
             loopedWell acc tokens
               match parseUnary fuel tokens with
               | Some (Some rhs, rest') =>
                   parseAndLoop fuel (combine acc (Some rhs) And) rest'
               | Some (None, rest') => Some (acc, rest')
               | None => None
               end).
  { intros acc tokens res rest E.
    destruct (parseUnary fuel tokens) as [[[rhs|] rest']|] eqn:Eu;
      [| |discriminate].
    - destruct (IHu tokens _ _ Eu) as (c1 & -> & Hs1 & Hu1).
      destruct (IHal _ _ _ _ E) as (c2 & extra & -> & Ht & Hs2 & Hu2).
      exists (c1 ++ c2), (nodeTerms rhs ++ extra).
      split; [now rewrite <- app_assoc|].
      split; [rewrite Ht, combine_terms by tauto; now rewrite <- app_assoc|].
      split; [rewrite tokenTerms_app; now apply sublist_app|].
      intros Hall Hacc.
      apply Hu2; [apply Forall_app in Hall; tauto|].
      apply combine_usable; auto.
    - injection E as <- <-.
      destruct (IHu tokens _ _ Eu) as (c1 & -> & Hs1 & Hu1).
      exists c1, []. split; [reflexivity|]. split; [now rewrite app_nil_r|].
      split; [apply sublist_nil_l|auto]. }
  repeat split.
  - (* parsePrimary *)
    intros [|t tokens]; [exact Hnil|].
    destruct t; cbn [parsePrimary];
      try (intros res rest E; exact (Hdrop _ _ _ _ E)).
    + intros res rest [= <- <-]. exists [TERM t].
      repeat split.
      * cbn. destruct (negated t); reflexivity.
      * intros Hall. apply Forall_cons in Hall as [Ht _]. cbn in Ht.
        destruct (negated t) eqn:En; [|reflexivity].
        change ((2 <=? String.length (value t))%nat = true).
        apply Nat.leb_le. exact (Ht eq_refl).
    + intros res rest E.
      destruct (parseOr fuel tokens) as [[expr rest']|] eqn:Eo; [|discriminate].
      destruct (IHo tokens _ _ Eo) as (c & -> & Hs & Hu).
      assert (Hu' : Forall tokenUsable (LPAREN :: c ++ rest') ->
                    treeUsable expr = true).
      { intros Hall. apply Forall_cons in Hall as [_ Hall]. auto. }
      destruct rest' as [|r rest''].
      * injection E as <- <-. exists (LPAREN :: c). repeat split; auto.
      * destruct r; injection E as <- <-;
          try (exists (LPAREN :: c); repeat split; auto; fail).
        exists (LPAREN :: c ++ [RPAREN]).
        split; [cbn [app]; now rewrite <- app_assoc|]. split; [|exact Hu'].
        cbn [tokenTerms]. rewrite tokenTerms_app. cbn. now rewrite app_nil_r.
  - (* parseUnary *)
    intros [|t tokens]; [exact Hnil|].
    destruct t; cbn [parseUnary]; try apply IHp.
    intros res rest E.
    destruct (parseUnary fuel tokens) as [[[operand|] rest']|] eqn:Eu;
      [| |discriminate].
    + destruct (IHu tokens _ _ Eu) as (c & -> & Hs & Hu).
      exists (NOT :: c).
      destruct (tooShortToNegate operand) eqn:Es; injection E as <- <-;
        repeat split; auto; [apply sublist_nil_l|].
      intros Hall. apply Forall_cons in Hall as [_ Hall]. specialize (Hu Hall).
      destruct operand as [t| | |]; try exact Hu.
      change ((2 <=? String.length (value t))%nat = true).
      cbn [tooShortToNegate] in Es. apply orb_false_iff in Es as [_ Es].
      apply Nat.ltb_ge in Es. now apply Nat.leb_le.
    + injection E as <- <-.
      destruct (IHu tokens _ _ Eu) as (c & -> & Hs & Hu).
      exists (NOT :: c). repeat split; auto.
  - (* parseAndLoop *)
    intros acc [|t tokens].
    { apply loopedWell_stop. }
    pose proof (loopedWell_stop acc (t :: tokens)) as Hstop.
    destruct t; cbn [parseAndLoop]; try exact Hstop; try apply Himplicit.
    intros res rest E.
    pose proof (Himplicit acc tokens res rest E)
      as (c & extra & -> & Ht & Hs & Hu).
    exists (AND :: c), extra.
    split; [reflexivity|]. split; [exact Ht|]. split; [exact Hs|].
    intros Hall. apply Forall_cons in Hall as [_ Hall]. auto.
  - (* parseAnd *)
    intros tokens res rest E. cbn [parseAnd] in E.
    destruct (parseUnary fuel tokens) as [[left rest']|] eqn:Eu; [|discriminate].
    destruct (IHu tokens _ _ Eu) as (c1 & -> & Hs1 & Hu1).
    destruct (IHal _ _ _ _ E) as (c2 & extra & -> & Ht & Hs2 & Hu2).
    exists (c1 ++ c2).
    split; [now rewrite <- app_assoc|].
    split; [rewrite Ht, tokenTerms_app; now apply sublist_app|].
    intros Hall. apply Hu2; [apply Forall_app in Hall; tauto|auto].
  - (* parseOrLoop *)
    intros acc [|t tokens].
    { apply loopedWell_stop. }
    pose proof (loopedWell_stop acc (t :: tokens)) as Hstop.
    destruct t; cbn [parseOrLoop]; try exact Hstop.
    intros res rest E.
    destruct (parseAnd fuel tokens) as [[rhs rest']|] eqn:Ea; [|discriminate].
    destruct (IHa tokens _ _ Ea) as (c1 & -> & Hs1 & Hu1).
    destruct (IHol _ _ _ _ E) as (c2 & extra & -> & Ht & Hs2 & Hu2).
    exists (OR :: c1 ++ c2), (treeTerms rhs ++ extra).
    split; [cbn [app]; now rewrite <- app_assoc|].
    split; [rewrite Ht, combine_terms by tauto; now rewrite <- app_assoc|].
    split; [cbn [tokenTerms]; rewrite tokenTerms_app; now apply sublist_app|].
    intros Hall Hacc. apply Forall_cons in Hall as [_ Hall].
    apply Hu2; [apply Forall_app in Hall; tauto|].
    apply combine_usable; auto.
  - (* parseOr *)
    intros tokens res rest E. cbn [parseOr] in E.
    destruct (parseAnd fuel tokens) as [[left rest']|] eqn:Ea; [|discriminate].
    destruct (IHa tokens _ _ Ea) as (c1 & -> & Hs1 & Hu1).
    destruct (IHol _ _ _ _ E) as (c2 & extra & -> & Ht & Hs2 & Hu2).
    exists (c1 ++ c2).
    split; [now rewrite <- app_assoc|].
    split; [rewrite Ht, tokenTerms_app; now apply sublist_app|].
    intros Hall. apply Hu2; [apply Forall_app in Hall; tauto|auto].
Qed.

End ParserFacts.

(** X9.  The parser invents no term and keeps their order: on every
    token list, malformed ones included, the terms of the tree read
    from left to right are a subsequence of the terms of the token
    list. *)
Theorem X9_tree_terms_come_from_the_tokens (tokens : list token) :
  sublist (treeTerms (parseQueryAST tokens)) (tokenTerms tokens).
Proof.
  unfold parseQueryAST.
  destruct (parseOr (parseFuel tokens) tokens) as [[ast rest]|] eqn:E;
    [|apply sublist_nil_l].
  destruct (proj2 (proj2 (proj2 (proj2 (proj2 (parser_well (parseFuel tokens))))))
              tokens ast rest E) as (c & Hc & Hs & _).
  rewrite Hc, tokenTerms_app. now apply sublist_inserts_r.
Qed.

(** X10.  In the tree parsed from the tokens of any query string, no
    NOT stands directly on a term shorter than two units. *)
Theorem X10_no_short_term_is_negated (q : string) :
  treeUsable (parseQueryAST (tokenizeQuery q)) = true.
Proof.
  unfold parseQueryAST.
  destruct (parseOr (parseFuel (tokenizeQuery q)) (tokenizeQuery q))
    as [[ast rest]|] eqn:E; [|reflexivity].
  destruct (proj2 (proj2 (proj2 (proj2 (proj2
              (parser_well (parseFuel (tokenizeQuery q)))))))
              _ ast rest E) as (c & _ & _ & Hu).
  apply Hu. apply List.Forall_forall. intros tk Hin.
  destruct tk; cbn; auto.
  now apply tokenizeQuery_term_usable in Hin.
Qed.

(** ** Connectives between two terms *)

Section ConnectiveFacts.
Import Lexer.

Lemma plainTerm_lexeme (t : string) :
  plainTerm t ->
  t <> ""
  /\ wordRun t = t
  /\ matchAll t = [t]
  /\ tokenizeStep false t = ([TERM (mkTerm (toLowerCase t) false false)], false).
Proof.
  unfold plainTerm, tokenizeQuery. intros Htok.
  destruct (tokenizeLoop_term false (matchAll t)
              (TERM (mkTerm (toLowerCase t) false false)))
    as (lex & p' & Hin & Hterm); [rewrite Htok; now left|].
  apply tokenizeStep_term in Hterm. cbn [value] in Hterm.
  rewrite toLowerCase_length in Hterm.
  destruct (lexeme_length t lex Hin) as [Hle Hall].
  destruct (Hall ltac:(lia)) as [Hat Hlexemes]. clear Hall Hle Hterm Hin lex p'.
  rewrite Hlexemes in Htok. cbn [tokenizeLoop] in Htok.
  destruct (tokenizeStep false t) as [out pend] eqn:Estep.
  rewrite app_nil_r in Htok. subst out.
  assert (Hpend : pend = false).
  { destruct (tokenizeStep_term_shape false t (mkTerm (toLowerCase t) false false))
      as (_ & _ & Hp & _); [rewrite Estep; now left|].
    now rewrite Estep in Hp. }
  subst pend.
  destruct (plain_term_step t _ false Estep (toLowerCase_length t))
    as (Hend & Hdash & Hpeel & Htrail & Hquoted & _).
  apply orb_false_iff in Hquoted as [Hq1 Hq2].
  assert (Hne : t <> "") by (intros ->; discriminate).
  repeat split; auto.
  unfold matchAt, orElse in Hat.
  destruct (altChar "(" t) as [l|] eqn:E1.
  { unfold altChar in E1. destruct t as [|c t]; [discriminate|].
    destruct (Ascii.eqb_spec c "(") as [->|]; [|discriminate].
    specialize (Hpeel false). cbn [peelParens] in Hpeel.
    destruct (peelParens false t) as [[o n] r]. discriminate. }
  destruct (altChar ")" t) as [l|] eqn:E2.
  { unfold altChar in E2. destruct t as [|c t]; [discriminate|].
    destruct (Ascii.eqb_spec c ")") as [->|]; [|discriminate].
    injection E2 as <-. injection Hat as <-. discriminate. }
  destruct (altQuoted "'" t) as [l|] eqn:E3.
  { injection Hat as ->. apply altQuoted_isQuotedBy in E3. congruence. }
  destruct (altQuoted dquote t) as [l|] eqn:E4.
  { injection Hat as ->. apply altQuoted_isQuotedBy in E4. congruence. }
  unfold altWord in Hat.
  destruct (wordRun t); [discriminate|]. now injection Hat.
Qed.

Lemma wordRun_all (a : string) (c : ascii) (rest : string) :
  wordRun a = a -> isWordChar c = false ->
  wordRun (a +:+ String c rest) = a.
Proof.
  intros Ha Hc. induction a as [|x a IH].
  - cbn. now rewrite Hc.
  - change (String x a +:+ String c rest) with (String x (a +:+ String c rest)).
    cbn [wordRun] in *. destruct (isWordChar x); [|discriminate].
    injection Ha as Ha. now rewrite IH.
Qed.

(** A word that does not start with a quote, then a space: the word is
    the first lexeme and the lexer goes on after the space. *)
Lemma matchAll_word_space (w rest : string) :
  w <> "" -> wordRun w = w ->
  Spec.firstUnit w <> Some "'"%char -> Spec.firstUnit w <> Some dquote ->
  matchAll (w +:+ " " +:+ rest) = w :: matchAll rest.
Proof.
  intros Hne Hw Hq1 Hq2.
  assert (Hat : matchAt (w +:+ " " +:+ rest) = Some w).
  { change (" " +:+ rest) with (String " " rest).
    unfold matchAt, orElse, altChar, altQuoted, altWord.
    rewrite (wordRun_all w " " rest Hw eq_refl).
    destruct w as [|x w]; [congruence|].
    change (String x w +:+ String " " rest) with (String x (w +:+ String " " rest)).
    cbn [wordRun] in Hw. destruct (isWordChar x) eqn:Ex; [|discriminate].
    unfold isWordChar in Ex.
    apply andb_true_iff in Ex as [Ex E2]. apply andb_true_iff in Ex as [_ E1].
    apply negb_true_iff in E1, E2. rewrite E1, E2.
    cbn in Hq1, Hq2.
    destruct (Ascii.eqb_spec x "'") as [->|_]; [congruence|].
    destruct (Ascii.eqb_spec x dquote) as [->|_]; [congruence|].
    reflexivity. }
  rewrite (matchAll_cons _ _ Hat).
  change (" " +:+ rest) with (String " " rest).
  unfold matchAll. cbn [matchFrom]. now rewrite matchAt_ws.
Qed.

End ConnectiveFacts.

Lemma parse_juxtaposed (A B : term) :
  negated A = false -> negated B = false ->
  parseQueryAST [TERM A; TERM B] = Some (And (Term A) (Term B)).
Proof. intros HA HB. cbv - [negated]. now rewrite HA, HB. Qed.

Lemma parse_and (A B : term) :
  negated A = false -> negated B = false ->
  parseQueryAST [TERM A; AND; TERM B] = Some (And (Term A) (Term B)).
Proof. intros HA HB. cbv - [negated]. now rewrite HA, HB. Qed.

Lemma parse_or (A B : term) :
  negated A = false -> negated B = false ->
  parseQueryAST [TERM A; OR; TERM B] = Some (Or (Term A) (Term B)).
Proof. intros HA HB. cbv - [negated]. now rewrite HA, HB. Qed.

Lemma parse_not (A B : term) :
  negated A = false -> negated B = false ->
  parseQueryAST [TERM A; NOT; TERM B]
  = if tooShortToNegate (Term B) then Some (Term A)
    else Some (And (Term A) (Not (Term B))).
Proof.
  destruct A as [va ea na], B as [vb eb nb]. cbn [negated]. intros -> ->.
  now destruct vb as [|c [|d r]].
Qed.

(** X11.  The connectives between two plain terms [a] and [b], where
    [a] does not start with a quote: a space and AND both give the
    conjunction of the two matches, OR gives their disjunction, and
    NOT before a [b] of two units or more gives [a] and not [b]. *)
Theorem X11_connectives_between_two_terms (item : record) (a b : string) :
  plainTerm a -> plainTerm b ->
  Spec.firstUnit a <> Some "'"%char -> Spec.firstUnit a <> Some Lexer.dquote ->
  matches item (a +:+ " " +:+ b) = matches item a && matches item b
  /\ matches item (a +:+ " AND " +:+ b) = matches item a && matches item b
  /\ matches item (a +:+ " OR " +:+ b) = matches item a || matches item b
  /\ ((2 <= String.length b)%nat ->
      matches item (a +:+ " NOT " +:+ b)
      = matches item a && negb (matches item b)).
Proof.
  intros Ha Hb Hq1 Hq2.
  destruct (plainTerm_lexeme a Ha) as (Hane & Haw & _ & Hastep).
  destruct (plainTerm_lexeme b Hb) as (Hbne & _ & Hball & Hbstep).
  assert (Hsplit : forall rest,
             tokenizeQuery (a +:+ " " +:+ rest)
             = TERM (mkTerm (toLowerCase a) false false)
               :: tokenizeLoop false (Lexer.matchAll rest)).
  { intros rest. unfold tokenizeQuery.
    rewrite matchAll_word_space by assumption.
    cbn [tokenizeLoop]. now rewrite Hastep. }
  assert (Hkw : forall kw tk,
             (kw = "AND" /\ tk = AND) \/ (kw = "OR" /\ tk = OR)
             \/ (kw = "NOT" /\ tk = NOT) ->
             tokenizeLoop false (Lexer.matchAll (kw +:+ " " +:+ b))
             = [tk; TERM (mkTerm (toLowerCase b) false false)]).
  { intros kw tk Hk.
    assert (Hstep : tokenizeStep false kw = ([tk], false))
      by (destruct Hk as [[-> ->] | [[-> ->] | [-> ->]]]; reflexivity).
    rewrite matchAll_word_space, Hball;
      [|destruct Hk as [[-> _] | [[-> _] | [-> _]]]; (reflexivity || discriminate)..].
    cbn [tokenizeLoop]. rewrite Hstep, Hbstep. reflexivity. }
  assert (Hone : forall t, plainTerm t ->
             matches item t
             = haystackIncludesTerm (buildHaystack item)
                 (mkTerm (toLowerCase t) false false)).
  { intros t Ht. rewrite matches_unfold, tokenizeQuery_trim, Ht.
    change (parseQueryAST [TERM (mkTerm (toLowerCase t) false false)])
      with (Some (Term (mkTerm (toLowerCase t) false false))).
    reflexivity. }
  rewrite (Hone a Ha), (Hone b Hb).
  split; [|split; [|split]].
  - rewrite matches_unfold, tokenizeQuery_trim, Hsplit, Hball.
    cbn [tokenizeLoop]. rewrite Hbstep. cbn [app].
    rewrite parse_juxtaposed by reflexivity.
    generalize (buildHaystack item). reflexivity.
  - change (a +:+ " AND " +:+ b) with (a +:+ " " +:+ ("AND" +:+ " " +:+ b)).
    rewrite matches_unfold, tokenizeQuery_trim, Hsplit, (Hkw "AND" AND) by tauto.
    rewrite parse_and by reflexivity.
    generalize (buildHaystack item). reflexivity.
  - change (a +:+ " OR " +:+ b) with (a +:+ " " +:+ ("OR" +:+ " " +:+ b)).
    rewrite matches_unfold, tokenizeQuery_trim, Hsplit, (Hkw "OR" OR) by tauto.
    rewrite parse_or by reflexivity.
    generalize (buildHaystack item). reflexivity.
  - intros Hlen.
    change (a +:+ " NOT " +:+ b) with (a +:+ " " +:+ ("NOT" +:+ " " +:+ b)).
    rewrite matches_unfold, tokenizeQuery_trim, Hsplit, (Hkw "NOT" NOT) by tauto.
    rewrite parse_not by reflexivity.
    assert (Hlong : tooShortToNegate
                      (Term (mkTerm (toLowerCase b) false false)) = false).
    { cbn [tooShortToNegate value]. rewrite toLowerCase_length.
      apply orb_false_iff. split.
      - destruct (toLowerCase b) eqn:Eb; [|reflexivity].
        apply (f_equal String.length) in Eb.
        rewrite toLowerCase_length in Eb. cbn in Eb. lia.
      - apply Nat.ltb_ge. lia. }
    rewrite Hlong. generalize (buildHaystack item). reflexivity.
Qed.

Lemma X11_witness :
  matches {["filename" := JString "goblin_archer.png"]} ("goblin" +:+ " " +:+ "archer")
  = matches {["filename" := JString "goblin_archer.png"]} "goblin"
    && matches {["filename" := JString "goblin_archer.png"]} "archer".
Proof.
  apply (proj1 (X11_connectives_between_two_terms
                  {["filename" := JString "goblin_archer.png"]} "goblin" "archer"
                  eq_refl eq_refl ltac:(discriminate) ltac:(discriminate))).
Defined.

(** ** Unbalanced parentheses *)

Section StrayParenFacts.
Import Lexer.

(** A closing parenthesis right after a first term ends the parse:
    the tokens that follow are never looked at. *)
Lemma parse_cut (A : term) (rest : list token) :
  parseQueryAST (TERM A :: RPAREN :: rest) = parseQueryAST [TERM A].
Proof.
  unfold parseQueryAST.
  assert (E : parseFuel (TERM A :: RPAREN :: rest)
              = (5 + (6 * List.length rest + 13))%nat)
    by (unfold parseFuel; cbn [List.length]; lia).
  rewrite E. generalize (6 * List.length rest + 13)%nat. intros k.
  reflexivity.
Qed.

Lemma matchAll_word_close (w rest : string) :
  w <> "" -> wordRun w = w ->
  Spec.firstUnit w <> Some "'"%char -> Spec.firstUnit w <> Some dquote ->
  matchAll (w +:+ ")" +:+ rest) = w :: ")" :: matchAll rest.
Proof.
  intros Hne Hw Hq1 Hq2.
  assert (Hat : matchAt (w +:+ ")" +:+ rest) = Some w).
  { change (")" +:+ rest) with (String ")" rest).
    unfold matchAt, orElse, altChar, altQuoted, altWord.
    rewrite (wordRun_all w ")" rest Hw eq_refl).
    destruct w as [|x w]; [congruence|].
    change (String x w +:+ String ")" rest) with (String x (w +:+ String ")" rest)).
    cbn [wordRun] in Hw. destruct (isWordChar x) eqn:Ex; [|discriminate].
    unfold isWordChar in Ex.
    apply andb_true_iff in Ex as [Ex E2]. apply andb_true_iff in Ex as [_ E1].
    apply negb_true_iff in E1, E2. rewrite E1, E2.
    cbn in Hq1, Hq2.
    destruct (Ascii.eqb_spec x "'") as [->|_]; [congruence|].
    destruct (Ascii.eqb_spec x dquote) as [->|_]; [congruence|].
    reflexivity. }
  rewrite (matchAll_cons _ _ Hat). f_equal.
Qed.

Lemma parse_open (A : term) :
  negated A = false ->
  parseQueryAST [LPAREN; TERM A] = parseQueryAST [TERM A].
Proof. intros HA. cbv - [negated]. now rewrite HA. Qed.

End StrayParenFacts.

(** X12.  Unbalanced parentheses around a plain term [a] that does
    not start with a quote.  A closing parenthesis right after [a]
    ends the query: whatever text follows it, the tree, [matches] and
    [filter] are those of [a] alone.  An opening parenthesis before
    [a] that is never closed changes nothing. *)
Theorem X12_unbalanced_parentheses
    (localeCompare : string -> string -> Z) {Item : Type}
    (fieldsOf : Item -> record) (items : list Item)
    (item : record) (a rest : string) :
  plainTerm a ->
  Spec.firstUnit a <> Some "'"%char -> Spec.firstUnit a <> Some Lexer.dquote ->
  parseQueryAST (tokenizeQuery (a +:+ ")" +:+ rest)) = parseQueryAST (tokenizeQuery a)
  /\ matches item (a +:+ ")" +:+ rest) = matches item a
  /\ filter localeCompare fieldsOf items (a +:+ ")" +:+ rest)
     = filter localeCompare fieldsOf items a
  /\ matches item ("(" +:+ a) = matches item a
  /\ filter localeCompare fieldsOf items ("(" +:+ a)
     = filter localeCompare fieldsOf items a.
Proof.
  intros Ha Hq1 Hq2.
  destruct (plainTerm_lexeme a Ha) as (Hane & Haw & Haall & Hastep).
  assert (Htok : tokenizeQuery (a +:+ ")" +:+ rest)
                 = TERM (mkTerm (toLowerCase a) false false) :: RPAREN
                   :: tokenizeQuery rest).
  { unfold tokenizeQuery. rewrite matchAll_word_close by assumption.
    cbn [tokenizeLoop]. rewrite Hastep.
    change (tokenizeStep false ")") with ([RPAREN], false). reflexivity. }
  assert (Hparse : parseQueryAST (tokenizeQuery (a +:+ ")" +:+ rest))
                   = parseQueryAST (tokenizeQuery a)).
  { rewrite Htok, Ha. apply parse_cut. }
  assert (Hopen : parseQueryAST (tokenizeQuery ("(" +:+ a))
                  = parseQueryAST (tokenizeQuery a)).
  { unfold tokenizeQuery at 1.
    rewrite (matchAll_cons "(" a eq_refl), Haall.
    cbn [tokenizeLoop].
    change (tokenizeStep false "(") with ([LPAREN], false). cbv iota beta.
    rewrite Hastep, Ha. cbn [app]. now apply parse_open. }
  split; [exact Hparse|split; [|split; [|split]]].
  - rewrite !matches_unfold, !tokenizeQuery_trim. now rewrite Hparse.
  - unfold filter. rewrite !filterOutcome_unfold, !tokenizeQuery_trim.
    now rewrite Hparse.
  - rewrite !matches_unfold, !tokenizeQuery_trim. now rewrite Hopen.
  - unfold filter. rewrite !filterOutcome_unfold, !tokenizeQuery_trim.
    now rewrite Hopen.
Qed.

Lemma X12_witness :
  matches {["filename" := JString "orc.png"]} ("orc" +:+ ")" +:+ " -orc")
  = matches {["filename" := JString "orc.png"]} "orc".
Proof.
  apply (proj1 (proj2 (X12_unbalanced_parentheses
                         Collation.byCodeUnit id []
                         {["filename" := JString "orc.png"]} "orc" " -orc"
                         eq_refl ltac:(discriminate) ltac:(discriminate)))).
Defined.

(** ** Dashes *)

Section DashFacts.
Import Lexer.

Lemma plainTerm_step (t : string) :
  plainTerm t ->
  trim t = t
  /\ stripDashes true t = (true, t)
  /\ (forall b, peelParens b t = ([], b, t))
  /\ stripTrailingParens t = (0%nat, t)
  /\ isQuotedBy "'" t || isQuotedBy dquote t = false.
Proof.
  intros Ht. destruct (plainTerm_lexeme t Ht) as (Hne & Hw & _ & Hstep).
  destruct (plain_term_step t _ false Hstep (toLowerCase_length t))
    as (Hend & Hdash & Hpeel & Htrail & Hquoted & _).
  repeat split; auto.
  unfold trim. destruct t as [|c t]; [congruence|].
  cbn [wordRun] in Hw. cbn [trimStart].
  destruct (isWhiteSpace c) eqn:Ec; [|exact Hend].
  rewrite (ws_not_word c Ec) in Hw. discriminate.
Qed.

Lemma dashes_wordRun (n : nat) (t : string) :
  wordRun t = t -> wordRun (dashes n +:+ t) = dashes n +:+ t.
Proof.
  intros Hw. induction n as [|n IH]; [exact Hw|].
  change (dashes (S n) +:+ t) with (String "-" (dashes n +:+ t)).
  change (wordRun (String "-" (dashes n +:+ t)))
    with (String "-" (wordRun (dashes n +:+ t))).
  now rewrite IH.
Qed.

Lemma dashes_trim (n : nat) (t : string) :
  t <> "" -> trim t = t -> trimEnd t = t ->
  trim (dashes n +:+ t) = dashes n +:+ t.
Proof.
  intros Hne Ht He. destruct n as [|n]; [exact Ht|].
  unfold trim.
  change (trimStart (dashes (S n) +:+ t)) with (dashes (S n) +:+ t).
  induction (S n) as [|k IH]; [exact He|].
  change (dashes (S k) +:+ t) with (String "-" (dashes k +:+ t)).
  rewrite trimEnd_cons, IH, andb_false_r. reflexivity.
Qed.

Lemma dashes_strip (p : bool) (n : nat) (t : string) :
  stripDashes true t = (true, t) ->
  (p = true \/ (1 <= n)%nat) ->
  stripDashes p (dashes n +:+ t) = (true, t).
Proof.
  intros Hd Hp. revert p Hp. induction n as [|n IH]; intros p Hp.
  - destruct Hp as [-> | Hp]; [exact Hd|lia].
  - change (dashes (S n) +:+ t) with (String "-" (dashes n +:+ t)).
    change (stripDashes p (String "-" (dashes n +:+ t)))
      with (stripDashes true (dashes n +:+ t)).
    apply IH. now left.
Qed.

(** The loop body on a plain term behind dashes or a pending negation:
    a negated term, or nothing but the negation kept pending when the
    term has fewer than two units. *)
Lemma tokenizeStep_dashed (p : bool) (n : nat) (t : string) :
  plainTerm t ->
  (p = true \/ (1 <= n)%nat) ->
  tokenizeStep p (dashes n +:+ t)
  = if (String.length t <? 2)%nat then ([], true)
    else ([TERM (mkTerm (toLowerCase t) false true)], false).
Proof.
  intros Ht Hp.
  destruct (plainTerm_lexeme t Ht) as (Hne & Hw & _ & _).
  destruct (plainTerm_step t Ht) as (Htrim & Hdash & Hpeel & Htrail & Hq).
  assert (Hend : trimEnd t = t).
  { unfold trim in Htrim. destruct t as [|c t]; [congruence|].
    cbn [wordRun] in Hw. cbn [trimStart] in Htrim.
    destruct (isWhiteSpace c) eqn:Ec; [|exact Htrim].
    rewrite (ws_not_word c Ec) in Hw. discriminate. }
  assert (Hempty : isEmpty t = false) by (destruct t; [congruence|reflexivity]).
  unfold tokenizeStep. rewrite (dashes_trim n t Hne Htrim Hend).
  assert (E1 : isEmpty (dashes n +:+ t) = false).
  { destruct n; [exact Hempty|reflexivity]. }
  assert (E2 : String.eqb (dashes n +:+ t) "-" = false).
  { destruct n as [|n].
    - change (dashes 0 +:+ t) with t. apply String.eqb_neq. intros ->. discriminate.
    - change (dashes (S n) +:+ t) with (String "-" (dashes n +:+ t)).
      destruct (dashes n +:+ t) eqn:E; [|reflexivity].
      destruct n; [cbn in E; congruence|discriminate]. }
  rewrite E1, E2, (dashes_strip p n t Hdash Hp), Hempty, Hpeel, Htrail, Hempty.
  unfold emitLexeme. rewrite Hq. cbn [negb andb]. rewrite toLowerCase_length.
  now destruct (String.length t <? 2)%nat.
Qed.

Lemma dashes_matchAll (n : nat) (t : string) :
  plainTerm t -> (1 <= n)%nat ->
  matchAll (dashes n +:+ t) = [dashes n +:+ t].
Proof.
  intros Ht Hn. destruct (plainTerm_lexeme t Ht) as (Hne & Hw & _ & _).
  assert (Hat : matchAt (dashes n +:+ t) = Some (dashes n +:+ t)).
  { destruct n as [|n]; [lia|].
    unfold matchAt, orElse, altChar, altQuoted, altWord.
    rewrite (dashes_wordRun (S n) t Hw).
    change (dashes (S n) +:+ t) with (String "-" (dashes n +:+ t)).
    reflexivity. }
  pose proof (matchAll_cons (dashes n +:+ t) "") as Hall.
  rewrite append_empty_r in Hall. now rewrite (Hall Hat).
Qed.

End DashFacts.

(** X13.  Dashes before a plain term [t].  When [t] has two units or
    more, one or more dashes joined to it, and a dash apart from it,
    give the one negated term, and [matches] is the negation of the
    match of [t].  When [t] has one unit, the negation is put off:
    there is no token and every record matches. *)
Theorem X13_dashes_before_a_term
    (item : record) (t : string) (n : nat) :
  plainTerm t -> (1 <= n)%nat ->
  ((2 <= String.length t)%nat ->
   tokenizeQuery (dashes n +:+ t) = [TERM (mkTerm (toLowerCase t) false true)]
   /\ tokenizeQuery ("- " +:+ t) = [TERM (mkTerm (toLowerCase t) false true)]
   /\ matches item (dashes n +:+ t) = negb (matches item t)
   /\ matches item ("- " +:+ t) = negb (matches item t))
  /\ ((String.length t < 2)%nat ->
      tokenizeQuery (dashes n +:+ t) = []
      /\ tokenizeQuery ("- " +:+ t) = []
      /\ matches item (dashes n +:+ t) = true
      /\ matches item ("- " +:+ t) = true).
Proof.
  intros Ht Hn.
  assert (Hdashed : tokenizeQuery (dashes n +:+ t)
                    = fst (if (String.length t <? 2)%nat then ([], true)
                           else ([TERM (mkTerm (toLowerCase t) false true)], false))).
  { unfold tokenizeQuery. rewrite (dashes_matchAll n t Ht Hn).
    cbn [tokenizeLoop]. rewrite (tokenizeStep_dashed false n t Ht (or_intror Hn)).
    destruct (String.length t <? 2)%nat; reflexivity. }
  assert (Hapart : tokenizeQuery ("- " +:+ t)
                   = fst (if (String.length t <? 2)%nat then ([], true)
                          else ([TERM (mkTerm (toLowerCase t) false true)], false))).
  { destruct (plainTerm_lexeme t Ht) as (_ & _ & Hall & _).
    unfold tokenizeQuery.
    change ("- " +:+ t) with ("-" +:+ " " +:+ t).
    rewrite (matchAll_word_space "-" t) by (reflexivity || discriminate).
    rewrite Hall. cbn [tokenizeLoop].
    change (tokenizeStep false "-") with (@nil token, true). cbv iota beta.
    pose proof (tokenizeStep_dashed true 0 t Ht (or_introl eq_refl)) as Hs.
    change (dashes 0 +:+ t) with t in Hs. rewrite Hs.
    destruct (String.length t <? 2)%nat; reflexivity. }
  assert (Hm : matches item t
               = haystackIncludesTerm (buildHaystack item)
                   (mkTerm (toLowerCase t) false false)).
  { rewrite matches_unfold, tokenizeQuery_trim, Ht. reflexivity. }
  split; intros Hlen.
  - destruct (Nat.ltb_spec (String.length t) 2) as [|_]; [lia|].
    cbn [fst] in Hdashed, Hapart.
    split; [exact Hdashed|split; [exact Hapart|]].
    rewrite Hm, !matches_unfold, !tokenizeQuery_trim, Hdashed, Hapart.
    split; reflexivity.
  - destruct (Nat.ltb_spec (String.length t) 2) as [_|]; [|lia].
    cbn [fst] in Hdashed, Hapart.
    split; [exact Hdashed|split; [exact Hapart|]].
    rewrite !matches_unfold, !tokenizeQuery_trim, Hdashed, Hapart.
    split; reflexivity.
Qed.

Lemma X13_witness :
  tokenizeQuery (dashes 3 +:+ "c") = []
  /\ tokenizeQuery ("- " +:+ "c") = []
  /\ matches {["filename" := JString "cat.png"]} (dashes 3 +:+ "c") = true
  /\ matches {["filename" := JString "cat.png"]} ("- " +:+ "c") = true.
Proof.
  apply (proj2 (X13_dashes_before_a_term {["filename" := JString "cat.png"]} "c" 3
                  eq_refl ltac:(lia))).
  cbn. lia.
Defined.

(** ** Escaping, word boundaries and where a term scores *)

Section EscapeFacts.

Lemma special_backslash (c : ascii) :
  isRegExpSpecial c = false -> Ascii.eqb c "\" = false.
Proof.
  intros H. destruct (Ascii.eqb_spec c "\") as [E|]; [|reflexivity].
  subst c. discriminate.
Qed.

Lemma escapeRegExp_length (s : string) :
  (String.length s <= String.length (escapeRegExp s) <= 2 * String.length s)%nat.
Proof.
  induction s as [|c s IH]; [cbn; lia|].
  cbn [escapeRegExp]. destruct (isRegExpSpecial c); cbn [String.length]; lia.
Qed.

Lemma escapeRegExp_plain (s : string) :
  escapeRegExp s = s <-> forall c, In c (list_ascii_of_string s) -> isRegExpSpecial c = false.
Proof.
  induction s as [|c s IH]; cbn [escapeRegExp list_ascii_of_string].
  - split; [intros _ c []|reflexivity].
  - destruct (isRegExpSpecial c) eqn:Ec.
    + split.
      * intros E. apply (f_equal String.length) in E.
        pose proof (escapeRegExp_length s). cbn [String.length] in E. lia.
      * intros H. specialize (H c (or_introl eq_refl)). congruence.
    + split.
      * intros E. injection E as E. intros d [<-|Hd]; [exact Ec|].
        now apply IH.
      * intros H. f_equal. apply IH. intros d Hd. apply H. now right.
Qed.

End EscapeFacts.

(** X14.  [escapeRegExp] makes a value safe to put in a pattern: the
    escaped text, read as a pattern source, is the plain sequence of
    the units of the value.  It is at least as long as the value and
    at most twice as long, and it is the value itself exactly when the
    value has no unit of the escaped class. *)
Theorem X14_escaped_value_reads_back (s : string) :
  readLiteral (escapeRegExp s) = Some s
  /\ (String.length s <= String.length (escapeRegExp s) <= 2 * String.length s)%nat
  /\ (escapeRegExp s = s
      <-> forall c, In c (list_ascii_of_string s) -> isRegExpSpecial c = false).
Proof.
  split; [|split; [|apply escapeRegExp_plain]].
  - induction s as [|c s IH]; [reflexivity|].
    cbn [escapeRegExp]. destruct (isRegExpSpecial c) eqn:Ec.
    + cbn [readLiteral]. change (Ascii.eqb "\" "\") with true. cbv iota.
      now rewrite Ec, IH.
    + cbn [readLiteral]. now rewrite (special_backslash c Ec), Ec, IH.
  - apply escapeRegExp_length.
Qed.

Section BoundaryFacts.
Import Spec.

Lemma get_after (b r : string) :
  String.get (String.length b) (b +:+ r) = firstUnit r.
Proof.
  induction b as [|c b IH]; [now destruct r|exact IH].
Qed.

Lemma get_last (c : ascii) (b r : string) :
  String.get (String.length b) (String c b +:+ r) = lastUnit (String c b).
Proof.
  revert c. induction b as [|d b IH]; intros c; [reflexivity|].
  change (String c (String d b) +:+ r) with (String c (String d b +:+ r)).
  cbn [String.length String.get lastUnit]. apply IH.
Qed.

Lemma unitOK (u : option ascii) :
  (let ch := match u with Some c => String c EmptyString | None => EmptyString end in
   isEmpty ch || testWordBoundary ch) = true
  <-> edgeOrBoundary u.
Proof.
  destruct u as [c|]; cbn; [|tauto].
  rewrite orb_false_r. apply negb_true_iff.
Qed.

Lemma hasWordBoundary_at (b v a : string) :
  hasWordBoundary (b +:+ v +:+ a)
    (Z.of_nat (String.length b)) (Z.of_nat (String.length v)) = true
  <-> edgeOrBoundary (lastUnit b) /\ edgeOrBoundary (firstUnit a).
Proof.
  unfold hasWordBoundary. cbv zeta. rewrite andb_true_iff.
  assert (Hnext : charAt (b +:+ v +:+ a)
                    (Z.of_nat (String.length b) + Z.of_nat (String.length v))
                  = match firstUnit a with
                    | Some c => String c EmptyString
                    | None => EmptyString
                    end).
  { unfold charAt.
    destruct (Z.ltb_spec (Z.of_nat (String.length b) + Z.of_nat (String.length v)) 0);
      [lia|].
    rewrite <- Nat2Z.inj_add, Nat2Z.id, <- append_length, <- append_assoc.
    now rewrite get_after. }
  rewrite Hnext, (unitOK (firstUnit a)).
  apply and_iff_compat_r.
  destruct b as [|c b].
  - cbn. tauto.
  - destruct (Z.eqb_spec (Z.of_nat (String.length (String c b))) 0) as [E|_];
      [cbn in E; lia|].
    unfold charAt.
    destruct (Z.ltb_spec (Z.of_nat (String.length (String c b)) - 1) 0);
      [cbn [String.length] in *; lia|].
    replace (Z.to_nat (Z.of_nat (String.length (String c b)) - 1))
      with (String.length b) by (cbn [String.length]; lia).
    rewrite get_last.
    apply (unitOK (lastUnit (String c b))).
Qed.

Lemma firstIndex_none (s v : string) :
  firstIndex s v = None <-> includes s v = false.
Proof.
  induction s as [|c s IH]; cbn [firstIndex includes].
  - destruct (startsWith "" v); cbn; split; congruence.
  - destruct (startsWith (String c s) v); cbn [orb]; [split; congruence|].
    rewrite <- IH. destruct (firstIndex s v); cbn; split; congruence.
Qed.

Lemma indexOf_found (s v : string) :
  negb (indexOf s v =? -1) = includes s v.
Proof.
  unfold indexOf. destruct (firstIndex s v) as [i|] eqn:E.
  - destruct (includes s v) eqn:Ei.
    + destruct (Z.eqb_spec (Z.of_nat i) (-1)); [lia|reflexivity].
    + apply firstIndex_none in Ei. congruence.
  - apply firstIndex_none in E. now rewrite E.
Qed.

Lemma includes_self (v : string) : includes v v = true.
Proof.
  apply includes_iff. exists "", "". cbn. now rewrite append_empty_r.
Qed.

Lemma test_includes (s v : string) :
  ExactPattern.test s v = true -> includes s v = true.
Proof.
  rewrite test_iff, includes_iff. intros (b & a & E & _). now exists b, a.
Qed.

End BoundaryFacts.

(** X15.  The two whole-word tests of the code agree: the pattern
    that [haystackIncludesTerm] builds for a quoted term matches [s]
    exactly when the value occurs in [s] at some index at which
    [hasWordBoundary], the test of the scorer, holds.  Hence a quoted
    term that a haystack includes is also included as an unquoted
    term. *)
Theorem X15_exact_pattern_agrees_with_hasWordBoundary (s v : string) :
  (ExactPattern.test s v = true
   <-> exists i : nat,
         (exists before after,
             s = before +:+ v +:+ after /\ String.length before = i)
         /\ hasWordBoundary s (Z.of_nat i) (Z.of_nat (String.length v)) = true)
  /\ (forall e n n',
        haystackIncludesTerm s (mkTerm v true n) = true ->
        haystackIncludesTerm s (mkTerm v e n') = true).
Proof.
  split.
  - rewrite test_iff. unfold Spec.occursBounded. split.
    + intros (b & a & -> & Hb & Ha). exists (String.length b). split.
      * now exists b, a.
      * now apply hasWordBoundary_at.
    + intros (i & (b & a & -> & <-) & H). exists b, a.
      apply hasWordBoundary_at in H. tauto.
  - intros e n n'. unfold haystackIncludesTerm. cbn [value exact negb].
    destruct (isEmpty v); [discriminate|].
    destruct e; cbn [negb]; [tauto|apply test_includes].
Qed.

Lemma includes_empty (c : ascii) (v : string) :
  includes "" (String c v) = false.
Proof. reflexivity. Qed.

(** X16.  A term adds to the score only where it occurs: what a term
    adds is positive only if its value is not empty and occurs in the
    name root, the display name, the tags or the path; and an unquoted
    term with a non-empty value that occurs in one of the four adds
    120 or more. *)
Theorem X16_a_term_scores_only_where_it_occurs
    (nameRoot displayName path tags : string) (t : term) :
  (0 < termScore nameRoot displayName path tags t ->
   value t <> ""
   /\ (includes nameRoot (value t) || includes displayName (value t)
       || includes tags (value t) || includes path (value t)) = true)
  /\ (exact t = false -> value t <> "" ->
      (includes nameRoot (value t) || includes displayName (value t)
       || includes tags (value t) || includes path (value t)) = true ->
      120 <= termScore nameRoot displayName path tags t).
Proof.
  unfold termScore. cbv zeta. destruct t as [w e ng]. cbn [value exact].
  destruct w as [|c v]; cbn [isEmpty]; [split; [lia|congruence]|].
  assert (Hwne : isEmpty (String c v) = false) by reflexivity.
  assert (Hte : isEmpty tags = true -> includes tags (String c v) = false)
    by (destruct tags; [reflexivity|discriminate]).
  assert (Hpe : isEmpty path = true -> includes path (String c v) = false)
    by (destruct path; [reflexivity|discriminate]).
  generalize dependent (String c v). clear c v. intros w Hwne Hte Hpe.
  assert (Hw : w <> "") by (intros ->; discriminate).
  rewrite !indexOf_found.
  destruct (String.eqb_spec nameRoot w) as [->|_].
  { rewrite includes_self. split; [intros _; split; [exact Hw|reflexivity]|lia]. }
  destruct (String.eqb_spec displayName w) as [->|_].
  { rewrite includes_self, orb_true_r. split; [intros _; split; [exact Hw|reflexivity]|lia]. }
  destruct (includes nameRoot w) eqn:En; cbn [orb].
  { split; [intros _; split; [exact Hw|reflexivity]|]. intros -> _ _. cbn [negb].
    repeat match goal with |- context [if ?b then _ else _] => destruct b end; lia. }
  destruct (includes displayName w) eqn:Ed; cbn [orb].
  { split; [intros _; split; [exact Hw|reflexivity]|]. intros -> _ _. cbn [negb].
    repeat match goal with |- context [if ?b then _ else _] => destruct b end; lia. }
  unfold haystackIncludesTerm. cbn [value exact]. rewrite Hwne.
  pose proof (test_includes tags w) as Htest.
  destruct (isEmpty tags), (isEmpty path), e,
    (ExactPattern.test tags w), (includes tags w), (includes path w);
    cbn [negb andb orb]; rewrite ?orb_true_r, ?orb_false_r;
    try (specialize (Htest eq_refl)); try (specialize (Hte eq_refl));
    try (specialize (Hpe eq_refl)); try discriminate;
    (split; [intros H; split; [exact Hw|]; try reflexivity|
             intros He Hw2 Hin; try discriminate; try lia]);
    repeat match goal with
           | H : context [if ?b then _ else _] |- _ => destruct b
           | |- context [if ?b then _ else _] => destruct b
           end; try lia; try discriminate; try reflexivity.
Qed.

(** ** Range selection on the grid *)

Section GridFacts.
Import GridSelection.

Lemma rangeIndices_sym (from to : Z) : rangeIndices from to = rangeIndices to from.
Proof. unfold rangeIndices. now rewrite (Z.min_comm from to), (Z.max_comm from to). Qed.

Lemma rangeIndices_In (from to : Z) (i : nat) :
  In i (rangeIndices from to) <-> inRange from to i.
Proof. unfold rangeIndices, inRange. rewrite in_seq. lia. Qed.

Variable o : options.
Variable visible : list gridItem.

Lemma nonempty_key (k : string) : k <> "" <-> isEmpty k = false.
Proof. destruct k; cbn; split; congruence. Qed.

Lemma in_remove (K : gset string) (x k : string) :
  k ∈ K ∖ {[x]} <-> k ∈ K /\ k <> x.
Proof. now rewrite elem_of_difference, elem_of_singleton. Qed.

Lemma in_add (K : gset string) (x k : string) :
  k ∈ K ∪ {[x]} <-> k ∈ K \/ k = x.
Proof. now rewrite elem_of_union, elem_of_singleton. Qed.

Lemma exclusive_fold (idx : list nat) (K : gset string) (k : string) :
  k ∈ fold_left (exclusiveStep o visible) idx K
  <-> k ∈ K \/ exists i, In i idx /\ touches o visible i k /\ isItemLocked o (itemAt visible i) = false.
Proof.
  revert K. induction idx as [|i idx IH]; intros K; cbn [fold_left].
  - split; [now left|]. intros [H|(i & [] & _)]. exact H.
  - rewrite IH. unfold exclusiveStep at 1, touches. cbv zeta.
    destruct (isEmpty (computeItemKey o (itemAt visible i))) eqn:Ee.
    { split.
      - intros [H|(j & Hj & Ht)]; [now left|]. right. exists j. split; [now right|exact Ht].
      - intros [H|(j & [<- | Hj] & (Hk & Hne) & Hl)]; [now left| |].
        + apply nonempty_key in Hne. congruence.
        + right. now exists j. }
    destruct (isItemLocked o (itemAt visible i)) eqn:El.
    { split.
      - intros [H|(j & Hj & Ht)]; [now left|]. right. exists j. split; [now right|exact Ht].
      - intros [H|(j & [<- | Hj] & Ht & Hl)]; [now left|congruence|].
        right. now exists j. }
    rewrite in_add. split.
    + intros [[H| ->]|(j & Hj & Ht)].
      * now left.
      * right. exists i. split; [now left|]. split; [|exact El].
        split; [reflexivity|now apply nonempty_key].
      * right. exists j. split; [now right|exact Ht].
    + intros [H|(j & [<- | Hj] & (Hk & Hne) & Hl)].
      * left. now left.
      * left. right. now symmetry.
      * right. now exists j.
Qed.

Variable mode : string.

Lemma range_untouched (idx : list nat) (K : gset string) (k : string) :
  (forall i, In i idx -> ~ touches o visible i k) ->
  k ∈ fold_left (rangeStep o visible mode) idx K <-> k ∈ K.
Proof.
  revert K. induction idx as [|i idx IH]; intros K Hno; cbn [fold_left]; [tauto|].
  rewrite IH by (intros j Hj; apply Hno; now right).
  specialize (Hno i (or_introl eq_refl)). unfold touches in Hno.
  unfold rangeStep. cbv zeta.
  destruct (isEmpty (computeItemKey o (itemAt visible i))) eqn:Ee; [tauto|].
  apply nonempty_key in Ee.
  assert (Hk : k <> computeItemKey o (itemAt visible i)).
  { intros ->. apply Hno. now split. }
  destruct (String.eqb mode "remove"); [rewrite in_remove; tauto|].
  destruct (isItemLocked o (itemAt visible i));
    [rewrite in_remove|rewrite in_add]; tauto.
Qed.

Lemma range_removed (idx : list nat) (K : gset string) (k : string) :
  (forall i, In i idx -> touches o visible i k ->
             mode = "remove" \/ isItemLocked o (itemAt visible i) = true) ->
  k ∈ fold_left (rangeStep o visible mode) idx K
  <-> k ∈ K /\ forall i, In i idx -> ~ touches o visible i k.
Proof.
  revert K. induction idx as [|i idx IH]; intros K Hrm; cbn [fold_left].
  - split; [intros H; split; [exact H|intros i []]|tauto].
  - rewrite IH by (intros j Hj; apply Hrm; now right).
    specialize (Hrm i (or_introl eq_refl)). unfold touches in *.
    unfold rangeStep. cbv zeta.
    destruct (isEmpty (computeItemKey o (itemAt visible i))) eqn:Ee.
    { split.
      - intros [H Hno]. split; [exact H|]. intros j [<- | Hj]; [|now apply Hno].
        intros [Hk Hne]. apply nonempty_key in Hne. congruence.
      - intros [H Hno]. split; [exact H|]. intros j Hj. apply Hno. now right. }
    apply nonempty_key in Ee.
    destruct (String.eqb_spec k (computeItemKey o (itemAt visible i))) as [Ek|Ek].
    + assert (Hne : k <> "") by congruence.
      assert (Hout : k ∉ K ∖ {[computeItemKey o (itemAt visible i)]})
        by (rewrite in_remove; tauto).
      destruct (Hrm (conj (eq_sym Ek) Hne)) as [-> | Hl].
      * cbn. split; [tauto|]. intros [_ Hno]. exfalso.
        apply (Hno i (or_introl eq_refl)). split; congruence.
      * rewrite Hl. destruct (String.eqb mode "remove").
        -- split; [tauto|]. intros [_ Hno]. exfalso.
           apply (Hno i (or_introl eq_refl)). split; congruence.
        -- split; [tauto|]. intros [_ Hno]. exfalso.
           apply (Hno i (or_introl eq_refl)). split; congruence.
    + assert (Hsame : k ∈ (if String.eqb mode "remove"
                          then K ∖ {[computeItemKey o (itemAt visible i)]}
                          else if isItemLocked o (itemAt visible i)
                               then K ∖ {[computeItemKey o (itemAt visible i)]}
                               else K ∪ {[computeItemKey o (itemAt visible i)]})
                     <-> k ∈ K).
      { destruct (String.eqb mode "remove"); [rewrite in_remove; tauto|].
        destruct (isItemLocked o (itemAt visible i));
          [rewrite in_remove|rewrite in_add]; tauto. }
      rewrite Hsame. split.
      * intros [H Hno]. split; [exact H|]. intros j [<- | Hj]; [|now apply Hno].
        intros [Hk _]. congruence.
      * intros [H Hno]. split; [exact H|]. intros j Hj. apply Hno. now right.
Qed.

Lemma range_kept (idx : list nat) (K : gset string) (k : string) :
  mode <> "remove" ->
  (forall i, In i idx -> touches o visible i k -> isItemLocked o (itemAt visible i) = false) ->
  k ∈ fold_left (rangeStep o visible mode) idx K
  <-> k ∈ K \/ exists i, In i idx /\ touches o visible i k.
Proof.
  intros Hmode. apply String.eqb_neq in Hmode.
  revert K. induction idx as [|i idx IH]; intros K Hfree; cbn [fold_left].
  - split; [now left|]. intros [H|(i & [] & _)]. exact H.
  - rewrite IH by (intros j Hj; apply Hfree; now right).
    specialize (Hfree i (or_introl eq_refl)). unfold touches in *.
    unfold rangeStep. cbv zeta. rewrite Hmode.
    destruct (isEmpty (computeItemKey o (itemAt visible i))) eqn:Ee.
    { split.
      - intros [H|(j & Hj & Ht)]; [now left|]. right. exists j. split; [now right|exact Ht].
      - intros [H|(j & [<- | Hj] & (Hk & Hne))]; [now left| |].
        + apply nonempty_key in Hne. congruence.
        + right. now exists j. }
    apply nonempty_key in Ee.
    destruct (String.eqb_spec k (computeItemKey o (itemAt visible i))) as [Ek|Ek].
    + assert (Hne : k <> "") by congruence.
      rewrite (Hfree (conj (eq_sym Ek) Hne)).
      split; intros _.
      * right. exists i. split; [now left|]. split; congruence.
      * left. apply in_add. now right.
    + assert (Hsame : k ∈ (if isItemLocked o (itemAt visible i)
                          then K ∖ {[computeItemKey o (itemAt visible i)]}
                          else K ∪ {[computeItemKey o (itemAt visible i)]})
                     <-> k ∈ K).
      { destruct (isItemLocked o (itemAt visible i));
          [rewrite in_remove|rewrite in_add]; tauto. }
      rewrite Hsame. split.
      * intros [H|(j & Hj & Ht)]; [now left|]. right. exists j. split; [now right|exact Ht].
      * intros [H|(j & [<- | Hj] & (Hk & Hne))]; [now left|congruence|].
        right. now exists j.
Qed.

End GridFacts.

Section GridLookupFacts.
Import GridSelection.

Lemma findIndex_spec {A} (p : A -> bool) (l : list A) :
  (findIndex p l = -1 /\ forall x, In x l -> p x = false)
  \/ (exists (i : nat) (x : A),
        findIndex p l = Z.of_nat i /\ l !! i = Some x /\ p x = true
        /\ forall (j : nat) (y : A), (j < i)%nat -> l !! j = Some y -> p y = false).
Proof.
  induction l as [|a l IH]; cbn [findIndex].
  - left. split; [reflexivity|]. intros x [].
  - destruct (p a) eqn:Ea.
    + right. exists 0%nat, a. repeat split; auto. intros j y Hj. lia.
    + destruct IH as [[E Hall] | (i & x & E & Hi & Hx & Hlow)].
      * left. rewrite E. split; [reflexivity|].
        intros x [<- | Hx]; [exact Ea|now apply Hall].
      * right. exists (S i), x. rewrite E.
        destruct (Z.ltb_spec (Z.of_nat i) 0); [lia|].
        repeat split; auto; [lia|].
        intros [|j] y Hj Hy; [cbn in Hy; congruence|].
        apply (Hlow j y); [lia|exact Hy].
Qed.

Lemma defaultKey_lower (item : gridItem) :
  toLowerCase (defaultKey item) = defaultKey item.
Proof.
  destruct item as [r|]; [|reflexivity]. unfold defaultKey.
  repeat match goal with |- context [if ?b then _ else _] => destruct b end;
    auto using toLowerCase_idem.
Qed.

Lemma computeItemKey_lower (o : options) (item : gridItem) :
  toLowerCase (computeItemKey o item) = computeItemKey o item.
Proof.
  unfold computeItemKey. destruct (optComputeItemKey o) as [f|];
    [destruct (f item)|]; auto using toLowerCase_idem, defaultKey_lower.
Qed.

Lemma indexOfVisibleKey_eq (o : options) (h : helper)
    (key : jsval) (fallbackItem : gridItem) :
  indexOfVisibleKey o h key fallbackItem
  = let byKey k :=
      findIndex (fun it => String.eqb (computeItemKey o it) k) (getVisibleList o h) in
    if 0 <=? (if truthy key then byKey (toLowerCase (toStr key)) else -1)
    then if truthy key then byKey (toLowerCase (toStr key)) else -1
    else match fallbackItem with
         | Some _ =>
             if 0 <=? byKey (computeItemKey o fallbackItem)
             then byKey (computeItemKey o fallbackItem) else -1
         | None => -1
         end.
Proof.
  unfold indexOfVisibleKey. destruct (getVisibleList o h); [|reflexivity].
  now destruct (truthy key), fallbackItem.
Qed.

Lemma findIndex_key (o : options) (visible : list gridItem) (k : string) :
  let byKey := findIndex (fun it => String.eqb (computeItemKey o it) k) visible in
  (byKey = -1 /\ forall x, In x visible -> computeItemKey o x <> k)
  \/ (exists (i : nat) (x : gridItem),
         byKey = Z.of_nat i /\ visible !! i = Some x
         /\ computeItemKey o x = k
         /\ forall (j : nat) (y : gridItem),
             (j < i)%nat -> visible !! j = Some y ->
             computeItemKey o y <> k).
Proof.
  cbv zeta.
  destruct (findIndex_spec (fun it => String.eqb (computeItemKey o it) k) visible)
    as [[E Hall] | (i & x & E & Hi & Hx & Hlow)].
  - left. split; [exact E|]. intros x Hx. apply String.eqb_neq. now apply Hall.
  - right. exists i, x. repeat split; auto.
    + now apply String.eqb_eq.
    + intros j y Hj Hy. apply String.eqb_neq. now apply (Hlow j y).
Qed.

End GridLookupFacts.

Import GridSelection.

(** X17.  [applyRangeSelectionExclusive] replaces the selection: a
    key is selected afterwards exactly when the visible list is not
    empty and the key is the non-empty key of an unlocked item of the
    list at an index between [max(0, min(from, to))] and
    [max(0, max(from, to))].  The result does not depend on the order
    of [from] and [to] nor on what was selected before, and the
    visible items and the last clicked index are untouched. *)
Theorem X17_exclusive_range_replaces_the_selection
    (o : options) (h : helper) (from to : Z) (k : string) :
  (k ∈ selectedKeys (applyRangeSelectionExclusive o h from to)
   <-> getVisibleList o h <> []
       /\ exists i, inRange from to i
            /\ computeItemKey o (itemAt (getVisibleList o h) i) = k
            /\ k <> ""
            /\ isItemLocked o (itemAt (getVisibleList o h) i) = false)
  /\ applyRangeSelectionExclusive o h to from
     = applyRangeSelectionExclusive o h from to
  /\ (forall keys,
        applyRangeSelectionExclusive o
          (mkHelper keys (lastClickedIndex h) (visibleItems h)) from to
        = applyRangeSelectionExclusive o h from to)
  /\ visibleItems (applyRangeSelectionExclusive o h from to) = visibleItems h
  /\ lastClickedIndex (applyRangeSelectionExclusive o h from to)
     = lastClickedIndex h.
Proof.
  split; [|split; [|split; [|split]]].
  - unfold applyRangeSelectionExclusive.
    destruct (getVisibleList o h) as [|x l] eqn:El.
    + cbn [selectedKeys]. rewrite elem_of_empty. tauto.
    + cbn [selectedKeys]. rewrite exclusive_fold, elem_of_empty. split.
      * intros [[] | (i & Hi & (Hk & Hne) & Hl)]. split; [discriminate|].
        exists i. apply rangeIndices_In in Hi. tauto.
      * intros (_ & i & Hi & Hk & Hne & Hl). right. exists i.
        apply rangeIndices_In in Hi. unfold touches. tauto.
  - unfold applyRangeSelectionExclusive. now rewrite (rangeIndices_sym to from).
  - intros keys. unfold applyRangeSelectionExclusive, getVisibleList. reflexivity.
  - unfold applyRangeSelectionExclusive. now destruct (getVisibleList o h).
  - unfold applyRangeSelectionExclusive. now destruct (getVisibleList o h).
Qed.

(** X18.  [applyRangeSelection] on a key [k].  With an empty
    visible list nothing changes.  Otherwise a key that no visited
    item has is selected afterwards exactly when it was before; in
    mode remove, and also when every visited item with the key is
    locked, the key is selected afterwards exactly when it was before
    and no visited item has it; in another mode, when every visited
    item with the key is unlocked, the key is selected afterwards
    exactly when it was before or a visited item has it.  The order of
    [from] and [to] does not matter and the visible items are
    untouched. *)
Theorem X18_range_selection_by_mode
    (o : options) (h : helper) (from to : Z) (mode : string) (k : string) :
  (getVisibleList o h = [] -> applyRangeSelection o h from to mode = h)
  /\ (getVisibleList o h <> [] ->
      (~ keyInRange o (getVisibleList o h) from to k ->
       (k ∈ selectedKeys (applyRangeSelection o h from to mode)
        <-> k ∈ selectedKeys h))
      /\ (mode = "remove" ->
          (k ∈ selectedKeys (applyRangeSelection o h from to mode)
           <-> k ∈ selectedKeys h
               /\ ~ keyInRange o (getVisibleList o h) from to k))
      /\ (mode <> "remove" ->
          (forall i, inRange from to i ->
                     computeItemKey o (itemAt (getVisibleList o h) i) = k ->
                     isItemLocked o (itemAt (getVisibleList o h) i) = false) ->
          (k ∈ selectedKeys (applyRangeSelection o h from to mode)
           <-> k ∈ selectedKeys h
               \/ keyInRange o (getVisibleList o h) from to k))
      /\ ((forall i, inRange from to i ->
                     computeItemKey o (itemAt (getVisibleList o h) i) = k ->
                     isItemLocked o (itemAt (getVisibleList o h) i) = true) ->
          (k ∈ selectedKeys (applyRangeSelection o h from to mode)
           <-> k ∈ selectedKeys h
               /\ ~ keyInRange o (getVisibleList o h) from to k)))
  /\ applyRangeSelection o h to from mode = applyRangeSelection o h from to mode
  /\ visibleItems (applyRangeSelection o h from to mode) = visibleItems h.
Proof.
  assert (Hno : forall visible,
             ~ keyInRange o visible from to k
             <-> forall i, In i (rangeIndices from to) -> ~ touches o visible i k).
  { intros visible. unfold keyInRange, touches. split.
    - intros Hno i Hi Ht. apply Hno. exists i.
      apply rangeIndices_In in Hi. tauto.
    - intros Hno (i & Hi & Ht). apply (Hno i); [now apply rangeIndices_In|exact Ht]. }
  assert (Hyes : forall visible,
             keyInRange o visible from to k
             <-> exists i, In i (rangeIndices from to) /\ touches o visible i k).
  { intros visible. unfold keyInRange, touches. split.
    - intros (i & Hi & Ht). exists i. split; [now apply rangeIndices_In|exact Ht].
    - intros (i & Hi & Ht). exists i. apply rangeIndices_In in Hi. tauto. }
  split; [|split; [|split]].
  - unfold applyRangeSelection. now intros ->.
  - intros Hne. unfold applyRangeSelection.
    destruct (getVisibleList o h) as [|x l] eqn:El; [congruence|].
    cbn [selectedKeys]. split; [|split; [|split]].
    + intros Hk. apply range_untouched. now apply Hno.
    + intros ->. rewrite Hno. apply range_removed. intros i _ _. now left.
    + intros Hmode Hfree. rewrite Hyes. apply range_kept; [exact Hmode|].
      intros i Hi [Hk _]. apply Hfree; [now apply rangeIndices_In|exact Hk].
    + intros Hlocked. rewrite Hno. apply range_removed.
      intros i Hi [Hk _]. right. apply Hlocked; [now apply rangeIndices_In|exact Hk].
  - unfold applyRangeSelection. now rewrite (rangeIndices_sym to from).
  - unfold applyRangeSelection. now destruct (getVisibleList o h).
Qed.

(** X19.  [indexOfVisibleKey] returns -1 or an index of the visible
    list.  The item at the index returned has the lowercased key
    asked for, or the key of the fallback item.  When the key asked
    for is truthy and some item has it, the result is the first index
    of such an item.  Looking up the non-empty key of an item that is
    the first with its key gives back the index of the item. *)
Theorem X19_indexOfVisibleKey_finds_the_first_item_with_the_key
    (o : options) (h : helper) (key : jsval) (fallbackItem : gridItem) :
  (-1 <= indexOfVisibleKey o h key fallbackItem
      < Z.of_nat (List.length (getVisibleList o h)))
  /\ (forall i : nat,
        indexOfVisibleKey o h key fallbackItem = Z.of_nat i ->
        exists item,
          getVisibleList o h !! i = Some item
          /\ ((truthy key = true
               /\ computeItemKey o item = toLowerCase (toStr key))
              \/ (fallbackItem <> None
                  /\ computeItemKey o item = computeItemKey o fallbackItem)))
  /\ (forall (i : nat) (item : gridItem),
        truthy key = true ->
        getVisibleList o h !! i = Some item ->
        computeItemKey o item = toLowerCase (toStr key) ->
        exists (r : nat) (first : gridItem),
          indexOfVisibleKey o h key fallbackItem = Z.of_nat r
          /\ (r <= i)%nat
          /\ getVisibleList o h !! r = Some first
          /\ computeItemKey o first = toLowerCase (toStr key))
  /\ (forall (i : nat) (item : gridItem),
        getVisibleList o h !! i = Some item ->
        computeItemKey o item <> "" ->
        (forall (j : nat) (other : gridItem),
            (j < i)%nat -> getVisibleList o h !! j = Some other ->
            computeItemKey o other <> computeItemKey o item) ->
        indexOfVisibleKey o h (JString (computeItemKey o item)) fallbackItem
        = Z.of_nat i).
Proof.
  assert (Hlen : forall (i : nat) (x : gridItem),
             getVisibleList o h !! i = Some x ->
             (i < List.length (getVisibleList o h))%nat).
  { intros i x Hx. apply lookup_lt_Some in Hx. exact Hx. }
  pose proof (findIndex_key o (getVisibleList o h)) as Hfind. cbv zeta in Hfind.
  split; [|split; [|split]].
  - rewrite indexOfVisibleKey_eq. cbv zeta.
    assert (Hfb : -1 <= match fallbackItem with
                        | Some _ =>
                            if 0 <=? findIndex
                                       (fun it => String.eqb (computeItemKey o it)
                                                    (computeItemKey o fallbackItem))
                                       (getVisibleList o h)
                            then findIndex
                                   (fun it => String.eqb (computeItemKey o it)
                                                (computeItemKey o fallbackItem))
                                   (getVisibleList o h)
                            else -1
                        | None => -1
                        end < Z.of_nat (List.length (getVisibleList o h))).
    { destruct fallbackItem as [r|]; [|lia].
      destruct (Hfind (computeItemKey o (Some r)))
        as [[E2 _] | (i & x & E2 & Hi & _)]; rewrite E2.
      - cbn. lia.
      - destruct (Z.leb_spec 0 (Z.of_nat i)); [|lia]. apply Hlen in Hi. lia. }
    destruct (truthy key); [|exact Hfb].
    destruct (Hfind (toLowerCase (toStr key))) as [[E _] | (i & x & E & Hi & _)];
      rewrite E; [exact Hfb|].
    destruct (Z.leb_spec 0 (Z.of_nat i)); [|lia]. apply Hlen in Hi. lia.
  - intros i. rewrite indexOfVisibleKey_eq. cbv zeta.
    assert (Hfb : match fallbackItem with
                  | Some _ =>
                      if 0 <=? findIndex
                                 (fun it => String.eqb (computeItemKey o it)
                                              (computeItemKey o fallbackItem))
                                 (getVisibleList o h)
                      then findIndex
                             (fun it => String.eqb (computeItemKey o it)
                                          (computeItemKey o fallbackItem))
                             (getVisibleList o h)
                      else -1
                  | None => -1
                  end = Z.of_nat i ->
                  exists item, getVisibleList o h !! i = Some item
                    /\ fallbackItem <> None
                    /\ computeItemKey o item = computeItemKey o fallbackItem).
    { destruct fallbackItem as [r|]; [|lia].
      destruct (Hfind (computeItemKey o (Some r)))
        as [[E2 _] | (j & x & E2 & Hj & Hx & _)]; rewrite E2.
      - cbn. lia.
      - destruct (Z.leb_spec 0 (Z.of_nat j)); [|lia]. intros E.
        apply Nat2Z.inj in E as <-. exists x. now repeat split. }
    destruct (truthy key).
    + destruct (Hfind (toLowerCase (toStr key)))
        as [[E _] | (j & x & E & Hj & Hx & _)]; rewrite E.
      * intros Hi. destruct (Hfb Hi) as (item & H1 & H2 & H3).
        exists item. split; [exact H1|]. right. now split.
      * destruct (Z.leb_spec 0 (Z.of_nat j)); [|lia]. intros Eq.
        apply Nat2Z.inj in Eq as <-. exists x. split; [exact Hj|]. left. now split.
    + intros Hi. destruct (Hfb Hi) as (item & H1 & H2 & H3).
      exists item. split; [exact H1|]. right. now split.
  - intros i item Ht Hi Hk. rewrite indexOfVisibleKey_eq. cbv zeta. rewrite Ht.
    destruct (Hfind (toLowerCase (toStr key)))
      as [[E Hall] | (j & x & E & Hj & Hx & Hlow)].
    + exfalso. apply (Hall item); [|exact Hk].
      apply list_elem_of_In. now apply list_elem_of_lookup_2 in Hi.
    + rewrite E. destruct (Z.leb_spec 0 (Z.of_nat j)); [|lia].
      exists j, x. repeat split; auto.
      destruct (Nat.le_gt_cases j i) as [|Hlt]; [assumption|].
      exfalso. exact (Hlow i item Hlt Hi Hk).
  - intros i item Hi Hne Hfirst. rewrite indexOfVisibleKey_eq. cbv zeta.
    cbn [truthy toStr]. rewrite computeItemKey_lower.
    apply nonempty_key in Hne. rewrite Hne. cbn [negb].
    destruct (Hfind (computeItemKey o item))
      as [[E Hall] | (j & x & E & Hj & Hx & Hlow)].
    + exfalso. apply (Hall item); [|reflexivity].
      apply list_elem_of_In. now apply list_elem_of_lookup_2 in Hi.
    + rewrite E. destruct (Z.leb_spec 0 (Z.of_nat j)); [|lia].
      f_equal. destruct (Nat.lt_trichotomy j i) as [Hlt | [-> | Hgt]].
      * exfalso. exact (Hfirst j x Hlt Hj Hx).
      * reflexivity.
      * exfalso. exact (Hlow i item Hgt Hi eq_refl).
Qed.

(** X20.  [computeItemKey] returns lowercase keys only, whatever the
    callback, and [indexOfVisibleKey] finds the same index for a key
    and for its lowercase form. *)
Theorem X20_item_keys_are_lowercase
    (o : options) (h : helper) (item : gridItem) (s : string) (fallbackItem : gridItem) :
  toLowerCase (computeItemKey o item) = computeItemKey o item
  /\ indexOfVisibleKey o h (JString (toLowerCase s)) fallbackItem
     = indexOfVisibleKey o h (JString s) fallbackItem.
Proof.
  split; [apply computeItemKey_lower|].
  unfold indexOfVisibleKey. cbn [truthy toStr]. rewrite toLowerCase_idem.
  replace (isEmpty (toLowerCase s)) with (isEmpty s) by now destruct s.
  reflexivity.
Qed.

Section GridComposeFacts.

Lemma getVisibleList_keys (o : options) (h : helper) (keys : gset string) (last : Z) :
  getVisibleList o (mkHelper keys last (visibleItems h)) = getVisibleList o h.
Proof. reflexivity. Qed.

Lemma applyRangeSelection_visible (o : options) (h : helper) (from to : Z) (mode : string) :
  getVisibleList o (applyRangeSelection o h from to mode) = getVisibleList o h.
Proof.
  unfold applyRangeSelection. now destruct (getVisibleList o h) eqn:E.
Qed.

Lemma locked_somewhere (o : options) (visible : list gridItem)
    (idx : list nat) (k : string) :
  (exists i, In i idx /\ touches o visible i k
             /\ isItemLocked o (itemAt visible i) = true)
  \/ (forall i, In i idx -> touches o visible i k ->
                isItemLocked o (itemAt visible i) = false).
Proof.
  induction idx as [|i idx IH].
  - right. intros i [].
  - destruct IH as [(j & Hj & Ht) | Hall].
    + left. exists j. split; [now right|exact Ht].
    + destruct (isItemLocked o (itemAt visible i)) eqn:El.
      * destruct (String.eqb_spec (computeItemKey o (itemAt visible i)) k) as [Ek|Ek].
        -- destruct (isEmpty k) eqn:Ee.
           ++ right. intros j [<- | Hj] Ht; [|now apply Hall].
              destruct Ht as [_ Hne]. apply nonempty_key in Hne. congruence.
           ++ left. exists i. split; [now left|]. split; [|exact El].
              split; [exact Ek|now apply nonempty_key].
        -- right. intros j [<- | Hj] Ht; [|now apply Hall].
           destruct Ht as [Hk _]. congruence.
      * right. intros j [<- | Hj] Ht; [exact El|now apply Hall].
Qed.

Lemma remove_after (o : options) (visible : list gridItem) (mode : string)
    (idx : list nat) (K : gset string) :
  fold_left (rangeStep o visible "remove") idx
    (fold_left (rangeStep o visible mode) idx K)
  = fold_left (rangeStep o visible "remove") idx K.
Proof.
  apply set_eq. intros k.
  rewrite !(range_removed o visible "remove") by (intros i _ _; now left).
  split; intros [Hk Hno]; (split; [|exact Hno]).
  - now apply (range_untouched o visible mode idx K k Hno) in Hk.
  - now apply (range_untouched o visible mode idx K k Hno).
Qed.

End GridComposeFacts.

(** X21.  When the items visited that share a key are all locked or
    all unlocked, [applyRangeSelectionExclusive] selects what
    [clearSelection] followed by [applyRangeSelection] in a mode other
    than remove selects. *)
Theorem X21_exclusive_is_clear_then_add
    (o : options) (h : helper) (from to : Z) :
  (forall i j, inRange from to i -> inRange from to j ->
               computeItemKey o (itemAt (getVisibleList o h) i)
               = computeItemKey o (itemAt (getVisibleList o h) j) ->
               isItemLocked o (itemAt (getVisibleList o h) i)
               = isItemLocked o (itemAt (getVisibleList o h) j)) ->
  selectedKeys (applyRangeSelectionExclusive o h from to)
  = selectedKeys (applyRangeSelection o (clearSelection h) from to "add").
Proof.
  intros Hsame. apply set_eq. intros k.
  unfold applyRangeSelectionExclusive, applyRangeSelection, clearSelection.
  rewrite getVisibleList_keys.
  destruct (getVisibleList o h) as [|x l] eqn:El; [reflexivity|].
  rewrite <- El in *. cbn [selectedKeys].
  rewrite exclusive_fold, elem_of_empty.
  destruct (locked_somewhere o (getVisibleList o h) (rangeIndices from to) k)
    as [(j & Hj & Ht & Hl) | Hfree].
  - assert (Hall : forall i, In i (rangeIndices from to) ->
                             touches o (getVisibleList o h) i k ->
                             "add" = "remove"
                             \/ isItemLocked o (itemAt (getVisibleList o h) i) = true).
    { intros i Hi [Hk _]. right. rewrite <- Hl.
      apply Hsame; [now apply rangeIndices_In..|]. destruct Ht as [Hk' _]. congruence. }
    rewrite (range_removed o _ "add" _ _ k Hall), elem_of_empty. split; [|tauto].
    intros [[] | (i & Hi & Hti & Hli)].
    destruct (Hall i Hi Hti) as [?|Hl']; [discriminate|congruence].
  - rewrite (range_kept o _ "add" _ _ k ltac:(discriminate) Hfree), elem_of_empty.
    split.
    + intros [[] | (i & Hi & Hti & _)]. right. now exists i.
    + intros [[] | (i & Hi & Hti)]. right. exists i. split; [exact Hi|].
      split; [exact Hti|now apply Hfree].
Qed.

Lemma X21_witness :
  selectedKeys
    (applyRangeSelectionExclusive (mkOptions None None None)
       (mkHelper {["old"]} 0
          [Some {["file_path" := JString "Maps/Cave.webp"]};
           Some {["filename" := JString "Orc.png"]}]) 0 1)
  = selectedKeys
      (applyRangeSelection (mkOptions None None None)
         (clearSelection
            (mkHelper {["old"]} 0
               [Some {["file_path" := JString "Maps/Cave.webp"]};
                Some {["filename" := JString "Orc.png"]}])) 0 1 "add").
Proof.
  apply (X21_exclusive_is_clear_then_add (mkOptions None None None)
           (mkHelper {["old"]} 0
              [Some {["file_path" := JString "Maps/Cave.webp"]};
               Some {["filename" := JString "Orc.png"]}]) 0 1).
  intros i j _ _ _. reflexivity.
Defined.

(** X22.  Removing a range after any range selection over the same
    range selects what removing the range from the original selection
    selects, which is a part of the original selection. *)
Theorem X22_remove_undoes_any_range_selection
    (o : options) (h : helper) (from to : Z) (mode : string) :
  selectedKeys
    (applyRangeSelection o (applyRangeSelection o h from to mode) from to "remove")
  = selectedKeys (applyRangeSelection o h from to "remove")
  /\ selectedKeys (applyRangeSelection o h from to "remove") ⊆ selectedKeys h.
Proof.
  split.
  - unfold applyRangeSelection at 1. rewrite applyRangeSelection_visible.
    unfold applyRangeSelection.
    destruct (getVisibleList o h) as [|x l] eqn:El; [reflexivity|].
    cbn [selectedKeys]. apply remove_after.
  - intros k. unfold applyRangeSelection.
    destruct (getVisibleList o h) as [|x l] eqn:El; [tauto|].
    cbn [selectedKeys].
    rewrite (range_removed o (x :: l) "remove") by (intros i _ _; now left).
    tauto.
Qed.
